(** * Redaction of SSNs and payment card numbers: [scripts/redact_sensitive.py]

    A shallow embedding of the redaction script and the properties of its
    Luhn validator, its two matchers, the redaction engine and the per-file
    step of the pipeline.

    Text is a list of characters.  A character is a code point of the range
    U+0000..U+00FF (the type [ascii]); the character classes [\d], [\w] of
    Python's [re] module on [str] patterns are those of the Unicode database
    on that range. *)

From Stdlib.Strings Require Import Ascii String Byte.
From Stdlib Require Import List ZArith NArith Bool Arith Lia.
Import ListNotations.

Set Implicit Arguments.

(* ================================================================= *)
(** * Part I: the embedding *)
(* ================================================================= *)

(** ** Characters and text *)

Definition text := list ascii.

(** A string literal of the source, as text. *)
Definition lit (s : string) : text := list_ascii_of_string s.

(** [ord(ch)]. *)
Definition ord (c : ascii) : Z := Z.of_N (N_of_ascii c).

Definition in_range (lo hi : N) (c : ascii) : bool :=
  (lo <=? N_of_ascii c)%N && (N_of_ascii c <=? hi)%N.

(** [\d]: a decimal digit (Unicode category Nd; in this range, [0-9]). *)
Definition is_digit (c : ascii) : bool := in_range 48 57 c.

(** [\D]: anything that is not a decimal digit. *)
Definition is_nondigit (c : ascii) : bool := negb (is_digit c).

(** [\w]: alphanumeric ([str.isalnum]) or underscore.  Beyond
    [[A-Za-z0-9_]] the range holds the letters and numerics of Latin-1. *)
Definition is_word (c : ascii) : bool :=
  in_range 48 57 c || in_range 65 90 c || in_range 97 122 c
  || in_range 95 95 c
  || in_range 170 170 c || in_range 178 179 c || in_range 181 181 c
  || in_range 185 186 c || in_range 188 190 c
  || in_range 192 214 c || in_range 216 246 c || in_range 248 255 c.

(** [[- ]] and [[ -]]: a hyphen or a space. *)
Definition is_sep (c : ascii) : bool :=
  in_range 45 45 c || in_range 32 32 c.

(** ** The Luhn validator *)

(** One iteration of the loop body of [luhn_is_valid]: [i] is the index,
    [ch] the character, [total] the running sum. *)
Definition luhn_step (parity : Z) (total : Z) (i : Z) (ch : ascii) : Z :=
  (let d := ord ch - 48 in
   let d :=
     if i mod 2 =? parity
     then (let d := d * 2 in if d >? 9 then d - 9 else d)
     else d in
   total + d)%Z.

(** [for i, ch in enumerate(digits)], from index [i] with running sum
    [total]. *)
Fixpoint luhn_loop (parity : Z) (i : Z) (total : Z) (digits : text) : Z :=
  match digits with
  | [] => total
  | ch :: rest =>
      luhn_loop parity (i + 1)%Z (luhn_step parity total i ch) rest
  end.

Definition luhn_is_valid (digits : text) : bool :=
  let total := 0%Z in
  let parity := (Z.of_nat (length digits) mod 2)%Z in
  (luhn_loop parity 0 total digits mod 10 =? 0)%Z.

(** The reference algorithm, in the words of the specification: walking
    from the rightmost digit, every second digit (the second-rightmost
    first) is doubled, 9 is taken off a doubled value above 9, and the
    number is accepted when the sum is divisible by 10. *)
Definition luhn_double (d : Z) : Z :=
  (if 2 * d >? 9 then 2 * d - 9 else 2 * d)%Z.

Fixpoint luhn_sum_from_right (doubled : bool) (rev_digits : text) : Z :=
  match rev_digits with
  | [] => 0%Z
  | ch :: rest =>
      ((if doubled then luhn_double (ord ch - 48) else ord ch - 48)
       + luhn_sum_from_right (negb doubled) rest)%Z
  end.

Definition luhn_reference (digits : text) : bool :=
  (luhn_sum_from_right false (rev digits) mod 10 =? 0)%Z.

(** The same sum by the index rule of the specification: the digit at
    index [i] (from the left, first index [i0]) is doubled when [i] has
    the parity [parity]. *)
Fixpoint luhn_index_sum (parity : Z) (i0 : Z) (digits : text) : Z :=
  match digits with
  | [] => 0%Z
  | ch :: rest =>
      ((if i0 mod 2 =? parity then luhn_double (ord ch - 48)
        else ord ch - 48)
       + luhn_index_sum parity (i0 + 1) rest)%Z
  end.

(** ** Regular expressions of Python's [re], as far as the script uses them *)

(** Capturing groups are left out: the replacement callbacks of the script
    read [group(0)] only, and a group does not change what is matched. *)
Inductive regex : Type :=
| Class (p : ascii -> bool)                      (* one character of a class *)
| Boundary                                       (* [\b] *)
| Seq (r1 r2 : regex)                            (* [r1 r2] *)
| Repeat (r : regex) (lo : nat) (hi : option nat). (* greedy [r{lo,hi}] *)

Declare Scope regex_scope.
Delimit Scope regex_scope with regex.
Bind Scope regex_scope with regex.
Notation "r1 >> r2" := (Seq r1 r2)
  (at level 61, right associativity) : regex_scope.

(** [r?] and [r{n}]. *)
Definition opt (r : regex) : regex := Repeat r 0 (Some 1).
Definition times (n : nat) (r : regex) : regex := Repeat r n (Some n).
(** [r+]. *)
Definition plus (r : regex) : regex := Repeat r 1 None.

(** [\b] at a position: the character before it ([prev], [None] at the
    start of the text) and the character after it (the head of [s]) differ
    in being word characters; off the ends counts as a non-word. *)
Definition at_boundary (prev : option ascii) (s : text) : bool :=
  let thatp := match prev with Some c => is_word c | None => false end in
  let thisp := match s with c :: _ => is_word c | [] => false end in
  xorb thisp thatp.

(** A continuation receives the position the match has reached: the
    character before it and the rest of the text.  It answers with the
    length of the whole match, or [None] to make the matcher backtrack. *)
Definition cont := option ascii -> text -> option nat.

(** The greedy loop of [r{lo,hi}]: [budget] iterations are still allowed
    and [need] are still required.  One more iteration is tried first; the
    loop is left only when that fails downstream. *)
Fixpoint rep_loop (body : option ascii -> text -> cont -> option nat)
  (k : cont) (budget need : nat) (prev : option ascii) (s : text)
  {struct budget} : option nat :=
  match budget with
  | O => if need =? 0 then k prev s else None
  | S budget' =>
      match body prev s (rep_loop body k budget' (pred need)) with
      | Some n => Some n
      | None => if need =? 0 then k prev s else None
      end
  end.

(** The backtracking matcher.  An unbounded repetition is unrolled at most
    once per remaining character, which is exact when an iteration consumes
    at least one character, as every repeated body of the script does. *)
Fixpoint bt (r : regex) (prev : option ascii) (s : text) (k : cont)
  {struct r} : option nat :=
  match r with
  | Class p =>
      match s with
      | c :: s' => if p c then k (Some c) s' else None
      | [] => None
      end
  | Boundary => if at_boundary prev s then k prev s else None
  | Seq r1 r2 => bt r1 prev s (fun prev' s' => bt r2 prev' s' k)
  | Repeat r lo hi =>
      let budget := match hi with Some h => h | None => length s end in
      rep_loop (bt r) k budget lo prev s
  end.

(** One match attempt at a position.  With [must_advance] an empty match
    is refused, and the matcher backtracks for another one. *)
Definition accept (must_advance : bool) (s : text) : cont :=
  fun _ s' =>
    let n := length s - length s' in
    if must_advance && (n =? 0) then None else Some n.

Definition match_at (r : regex) (must_advance : bool)
  (prev : option ascii) (s : text) : option nat :=
  bt r prev s (accept must_advance s).

(** What the scan of [re.sub] / [re.finditer] yields, in text order: a
    character outside every match, or a match with its [group(0)]. *)
Inductive piece : Type :=
| Keep (c : ascii)
| Hit (m : text).

(** The matches that start at one position, and the length of the last:
    after an empty match the same position is tried again for a non-empty
    one. *)
Definition attempts (r : regex) (prev : option ascii) (s : text)
  : list text * nat :=
  match match_at r false prev s with
  | None => ([], 0)
  | Some 0 =>
      match match_at r true prev s with
      | None => ([ [] ], 0)
      | Some n => ([ []; firstn n s ], n)
      end
  | Some n => ([ firstn n s ], n)
  end.

(** The scan, left to right.  [skip] characters of the last match are still
    to be passed over; with none left, the pattern is tried here. *)
Fixpoint scan (r : regex) (skip : nat) (prev : option ascii) (s : text)
  {struct s} : list piece :=
  match skip, s with
  | S k, [] => []
  | S k, c :: s' => scan r k (Some c) s'
  | O, [] => map Hit (fst (attempts r prev []))
  | O, c :: s' =>
      let (hits, n) := attempts r prev s in
      map Hit hits
      ++ match n with
         | O => Keep c :: scan r 0 (Some c) s'
         | S k => scan r k (Some c) s'
         end
  end.

Definition finditer (r : regex) (s : text) : list piece := scan r 0 None s.

(** The replacement pass: the callback [repl] is called on every match in
    order, with the state it closes over threaded through. *)
Fixpoint substitute (St : Type) (repl : text -> St -> text * St)
  (ps : list piece) (st : St) : text * St :=
  match ps with
  | [] => ([], st)
  | Keep c :: ps' =>
      let (out, st') := substitute repl ps' st in (c :: out, st')
  | Hit m :: ps' =>
      let (new, st1) := repl m st in
      let (out, st2) := substitute repl ps' st1 in
      (new ++ out, st2)
  end.

(** [pattern.sub(repl, text)] with a callable [repl]. *)
Definition re_sub (St : Type) (r : regex) (repl : text -> St -> text * St)
  (s : text) (st : St) : text * St :=
  substitute repl (finditer r s) st.

(** The text a list of pieces was cut from. *)
Fixpoint source (ps : list piece) : text :=
  match ps with
  | [] => []
  | Keep c :: ps' => c :: source ps'
  | Hit m :: ps' => m ++ source ps'
  end.

(** ** The script *)

Local Open Scope regex_scope.

(** [\b(\d{3})[- ]?(\d{2})[- ]?(\d{4})\b] *)
Definition SSN_RE : regex :=
  Boundary >> times 3 (Class is_digit) >> opt (Class is_sep)
  >> times 2 (Class is_digit) >> opt (Class is_sep)
  >> times 4 (Class is_digit) >> Boundary.

(** [\b(?:\d[ -]?){13,19}\b] *)
Definition PAN_CANDIDATE_RE : regex :=
  Boundary
  >> Repeat (Class is_digit >> opt (Class is_sep)) 13 (Some 19)
  >> Boundary.

(** [\D+] *)
Definition NON_DIGITS_RE : regex := plus (Class is_nondigit).

Local Close Scope regex_scope.

Definition REDACTED_SSN : text := lit "[REDACTED_SSN]".
Definition REDACTED_PAN : text := lit "[REDACTED_PAN]".

(** [re.sub(r"\D+", "", s)] *)
Definition normalize_digits (s : text) : text :=
  fst (re_sub NON_DIGITS_RE (fun _ (st : unit) => ([], st)) s tt).

Record RedactionStats : Type := {
  ssn_redactions : nat;
  pan_redactions : nat
}.

(** The closure [_sub] of [redact_ssns]; the state is [count]. *)
Definition ssn_sub (_ : text) (count : nat) : text * nat :=
  let count := count + 1 in
  (REDACTED_SSN, count).

Definition redact_ssns (s : text) : text * nat :=
  let count := 0 in
  re_sub SSN_RE ssn_sub s count.

(** The closure [_sub] of [redact_pans]; the state is [count]. *)
Definition pan_sub (candidate : text) (count : nat) : text * nat :=
  let digits := normalize_digits candidate in
  if negb ((13 <=? length digits) && (length digits <=? 19)) then
    (candidate, count)
  else if negb (luhn_is_valid digits) then
    (candidate, count)
  else
    let count := count + 1 in
    (REDACTED_PAN, count).

Definition redact_pans (s : text) : text * nat :=
  let count := 0 in
  re_sub PAN_CANDIDATE_RE pan_sub s count.

Definition redact_text (s : text) (do_ssn do_pan : bool)
  : text * RedactionStats :=
  let stats := {| ssn_redactions := 0; pan_redactions := 0 |} in
  let '(s, stats) :=
    if do_ssn then
      let (s', c) := redact_ssns s in
      (s', {| ssn_redactions := ssn_redactions stats + c;
              pan_redactions := pan_redactions stats |})
    else (s, stats) in
  let '(s, stats) :=
    if do_pan then
      let (s', c) := redact_pans s in
      (s', {| ssn_redactions := ssn_redactions stats;
              pan_redactions := pan_redactions stats + c |})
    else (s, stats) in
  (s, stats).

(** ** The file pipeline: the body of the loop of [main] *)

(** [redacted == text] *)
Fixpoint text_eqb (a b : text) : bool :=
  match a, b with
  | [], [] => true
  | x :: a', y :: b' => Ascii.eqb x y && text_eqb a' b'
  | _, _ => false
  end.

(** The extensions that are skipped. *)
Definition BINARY_SUFFIXES : list string :=
  [".docx"; ".pdf"; ".png"; ".jpg"; ".jpeg"; ".gif"; ".webp"]%string.

(** [b"\x00" in data] *)
Definition has_nul (data : list byte) : bool := existsb (Byte.eqb x00) data.

Section FilePipeline.

(** Paths, and what the loop is handed from outside the script: the codec
    ([data.decode] with [errors="strict"], which may fail, and with
    [errors="replace"]), and the output path worked out for an input path
    from the options. *)
Variable path : Type.
Variable decode_strict : list byte -> option text.
Variable decode_replace : list byte -> text.
Variable output_path : path -> path.
Variables do_ssn do_pan : bool.

(** What the loop observes of one path [p]: [p.is_file()],
    [p.suffix.lower()], and [p.read_bytes()], [None] when it raises
    [OSError]. *)
Record FileEntry : Type := {
  entry_path : path;
  is_file : bool;
  suffix_lower : string;
  read_bytes : option (list byte)
}.

(** The run-wide totals and the files written so far, each with the text
    passed to [write_text]. *)
Record RunState : Type := {
  total_ssn : nat;
  total_pan : nat;
  files_written : nat;
  outputs : list (path * text)
}.

Definition decode (data : list byte) : text :=
  match decode_strict data with
  | Some s => s
  | None => decode_replace data
  end.

(** One iteration; every [continue] hands the state back unchanged. *)
Definition process_file (e : FileEntry) (st : RunState) : RunState :=
  if negb (is_file e) then st
  else if existsb (String.eqb (suffix_lower e)) BINARY_SUFFIXES then st
  else
    match read_bytes e with
    | None => st
    | Some data =>
        if has_nul data then st
        else
          let s := decode data in
          let (redacted, stats) := redact_text s do_ssn do_pan in
          if text_eqb redacted s then st
          else
            {| total_ssn := total_ssn st + ssn_redactions stats;
               total_pan := total_pan st + pan_redactions stats;
               files_written := files_written st + 1;
               outputs :=
                 outputs st ++ [(output_path (entry_path e), redacted)] |}
    end.

Definition main_loop (files : list FileEntry) (st : RunState) : RunState :=
  fold_left (fun st e => process_file e st) files st.

(** The result of the call of [redact_text] for a file that reaches it,
    [None] for a file the loop leaves before. *)
Definition redaction_of (e : FileEntry) : option (text * RedactionStats) :=
  if negb (is_file e) then None
  else if existsb (String.eqb (suffix_lower e)) BINARY_SUFFIXES then None
  else
    match read_bytes e with
    | None => None
    | Some data =>
        if has_nul data then None
        else Some (redact_text (decode data) do_ssn do_pan)
    end.

End FilePipeline.

(** ** Vocabulary of the statements *)

(** A position in a text: the character before it and the text from it. *)
Definition cfg : Type := option ascii * text.

(** [n] consecutive steps of a relation between positions. *)
Fixpoint power (R : cfg -> cfg -> Prop) (n : nat) (a b : cfg) : Prop :=
  match n with
  | O => a = b
  | S n' => exists m, R a m /\ power R n' m b
  end.

(** What a pattern may match, without the order in which the matcher tries
    things: [den r a b] when [r] can take position [a] to position [b]. *)
Fixpoint den (r : regex) (a b : cfg) : Prop :=
  match r with
  | Class p => exists c, snd a = c :: snd b /\ p c = true /\ fst b = Some c
  | Boundary => a = b /\ at_boundary (fst a) (snd a) = true
  | Seq r1 r2 => exists m, den r1 a m /\ den r2 m b
  | Repeat r lo hi =>
      let budget := match hi with Some h => h | None => length (snd a) end in
      exists n, lo <= n <= budget /\ power (den r) n a b
  end.

(** A pattern that has no empty match. *)
Definition never_empty (r : regex) : Prop :=
  forall prev s, match_at r false prev s <> Some 0.

(** The character before the position reached after [m]. *)
Definition last_char (prev : option ascii) (m : text) : option ascii :=
  match rev m with
  | [] => prev
  | c :: _ => Some c
  end.

(** The digit characters of a text, in order. *)
Definition digits_of (s : text) : text := filter is_digit s.

(** Nothing but digits. *)
Definition all_digits (s : text) : Prop :=
  Forall (fun c => is_digit c = true) s.

(** A text with no digit in it. *)
Definition no_digit (s : text) : Prop :=
  Forall (fun c => is_digit c = false) s.

(** The output of a replacement pass that puts [f m] for a match [m]. *)
Fixpoint render (f : text -> text) (ps : list piece) : text :=
  match ps with
  | [] => []
  | Keep c :: ps' => c :: render f ps'
  | Hit m :: ps' => f m ++ render f ps'
  end.

(** The matches among the pieces. *)
Fixpoint hits (ps : list piece) : list text :=
  match ps with
  | [] => []
  | Keep _ :: ps' => hits ps'
  | Hit m :: ps' => m :: hits ps'
  end.

(** The test of [redact_pans] on a candidate. *)
Definition pan_accepts (candidate : text) : bool :=
  let digits := normalize_digits candidate in
  (13 <=? length digits) && (length digits <=? 19) && luhn_is_valid digits.

(** Zero or one separator. *)
Definition opt_sep (m : text) : Prop :=
  m = [] \/ exists c, m = [c] /\ is_sep c = true.

(** Three digits, an optional separator, two digits, an optional
    separator, four digits. *)
Definition ssn_shaped (m : text) : Prop :=
  exists g1 s1 g2 s2 g3,
    m = g1 ++ s1 ++ g2 ++ s2 ++ g3
    /\ all_digits g1 /\ length g1 = 3
    /\ opt_sep s1
    /\ all_digits g2 /\ length g2 = 2
    /\ opt_sep s2
    /\ all_digits g3 /\ length g3 = 4.

(** A digit with at most one separator behind it. *)
Definition pan_block (b : text) : Prop :=
  exists d g, b = d :: g /\ is_digit d = true /\ opt_sep g.

(** 13 to 19 digits, each with at most one separator behind it. *)
Definition pan_shaped (m : text) : Prop :=
  exists blocks,
    m = concat blocks /\ Forall pan_block blocks
    /\ 13 <= length blocks <= 19.

(** [m] stands in a text between [pre] and [post] with a word boundary on
    either side. *)
Definition word_bounded (pre m post : text) : Prop :=
  at_boundary (last_char None pre) (m ++ post) = true
  /\ at_boundary (last_char None (pre ++ m)) post = true.

(** [m] is a span of the text [s] of the given shape, with a word boundary
    on either side. *)
Definition candidate_in (shaped : text -> Prop) (s m : text) : Prop :=
  exists pre post,
    s = pre ++ m ++ post /\ shaped m /\ word_bounded pre m post.

(** The length of the run of digits a text starts with. *)
Fixpoint digit_run (s : text) : nat :=
  match s with
  | c :: s' => if is_digit c then S (digit_run s') else 0
  | [] => 0
  end.

(** ** Vocabulary of the further properties *)

(** The two counts [redact_text] returns for a file, [(0, 0)] for a file
    the loop leaves before the call. *)
Definition file_counts (path : Type)
  (decode_strict : list byte -> option text)
  (decode_replace : list byte -> text) (do_ssn do_pan : bool)
  (e : FileEntry path) : nat * nat :=
  match redaction_of decode_strict decode_replace do_ssn do_pan e with
  | Some (_, stats) => (ssn_redactions stats, pan_redactions stats)
  | None => (0, 0)
  end.

(** A file with at least one redaction. *)
Definition has_redaction (counts : nat * nat) : bool :=
  0 <? fst counts + snd counts.

(** The text before a span does not lead into it: it is empty, or ends
    with a non-word character that, if it is a separator, stands behind
    something other than a digit. *)
Definition clear_before (pre : text) : bool :=
  match rev pre with
  | [] => true
  | c :: before =>
      negb (is_word c)
      && (negb (is_sep c)
          || match before with
             | [] => true
             | c' :: _ => negb (is_digit c')
             end)
  end.

(** The text behind a span does not continue it: it is empty, or starts
    with a non-word character that, if it is a separator, stands before
    something other than a word character. *)
Definition clear_after (post : text) : bool :=
  match post with
  | [] => true
  | c :: rest =>
      negb (is_word c)
      && (negb (is_sep c)
          || match rest with
             | [] => true
             | x :: _ => negb (is_word x)
             end)
  end.

(** The last character is a digit. *)
Definition ends_with_digit (m : text) : bool :=
  match rev m with
  | [] => false
  | d :: _ => is_digit d
  end.

(** No attempt of the pattern succeeds anywhere in the text [t] that
    follows [prev]. *)
Definition no_match (r : regex) (prev : option ascii) (t : text) : Prop :=
  forall a b, t = a ++ b -> match_at r false (last_char prev a) b = None.

(** Whether a word character stands before a position. *)
Definition word_before (prev : option ascii) : bool :=
  match prev with
  | Some c => is_word c
  | None => false
  end.

(** A text that does not start with a digit. *)
Definition no_digit_ahead (s : text) : Prop :=
  match s with
  | c :: _ => is_digit c = false
  | [] => True
  end.

(** A character of a candidate: a digit or a separator. *)
Definition digit_or_sep (c : ascii) : Prop :=
  is_digit c = true \/ is_sep c = true.


(** What the callback of [redact_pans] puts for a candidate: the token
    when the candidate is accepted, the candidate itself when it is not. *)
Definition pan_put (m : text) : text :=
  if pan_accepts m then REDACTED_PAN else m.
(* ================================================================= *)
(** * Part II: properties *)
(* ================================================================= *)

Unset Implicit Arguments.

(** ** Character classes *)

Lemma digit_is_word (c : ascii) : is_digit c = true -> is_word c = true.
Proof.
  unfold is_digit, is_word. intros ->. reflexivity.
Qed.

Lemma sep_not_digit (c : ascii) : is_sep c = true -> is_digit c = false.
Proof.
  destruct c as [[] [] [] [] [] [] [] []]; vm_compute; congruence.
Qed.

Lemma sep_not_word (c : ascii) : is_sep c = true -> is_word c = false.
Proof.
  destruct c as [[] [] [] [] [] [] [] []]; vm_compute; congruence.
Qed.

Lemma digit_not_sep (c : ascii) : is_digit c = true -> is_sep c = false.
Proof.
  intros H. destruct (is_sep c) eqn:E; [|reflexivity].
  apply sep_not_digit in E. congruence.
Qed.

(** ** The Luhn validator *)

Lemma luhn_step_double (parity total i : Z) (ch : ascii) :
  luhn_step parity total i ch
  = (total
     + (if i mod 2 =? parity then luhn_double (ord ch - 48)
        else ord ch - 48))%Z.
Proof.
  unfold luhn_step, luhn_double.
  replace ((ord ch - 48) * 2)%Z with (2 * (ord ch - 48))%Z by lia.
  reflexivity.
Qed.

(** The loop adds the index-rule sum to its running total. *)
Lemma luhn_loop_index_sum (parity : Z) (digits : text) :
  forall i total,
    luhn_loop parity i total digits
    = (total + luhn_index_sum parity i digits)%Z.
Proof.
  induction digits as [|ch rest IH]; intros i total; simpl.
  - lia.
  - rewrite IH, luhn_step_double. lia.
Qed.

Lemma luhn_index_sum_app (parity : Z) (ds1 ds2 : text) :
  forall i,
    luhn_index_sum parity i (ds1 ++ ds2)
    = (luhn_index_sum parity i ds1
       + luhn_index_sum parity (i + Z.of_nat (length ds1)) ds2)%Z.
Proof.
  induction ds1 as [|ch rest IH]; intros i; simpl.
  - now rewrite Z.add_0_r.
  - rewrite IH. replace (i + 1 + Z.of_nat (length rest))%Z
      with (i + Z.pos (Pos.of_succ_nat (length rest)))%Z by lia.
    lia.
Qed.

(** The parity that makes the rightmost digit doubled ([doubled = true])
    or not. *)
Lemma luhn_index_sum_from_right (digits : text) :
  forall doubled : bool,
    luhn_index_sum
      ((Z.of_nat (length digits) + (if doubled then 1 else 0)) mod 2)%Z
      0 digits
    = luhn_sum_from_right doubled (rev digits).
Proof.
  induction digits as [|ch ds IH] using rev_ind; intros doubled.
  - reflexivity.
  - rewrite rev_app_distr, luhn_index_sum_app, length_app. simpl.
    rewrite <- (IH (negb doubled)).
    replace ((Z.of_nat (length ds + 1) + (if doubled then 1 else 0)) mod 2)%Z
      with ((Z.of_nat (length ds) + (if negb doubled then 1 else 0)) mod 2)%Z.
    2:{ destruct doubled; simpl.
        - replace (Z.of_nat (length ds + 1) + 1)%Z
            with (Z.of_nat (length ds) + 0 + 1 * 2)%Z by lia.
          now rewrite Z.mod_add by lia.
        - f_equal. lia. }
    set (p := ((Z.of_nat (length ds) + (if negb doubled then 1 else 0)) mod 2)%Z).
    assert (Hd : (Z.of_nat (length ds) mod 2 =? p)%Z = doubled).
    { subst p. destruct doubled; simpl.
      - rewrite Z.add_0_r. apply Z.eqb_refl.
      - apply Z.eqb_neq.
        pose proof (Z.mod_pos_bound (Z.of_nat (length ds)) 2 ltac:(lia)).
        pose proof (Z.mod_pos_bound (Z.of_nat (length ds) + 1) 2 ltac:(lia)).
        pose proof (Z.div_mod (Z.of_nat (length ds)) 2 ltac:(lia)).
        pose proof (Z.div_mod (Z.of_nat (length ds) + 1) 2 ltac:(lia)).
        lia. }
    rewrite Hd. lia.
Qed.

(** C2: [luhn_is_valid] is the reference Luhn test: the sum it forms is the
    index-rule sum of the specification (a digit is doubled when its index
    from the left has the parity of the length), that sum is the one got by
    doubling every second digit from the second-rightmost, and the verdict
    is divisibility of the sum by 10.  This holds for every text, so for
    every string of decimal digits; the verdict is a function of the
    string alone. *)
Theorem luhn_is_valid_reference (d : text) :
  luhn_is_valid d = luhn_reference d
  /\ luhn_loop (Z.of_nat (length d) mod 2) 0 0 d
     = luhn_index_sum (Z.of_nat (length d) mod 2) 0 d
  /\ luhn_index_sum (Z.of_nat (length d) mod 2) 0 d
     = luhn_sum_from_right false (rev d)
  /\ (luhn_is_valid d = true
      <-> (luhn_sum_from_right false (rev d) mod 10 = 0)%Z).
Proof.
  assert (H1 : luhn_loop (Z.of_nat (length d) mod 2) 0 0 d
               = luhn_index_sum (Z.of_nat (length d) mod 2) 0 d).
  { now rewrite luhn_loop_index_sum. }
  assert (H2 : luhn_index_sum (Z.of_nat (length d) mod 2) 0 d
               = luhn_sum_from_right false (rev d)).
  { rewrite <- (luhn_index_sum_from_right d false). now rewrite Z.add_0_r. }
  assert (H3 : luhn_is_valid d = luhn_reference d).
  { unfold luhn_is_valid, luhn_reference. cbv zeta. now rewrite H1, H2. }
  repeat split; auto.
  - rewrite H3. unfold luhn_reference. apply Z.eqb_eq.
  - rewrite H3. unfold luhn_reference. apply Z.eqb_eq.
Qed.

(** ** The matcher against the denotation of a pattern *)

Lemma last_char_nil (prev : option ascii) : last_char prev [] = prev.
Proof. reflexivity. Qed.

Lemma last_char_snoc (prev : option ascii) (m : text) (c : ascii) :
  last_char prev (m ++ [c]) = Some c.
Proof. unfold last_char. now rewrite rev_app_distr. Qed.

Lemma last_char_app (prev : option ascii) (m1 m2 : text) :
  last_char prev (m1 ++ m2) = last_char (last_char prev m1) m2.
Proof.
  destruct m2 as [|c m2] using rev_ind.
  - now rewrite app_nil_r.
  - now rewrite app_assoc, !last_char_snoc.
Qed.

Lemma last_char_cons (prev : option ascii) (c : ascii) (m : text) :
  last_char prev (c :: m) = last_char (Some c) m.
Proof. exact (last_char_app prev [c] m). Qed.

Lemma power_consumes (R : cfg -> cfg -> Prop) :
  (forall a b, R a b ->
     exists m, snd a = m ++ snd b /\ fst b = last_char (fst a) m) ->
  forall n a b, power R n a b ->
    exists m, snd a = m ++ snd b /\ fst b = last_char (fst a) m.
Proof.
  intros HR n. induction n as [|n IH]; simpl; intros a b H.
  - subst b. now exists [].
  - destruct H as (mid & H1 & H2).
    apply HR in H1. destruct H1 as (m1 & E1 & L1).
    apply IH in H2. destruct H2 as (m2 & E2 & L2).
    exists (m1 ++ m2). rewrite <- app_assoc, <- E2, last_char_app, <- L1.
    auto.
Qed.

(** A pattern consumes a prefix of the text, and leaves its last character
    before the position reached. *)
Lemma den_consumes (r : regex) :
  forall a b, den r a b ->
    exists m, snd a = m ++ snd b /\ fst b = last_char (fst a) m.
Proof.
  induction r as [p| |r1 IH1 r2 IH2|r IH lo hi]; simpl; intros a b H.
  - destruct H as (c & E & _ & L). exists [c]. auto.
  - destruct H as [<- _]. now exists [].
  - destruct H as (mid & H1 & H2).
    apply IH1 in H1. destruct H1 as (m1 & E1 & L1).
    apply IH2 in H2. destruct H2 as (m2 & E2 & L2).
    exists (m1 ++ m2). rewrite <- app_assoc, <- E2, last_char_app, <- L1.
    auto.
  - destruct H as (n & _ & H). now apply power_consumes with (2 := H).
Qed.

Lemma rep_loop_sound
  (body : option ascii -> text -> cont -> option nat)
  (R : cfg -> cfg -> Prop) (k : cont) :
  (forall prev s k' res, body prev s k' = Some res ->
     exists prev' s', R (prev, s) (prev', s') /\ k' prev' s' = Some res) ->
  forall budget need prev s res,
    rep_loop body k budget need prev s = Some res ->
    exists n prev' s',
      need <= n <= budget
      /\ power R n (prev, s) (prev', s')
      /\ k prev' s' = Some res.
Proof.
  intros Hbody budget.
  induction budget as [|budget IH]; simpl; intros need prev s res H.
  - destruct (Nat.eqb_spec need 0) as [->|]; [|discriminate].
    exists 0, prev, s. simpl. auto.
  - destruct (body prev s (rep_loop body k budget (pred need))) as [n1|] eqn:E.
    + injection H as ->.
      apply Hbody in E. destruct E as (prev1 & s1 & HR & E).
      apply IH in E. destruct E as (n & prev' & s' & Hn & Hp & Hk).
      exists (S n), prev', s'. split; [lia|]. split; [|exact Hk].
      simpl. now exists (prev1, s1).
    + destruct (Nat.eqb_spec need 0) as [->|]; [|discriminate].
      exists 0, prev, s. simpl. repeat split; auto; lia.
Qed.

(** Soundness: a successful run of the matcher went through a position the
    pattern can reach, and returned what the continuation answered
    there. *)
Lemma bt_sound (r : regex) :
  forall prev s k res,
    bt r prev s k = Some res ->
    exists prev' s', den r (prev, s) (prev', s') /\ k prev' s' = Some res.
Proof.
  induction r as [p| |r1 IH1 r2 IH2|r IH lo hi]; simpl; intros prev s k res H.
  - destruct s as [|c s']; [discriminate|].
    destruct (p c) eqn:Hp; [|discriminate].
    exists (Some c), s'. split; [|exact H]. exists c. auto.
  - destruct (at_boundary prev s) eqn:Hb; [|discriminate].
    exists prev, s. auto.
  - apply IH1 in H. destruct H as (prev1 & s1 & H1 & H).
    apply IH2 in H. destruct H as (prev2 & s2 & H2 & H).
    exists prev2, s2. split; [|exact H]. now exists (prev1, s1).
  - apply rep_loop_sound with (R := den r) in H; [|exact IH].
    destruct H as (n & prev' & s' & Hn & Hp & Hk).
    exists prev', s'. split; [|exact Hk]. now exists n.
Qed.

Lemma rep_loop_complete
  (body : option ascii -> text -> cont -> option nat)
  (R : cfg -> cfg -> Prop) (k : cont) :
  (forall prev s prev' s' k',
     R (prev, s) (prev', s') -> k' prev' s' <> None ->
     body prev s k' <> None) ->
  forall budget n need prev s prev' s',
    need <= n <= budget ->
    power R n (prev, s) (prev', s') ->
    k prev' s' <> None ->
    rep_loop body k budget need prev s <> None.
Proof.
  intros Hbody budget.
  induction budget as [|budget IH]; simpl;
    intros n need prev s prev' s' Hn Hp Hk.
  - assert (n = 0) by lia. subst n. simpl in Hp. injection Hp as -> ->.
    replace (need =? 0) with true by (symmetry; apply Nat.eqb_eq; lia).
    exact Hk.
  - destruct n as [|n]; simpl in Hp.
    + injection Hp as -> ->.
      destruct (body prev' s' (rep_loop body k budget (pred need)));
        [discriminate|].
      replace (need =? 0) with true by (symmetry; apply Nat.eqb_eq; lia).
      exact Hk.
    + destruct Hp as ([prev1 s1] & H1 & Hp).
      assert (Hrec : rep_loop body k budget (pred need) prev1 s1 <> None).
      { apply IH with (n := n) (prev' := prev') (s' := s'); auto. lia. }
      pose proof (Hbody _ _ _ _ _ H1 Hrec) as Hb.
      destruct (body prev s (rep_loop body k budget (pred need)));
        [discriminate|contradiction].
Qed.

(** Completeness: the matcher succeeds whenever the pattern can reach a
    position where the continuation succeeds. *)
Lemma bt_complete (r : regex) :
  forall prev s prev' s' k,
    den r (prev, s) (prev', s') -> k prev' s' <> None ->
    bt r prev s k <> None.
Proof.
  induction r as [p| |r1 IH1 r2 IH2|r IH lo hi]; simpl;
    intros prev s prev' s' k H Hk.
  - destruct H as (c & E & Hp & L). simpl in E, L. subst s prev'.
    now rewrite Hp.
  - destruct H as [E Hb]. injection E as <- <-. simpl in Hb.
    now rewrite Hb.
  - destruct H as ([prev1 s1] & H1 & H2).
    apply IH1 with (1 := H1). now apply IH2 with (1 := H2).
  - destruct H as (n & Hn & Hp).
    now apply rep_loop_complete with (R := den r) (n := n) (prev' := prev') (s' := s').
Qed.

(** What a successful match attempt tells: the text starts with a match
    [m] of the returned length, and the pattern takes the position before
    [m] to the position after it. *)
Lemma match_at_sound (r : regex) (ma : bool) (prev : option ascii)
  (s : text) (n : nat) :
  match_at r ma prev s = Some n ->
  exists m s',
    s = m ++ s' /\ length m = n /\ firstn n s = m /\ skipn n s = s'
    /\ den r (prev, s) (last_char prev m, s')
    /\ (ma = true -> n <> 0).
Proof.
  unfold match_at. intros H.
  apply bt_sound in H. destruct H as (prev' & s' & Hd & Hk).
  destruct (den_consumes _ _ _ Hd) as (m & E & L). simpl in E, L.
  unfold accept in Hk. subst s prev'.
  rewrite length_app in Hk.
  replace (length m + length s' - length s') with (length m) in Hk by lia.
  exists m, s'.
  destruct (ma && (length m =? 0)) eqn:Ema; [discriminate|].
  injection Hk as <-.
  repeat split; auto.
  - rewrite firstn_app, Nat.sub_diag, firstn_all. simpl.
    now rewrite app_nil_r.
  - rewrite skipn_app, Nat.sub_diag, skipn_all. reflexivity.
  - intros ->. simpl in Ema. now apply Nat.eqb_neq.
Qed.

Lemma match_at_length (r : regex) (ma : bool) (prev : option ascii)
  (s : text) (n : nat) :
  match_at r ma prev s = Some n -> n <= length s.
Proof.
  intros H. apply match_at_sound in H.
  destruct H as (m & s' & -> & <- & _). rewrite length_app. lia.
Qed.

(** ** The scan *)

Lemma attempts_miss (r : regex) (prev : option ascii) (s : text) :
  match_at r false prev s = None -> attempts r prev s = ([], 0).
Proof. unfold attempts. now intros ->. Qed.

Lemma attempts_hit (r : regex) (prev : option ascii) (s : text) (n : nat) :
  match_at r false prev s = Some (S n) ->
  attempts r prev s = ([firstn (S n) s], S n).
Proof. unfold attempts. now intros ->. Qed.

(** The matches at one position are prefixes of the text there, and the
    length handed on is within the text. *)
Lemma attempts_spec (r : regex) (prev : option ascii) (s : text) :
  forall ms n, attempts r prev s = (ms, n) ->
    n <= length s
    /\ (forall m, In m ms ->
          exists ma, match_at r ma prev s = Some (length m)
                     /\ firstn (length m) s = m)
    /\ concat ms = firstn n s.
Proof.
  unfold attempts. intros ms n H.
  destruct (match_at r false prev s) as [[|n1]|] eqn:E1.
  - destruct (match_at r true prev s) as [n2|] eqn:E2;
      injection H as <- <-.
    + split; [now apply match_at_length with (1 := E2)|].
      pose proof (match_at_sound _ _ _ _ _ E2) as (m2 & s2 & _ & L2 & F2 & _).
      split; [|simpl; now rewrite app_nil_r].
      rewrite F2. intros m [<-|[<-|[]]].
      * exists false. simpl. auto.
      * exists true. rewrite L2. auto.
    + split; [lia|]. split; [|reflexivity].
      intros m [<-|[]]. exists false. simpl. auto.
  - injection H as <- <-.
    split; [now apply match_at_length with (1 := E1)|].
    pose proof (match_at_sound _ _ _ _ _ E1) as (m1 & s1 & _ & L1 & F1 & _).
    split; [|simpl; now rewrite app_nil_r].
    change (match s with [] => [] | a :: l => a :: firstn n1 l end)
      with (firstn (S n1) s).
    rewrite F1. intros m [<-|[]]. exists false. rewrite L1. auto.
  - injection H as <- <-. split; [lia|]. split; [|reflexivity].
    intros m [].
Qed.

Lemma source_hits (ms : list text) (ps : list piece) :
  source (map Hit ms ++ ps) = concat ms ++ source ps.
Proof.
  induction ms as [|m ms IH]; simpl; [reflexivity|].
  now rewrite IH, app_assoc.
Qed.

(** The pieces tile the text: nothing is lost or repeated by the scan. *)
Lemma source_scan (r : regex) (s : text) :
  forall skip prev, skip <= length s ->
    source (scan r skip prev s) = skipn skip s.
Proof.
  induction s as [|c s IH]; intros skip prev Hk.
  - simpl in Hk. assert (skip = 0) by lia. subst skip. simpl.
    destruct (attempts r prev []) as [ms n] eqn:E.
    destruct (attempts_spec _ _ _ _ _ E) as (_ & _ & Hc).
    rewrite <- (app_nil_r (map Hit _)), source_hits. simpl.
    rewrite Hc, app_nil_r. now rewrite firstn_nil.
  - destruct skip as [|k]; simpl.
    + destruct (attempts r prev (c :: s)) as [ms n] eqn:E.
      destruct (attempts_spec _ _ _ _ _ E) as (Hn & _ & Hc).
      rewrite source_hits, Hc.
      destruct n as [|n]; simpl.
      * now rewrite IH by lia.
      * simpl in Hn. rewrite IH by lia. now rewrite firstn_skipn.
    + simpl in Hk. apply IH. lia.
Qed.

Lemma source_finditer (r : regex) (s : text) : source (finditer r s) = s.
Proof. unfold finditer. now rewrite source_scan by lia. Qed.

(** Passing over [skip] characters is scanning from where they end. *)
Lemma scan_skip (r : regex) (s : text) :
  forall skip prev, skip <= length s ->
    scan r skip prev s
    = scan r 0 (last_char prev (firstn skip s)) (skipn skip s).
Proof.
  induction s as [|c s IH]; intros skip prev Hk.
  - simpl in Hk. assert (skip = 0) by lia. now subst skip.
  - destruct skip as [|k]; [reflexivity|].
    simpl in Hk. cbn [scan firstn skipn].
    rewrite IH by lia. now rewrite last_char_cons.
Qed.

Lemma hits_app (ps1 ps2 : list piece) :
  hits (ps1 ++ ps2) = hits ps1 ++ hits ps2.
Proof.
  induction ps1 as [|[c|m] ps1 IH]; simpl; congruence.
Qed.

Lemma hits_map_Hit (ms : list text) : hits (map Hit ms) = ms.
Proof. induction ms; simpl; congruence. Qed.

Lemma hits_map_Keep (s : text) : hits (map Keep s) = [].
Proof. induction s; simpl; congruence. Qed.

(** Every match of the scan is a successful attempt of the matcher at the
    place of the match. *)
Lemma hits_scan (r : regex) (s : text) :
  forall skip prev m,
    In m (hits (scan r skip prev s)) ->
    exists pre post ma,
      s = pre ++ m ++ post
      /\ match_at r ma (last_char prev pre) (m ++ post) = Some (length m).
Proof.
  induction s as [|c s IH]; intros skip prev m Hin.
  - destruct skip as [|k]; simpl in Hin; [|contradiction].
    rewrite hits_map_Hit in Hin.
    destruct (attempts r prev []) as [ms n] eqn:E. simpl in Hin.
    destruct (attempts_spec _ _ _ _ _ E) as (_ & Hm & _).
    destruct (Hm _ Hin) as (ma & Hma & Hf).
    rewrite firstn_nil in Hf. subst m.
    exists [], [], ma. auto.
  - assert (Hrec : forall k, In m (hits (scan r k (Some c) s)) ->
              exists pre post ma,
                c :: s = pre ++ m ++ post
                /\ match_at r ma (last_char prev pre) (m ++ post)
                   = Some (length m)).
    { intros k Hk. destruct (IH _ _ _ Hk) as (pre & post & ma & E & Hm).
      exists (c :: pre), post, ma. rewrite last_char_cons.
      split; [simpl; congruence|exact Hm]. }
    destruct skip as [|k]; simpl in Hin; [|now apply Hrec with (k := k)].
    destruct (attempts r prev (c :: s)) as [ms n] eqn:E.
    rewrite hits_app, hits_map_Hit in Hin.
    apply in_app_or in Hin. destruct Hin as [Hin|Hin].
    + destruct (attempts_spec _ _ _ _ _ E) as (_ & Hm & _).
      destruct (Hm _ Hin) as (ma & Hma & Hf).
      exists [], (skipn (length m) (c :: s)), ma.
      assert (E' : m ++ skipn (length m) (c :: s) = c :: s).
      { rewrite <- Hf at 1. apply firstn_skipn. }
      rewrite E'. simpl. auto.
    + destruct n as [|n]; [|now apply Hrec with (k := n)].
      simpl in Hin. now apply Hrec with (k := 0).
Qed.

(** Scanning across a cut that no match straddles: the pieces before the
    cut tile the text before it, and the scan starts afresh at the cut. *)
Lemma scan_cut (r : regex) (rest : text) :
  never_empty r ->
  forall pre skip prev,
    skip <= length pre ->
    (forall p1 p2 n, pre = p1 ++ p2 -> p2 <> [] ->
       match_at r false (last_char prev p1) (p2 ++ rest) = Some n ->
       n <= length p2) ->
    exists ps,
      scan r skip prev (pre ++ rest)
      = ps ++ scan r 0 (last_char prev pre) rest
      /\ source ps = skipn skip pre.
Proof.
  intros Hne pre.
  induction pre as [|c pre IH]; intros skip prev Hk Hcross.
  - simpl in Hk. assert (skip = 0) by lia. subst skip.
    exists []. auto.
  - assert (Hcross' : forall p1 p2 n, pre = p1 ++ p2 -> p2 <> [] ->
              match_at r false (last_char (Some c) p1) (p2 ++ rest) = Some n ->
              n <= length p2).
    { intros p1 p2 n E Hp2. rewrite <- (last_char_cons prev).
      apply Hcross; [simpl; congruence|exact Hp2]. }
    destruct skip as [|k].
    + cbn [app scan].
      destruct (match_at r false prev (c :: pre ++ rest)) as [[|n]|] eqn:E.
      * exfalso. exact (Hne _ _ E).
      * pose proof (Hcross [] (c :: pre) (S n) eq_refl
                      ltac:(discriminate) E) as Hn.
        simpl in Hn.
        rewrite (attempts_hit _ _ _ _ E).
        destruct (IH n (Some c) ltac:(lia) Hcross') as (ps & Eps & Hs).
        exists (Hit (firstn (S n) (c :: pre ++ rest)) :: ps).
        rewrite last_char_cons. split.
        -- simpl. now rewrite Eps.
        -- change (c :: pre ++ rest) with ((c :: pre) ++ rest).
           rewrite firstn_app.
           replace (S n - length (c :: pre)) with 0 by (simpl; lia).
           simpl. rewrite app_nil_r, Hs. now rewrite firstn_skipn.
      * rewrite (attempts_miss _ _ _ E).
        destruct (IH 0 (Some c) ltac:(lia) Hcross') as (ps & Eps & Hs).
        exists (Keep c :: ps). rewrite last_char_cons. split.
        -- simpl. now rewrite Eps.
        -- simpl. now rewrite Hs.
    + simpl in Hk. cbn [app scan skipn].
      destruct (IH k (Some c) ltac:(lia) Hcross') as (ps & Eps & Hs).
      exists ps. now rewrite last_char_cons.
Qed.

(** Scanning a stretch where no attempt succeeds keeps every character. *)
Lemma scan_keep (r : regex) (rest : text) :
  forall mid prev,
    (forall p1 p2, mid = p1 ++ p2 -> p2 <> [] ->
       match_at r false (last_char prev p1) (p2 ++ rest) = None) ->
    scan r 0 prev (mid ++ rest)
    = map Keep mid ++ scan r 0 (last_char prev mid) rest.
Proof.
  intros mid.
  induction mid as [|c mid IH]; intros prev Hnone; [reflexivity|].
  cbn [app scan].
  rewrite (attempts_miss r prev (c :: mid ++ rest)).
  2:{ apply (Hnone [] (c :: mid)); [reflexivity|discriminate]. }
  simpl. rewrite IH, last_char_cons; [reflexivity|].
  intros p1 p2 E Hp2. rewrite <- (last_char_cons prev).
  apply Hnone; [simpl; congruence|exact Hp2].
Qed.

(** A match at the head of the text becomes one piece, and the scan goes
    on behind it. *)
Lemma scan_hit (r : regex) (prev : option ascii) (m post : text) :
  m <> [] ->
  match_at r false prev (m ++ post) = Some (length m) ->
  scan r 0 prev (m ++ post) = Hit m :: scan r 0 (last_char prev m) post.
Proof.
  intros Hm E. destruct m as [|c m]; [contradiction|].
  cbn [app] in E. cbn [app scan]. simpl length in E.
  rewrite (attempts_hit _ _ _ _ E).
  cbn [map app]. f_equal.
  - cbn [firstn]. do 2 f_equal.
    rewrite firstn_app, Nat.sub_diag, firstn_all. simpl.
    apply app_nil_r.
  - rewrite scan_skip by (rewrite length_app; lia).
    rewrite firstn_app, Nat.sub_diag, firstn_all, skipn_app, Nat.sub_diag.
    rewrite skipn_all. simpl. rewrite app_nil_r. now rewrite last_char_cons.
Qed.

(** ** The replacement pass *)

Lemma substitute_app (St : Type) (repl : text -> St -> text * St)
  (ps1 ps2 : list piece) (st : St) :
  substitute repl (ps1 ++ ps2) st
  = (let (out1, st1) := substitute repl ps1 st in
     let (out2, st2) := substitute repl ps2 st1 in
     (out1 ++ out2, st2)).
Proof.
  revert st. induction ps1 as [|[c|m] ps1 IH]; intros st; simpl.
  - now destruct (substitute repl ps2 st).
  - rewrite IH. destruct (substitute repl ps1 st) as [o1 s1].
    now destruct (substitute repl ps2 s1).
  - destruct (repl m st) as [new s0]. rewrite IH.
    destruct (substitute repl ps1 s0) as [o1 s1].
    destruct (substitute repl ps2 s1) as [o2 s2].
    now rewrite app_assoc.
Qed.

Lemma render_app (f : text -> text) (ps1 ps2 : list piece) :
  render f (ps1 ++ ps2) = render f ps1 ++ render f ps2.
Proof.
  induction ps1 as [|[c|m] ps1 IH]; simpl; [reflexivity|congruence|].
  now rewrite IH, app_assoc.
Qed.

Lemma render_map_Keep (f : text -> text) (s : text) :
  render f (map Keep s) = s.
Proof. induction s; simpl; congruence. Qed.

Lemma render_no_hits (f : text -> text) (ps : list piece) :
  hits ps = [] -> render f ps = source ps.
Proof.
  induction ps as [|[c|m] ps IH]; simpl; intros H;
    [reflexivity|now rewrite IH|discriminate].
Qed.

(** The pass of [redact_ssns]: every match becomes the token, and each
    adds one to the count. *)
Lemma substitute_ssn_sub (ps : list piece) :
  forall count,
    substitute ssn_sub ps count
    = (render (fun _ => REDACTED_SSN) ps, count + length (hits ps)).
Proof.
  induction ps as [|[c|m] ps IH]; intros count; simpl.
  - now rewrite Nat.add_0_r.
  - now rewrite IH.
  - rewrite IH. f_equal. lia.
Qed.

Lemma pan_sub_accepts (candidate : text) (count : nat) :
  pan_sub candidate count
  = if pan_accepts candidate then (REDACTED_PAN, count + 1)
    else (candidate, count).
Proof.
  unfold pan_sub, pan_accepts. cbv zeta.
  destruct ((13 <=? length (normalize_digits candidate))
            && (length (normalize_digits candidate) <=? 19)); simpl;
    [|reflexivity].
  now destruct (luhn_is_valid (normalize_digits candidate)).
Qed.

(** The pass of [redact_pans]: an accepted candidate becomes the token and
    adds one to the count, a rejected one is put back as it was. *)
Lemma substitute_pan_sub (ps : list piece) :
  forall count,
    substitute pan_sub ps count
    = (render (fun m => if pan_accepts m then REDACTED_PAN else m) ps,
       count + length (filter pan_accepts (hits ps))).
Proof.
  induction ps as [|[c|m] ps IH]; intros count; simpl.
  - now rewrite Nat.add_0_r.
  - now rewrite IH.
  - rewrite pan_sub_accepts.
    destruct (pan_accepts m); rewrite IH; simpl; f_equal; lia.
Qed.

(** ** What the patterns match *)

Lemma power_class (p : ascii -> bool) (n : nat) :
  forall a b, power (den (Class p)) n a b ->
    exists g, snd a = g ++ snd b /\ length g = n
              /\ Forall (fun c => p c = true) g
              /\ fst b = last_char (fst a) g.
Proof.
  induction n as [|n IH]; simpl; intros a b H.
  - subst b. exists []. auto.
  - destruct H as (mid & (c & E & Hp & L) & H).
    apply IH in H. destruct H as (g & Eg & Lg & Fg & Lb).
    exists (c :: g). rewrite E, Eg, Lb, L, last_char_cons. simpl.
    auto.
Qed.

Lemma den_times_class (p : ascii -> bool) (n : nat) (a b : cfg) :
  den (times n (Class p)) a b ->
  exists g, snd a = g ++ snd b /\ length g = n
            /\ Forall (fun c => p c = true) g
            /\ fst b = last_char (fst a) g.
Proof.
  intros (n' & Hn & H). assert (n' = n) by lia. subst n'.
  now apply power_class.
Qed.

Lemma den_opt_sep (a b : cfg) :
  den (opt (Class is_sep)) a b ->
  exists g, snd a = g ++ snd b /\ opt_sep g /\ fst b = last_char (fst a) g.
Proof.
  intros (n & Hn & H).
  apply power_class in H. destruct H as (g & E & L & F & Lb).
  exists g. repeat split; auto.
  destruct g as [|c [|c' g]]; simpl in L; try lia.
  - now left.
  - right. exists c. inversion F. auto.
Qed.

Lemma digits_of_app (s1 s2 : text) :
  digits_of (s1 ++ s2) = digits_of s1 ++ digits_of s2.
Proof. apply filter_app. Qed.

Lemma digits_of_all_digits (g : text) : all_digits g -> digits_of g = g.
Proof.
  induction 1 as [|c g Hc _ IH]; simpl; [reflexivity|].
  now rewrite Hc, IH.
Qed.

Lemma digits_of_opt_sep (g : text) : opt_sep g -> digits_of g = [].
Proof.
  intros [->|(c & -> & Hc)]; simpl; [reflexivity|].
  now rewrite (sep_not_digit _ Hc).
Qed.

Lemma length_digits_of_le (s : text) : length (digits_of s) <= length s.
Proof. apply filter_length_le. Qed.

(** The SSN pattern, read off its denotation. *)
Lemma den_SSN_RE (prev prev' : option ascii) (s s' : text) :
  den SSN_RE (prev, s) (prev', s') ->
  exists m,
    s = m ++ s' /\ prev' = last_char prev m /\ ssn_shaped m
    /\ at_boundary prev s = true
    /\ at_boundary (last_char prev m) s' = true.
Proof.
  unfold SSN_RE.
  intros (a0 & [<- Hb0] & a1 & H1 & a2 & H2 & a3 & H3 & a4 & H4 & a5 & H5
          & [E6 Hb6]).
  subst a5. simpl in Hb0, Hb6.
  apply den_times_class in H1. destruct H1 as (g1 & E1 & L1 & F1 & P1).
  apply den_opt_sep in H2. destruct H2 as (s1 & E2 & O2 & P2).
  apply den_times_class in H3. destruct H3 as (g2 & E3 & L3 & F3 & P3).
  apply den_opt_sep in H4. destruct H4 as (s2 & E4 & O4 & P4).
  apply den_times_class in H5. destruct H5 as (g3 & E5 & L5 & F5 & P5).
  simpl in *.
  exists (g1 ++ s1 ++ g2 ++ s2 ++ g3).
  assert (Es : s = (g1 ++ s1 ++ g2 ++ s2 ++ g3) ++ s').
  { rewrite E1, E2, E3, E4, E5. now rewrite <- !app_assoc. }
  assert (Ep : prev' = last_char prev (g1 ++ s1 ++ g2 ++ s2 ++ g3)).
  { rewrite !last_char_app. congruence. }
  repeat split; auto.
  - exists g1, s1, g2, s2, g3. repeat split; auto.
  - now rewrite <- Ep.
Qed.

Lemma ssn_shaped_digits (m : text) :
  ssn_shaped m -> length (digits_of m) = 9.
Proof.
  intros (g1 & s1 & g2 & s2 & g3 & -> & F1 & L1 & O1 & F2 & L2 & O2 & F3 & L3).
  rewrite !digits_of_app, !length_app.
  rewrite (digits_of_all_digits _ F1), (digits_of_all_digits _ F2),
    (digits_of_all_digits _ F3), (digits_of_opt_sep _ O1), (digits_of_opt_sep _ O2).
  simpl. lia.
Qed.

Lemma ssn_shaped_first (m : text) :
  ssn_shaped m -> exists d m', m = d :: m' /\ is_digit d = true.
Proof.
  intros (g1 & s1 & g2 & s2 & g3 & -> & F1 & L1 & _).
  destruct g1 as [|d g1]; [discriminate|].
  exists d, (g1 ++ s1 ++ g2 ++ s2 ++ g3). inversion F1. auto.
Qed.

Lemma ssn_shaped_last (m : text) (prev : option ascii) :
  ssn_shaped m -> exists d, last_char prev m = Some d /\ is_digit d = true.
Proof.
  intros (g1 & s1 & g2 & s2 & g3 & -> & _ & _ & _ & _ & _ & _ & F3 & L3).
  rewrite !last_char_app.
  destruct g3 as [|d g3] using rev_ind; [discriminate|].
  exists d. rewrite last_char_snoc. split; [reflexivity|].
  apply Forall_app in F3. destruct F3 as [_ F3]. now inversion F3.
Qed.

(** A successful attempt of the SSN pattern. *)
Lemma match_at_SSN_RE (ma : bool) (prev : option ascii) (s : text) (n : nat) :
  match_at SSN_RE ma prev s = Some n ->
  exists m s',
    s = m ++ s' /\ length m = n /\ ssn_shaped m
    /\ at_boundary prev s = true
    /\ at_boundary (last_char prev m) s' = true.
Proof.
  intros H. apply match_at_sound in H.
  destruct H as (m & s' & E & L & _ & _ & Hd & _).
  apply den_SSN_RE in Hd. destruct Hd as (m' & E' & _ & Hs & Hb & Hb').
  assert (m' = m) by (apply app_inv_tail with (l := s'); congruence).
  subst m'. exists m, s'. auto.
Qed.

Lemma never_empty_SSN_RE : never_empty SSN_RE.
Proof.
  intros prev s H. apply match_at_SSN_RE in H.
  destruct H as (m & s' & _ & L & Hs & _).
  apply ssn_shaped_digits in Hs.
  pose proof (length_digits_of_le m). lia.
Qed.

Lemma den_pan_body (a b : cfg) :
  den (Class is_digit >> opt (Class is_sep)) a b ->
  exists blk,
    snd a = blk ++ snd b /\ pan_block blk /\ fst b = last_char (fst a) blk.
Proof.
  intros (mid & (d & E & Hd & L) & H).
  apply den_opt_sep in H. destruct H as (g & Eg & Og & Lg).
  exists (d :: g). rewrite E, Eg, Lg, L, last_char_cons. simpl.
  repeat split; auto. now exists d, g.
Qed.

Lemma power_pan_body (n : nat) :
  forall a b,
    power (den (Class is_digit >> opt (Class is_sep))) n a b ->
    exists blocks,
      snd a = concat blocks ++ snd b
      /\ Forall pan_block blocks /\ length blocks = n
      /\ fst b = last_char (fst a) (concat blocks).
Proof.
  induction n as [|n IH]; cbn [power]; intros a b H.
  - subst b. exists []. auto.
  - destruct H as (mid & H1 & H).
    apply den_pan_body in H1. destruct H1 as (blk & E1 & B1 & L1).
    apply IH in H. destruct H as (blocks & E & F & Ln & L).
    exists (blk :: blocks). simpl.
    rewrite E1, E, L, L1, last_char_app, <- app_assoc.
    repeat split; auto.
Qed.

(** The PAN candidate pattern, read off its denotation. *)
Lemma den_PAN_CANDIDATE_RE (prev prev' : option ascii) (s s' : text) :
  den PAN_CANDIDATE_RE (prev, s) (prev', s') ->
  exists m,
    s = m ++ s' /\ prev' = last_char prev m /\ pan_shaped m
    /\ at_boundary prev s = true
    /\ at_boundary (last_char prev m) s' = true.
Proof.
  unfold PAN_CANDIDATE_RE.
  intros (a0 & [<- Hb0] & a1 & (n & Hn & H1) & [E2 Hb2]).
  subst a1. simpl in Hb0, Hb2.
  apply power_pan_body in H1. destruct H1 as (blocks & E & F & Ln & L).
  simpl in *. exists (concat blocks). subst n.
  repeat split; auto.
  - now exists blocks.
  - now rewrite <- L.
Qed.

Lemma pan_block_digits (b : text) :
  pan_block b -> length (digits_of b) = 1.
Proof.
  intros (d & g & -> & Hd & Og). simpl. rewrite Hd. simpl.
  now rewrite (digits_of_opt_sep _ Og).
Qed.

Lemma pan_blocks_digits (blocks : list text) :
  Forall pan_block blocks ->
  length (digits_of (concat blocks)) = length blocks.
Proof.
  induction 1 as [|b blocks Hb _ IH]; simpl; [reflexivity|].
  now rewrite digits_of_app, length_app, (pan_block_digits _ Hb), IH.
Qed.

Lemma pan_shaped_digits (m : text) :
  pan_shaped m -> 13 <= length (digits_of m) <= 19.
Proof.
  intros (blocks & -> & F & L). now rewrite (pan_blocks_digits _ F).
Qed.

Lemma pan_shaped_first (m : text) :
  pan_shaped m -> exists d m', m = d :: m' /\ is_digit d = true.
Proof.
  intros (blocks & -> & F & L).
  destruct blocks as [|b blocks]; [simpl in L; lia|].
  inversion F as [|? ? (d & g & -> & Hd & _) _]; subst.
  exists d, (g ++ concat blocks). auto.
Qed.

(** A successful attempt of the PAN candidate pattern. *)
Lemma match_at_PAN_CANDIDATE_RE (ma : bool) (prev : option ascii)
  (s : text) (n : nat) :
  match_at PAN_CANDIDATE_RE ma prev s = Some n ->
  exists m s',
    s = m ++ s' /\ length m = n /\ pan_shaped m
    /\ at_boundary prev s = true
    /\ at_boundary (last_char prev m) s' = true.
Proof.
  intros H. apply match_at_sound in H.
  destruct H as (m & s' & E & L & _ & _ & Hd & _).
  apply den_PAN_CANDIDATE_RE in Hd.
  destruct Hd as (m' & E' & _ & Hs & Hb & Hb').
  assert (m' = m) by (apply app_inv_tail with (l := s'); congruence).
  subst m'. exists m, s'. auto.
Qed.

Lemma never_empty_PAN_CANDIDATE_RE : never_empty PAN_CANDIDATE_RE.
Proof.
  intros prev s H. apply match_at_PAN_CANDIDATE_RE in H.
  destruct H as (m & s' & _ & L & Hs & _).
  apply pan_shaped_digits in Hs.
  pose proof (length_digits_of_le m). lia.
Qed.

(** ** The digit normalizer *)

Lemma substitute_erase (ps : list piece) :
  substitute (fun _ (st : unit) => ([], st)) ps tt
  = (render (fun _ => []) ps, tt).
Proof.
  induction ps as [|[c|m] ps IH]; simpl; [reflexivity| |]; now rewrite IH.
Qed.

Lemma match_at_NON_DIGITS_RE (ma : bool) (prev : option ascii)
  (s : text) (n : nat) :
  match_at NON_DIGITS_RE ma prev s = Some n ->
  0 < n /\ no_digit (firstn n s).
Proof.
  intros H. apply match_at_sound in H.
  destruct H as (m & s' & E & L & F & _ & (n' & Hn & Hd) & _).
  apply power_class in Hd. destruct Hd as (g & Eg & Lg & Fg & _).
  simpl in Eg.
  assert (g = m) by (apply app_inv_tail with (l := s'); congruence).
  subst g. rewrite F. split; [lia|].
  eapply Forall_impl; [|exact Fg].
  intros c Hc. unfold is_nondigit in Hc. now apply negb_true_iff.
Qed.

Lemma match_at_NON_DIGITS_RE_nondigit (prev : option ascii) (c : ascii)
  (s : text) :
  is_digit c = false ->
  match_at NON_DIGITS_RE false prev (c :: s) <> None.
Proof.
  intros Hc. unfold match_at.
  apply bt_complete with (prev' := Some c) (s' := s).
  - exists 1. simpl. split; [lia|].
    exists (Some c, s). split; [|reflexivity].
    exists c. unfold is_nondigit. rewrite Hc. auto.
  - unfold accept. discriminate.
Qed.

Lemma render_erase_scan (s : text) :
  forall skip prev, skip <= length s ->
    no_digit (firstn skip s) ->
    render (fun _ => []) (scan NON_DIGITS_RE skip prev s) = digits_of s.
Proof.
  induction s as [|c s IH]; intros skip prev Hk Hskip.
  - simpl in Hk. assert (skip = 0) by lia. subst skip. simpl.
    destruct (attempts NON_DIGITS_RE prev []) as [ms n] eqn:E. simpl.
    clear E. induction ms; simpl; auto.
  - destruct skip as [|k]; cbn [scan].
    + destruct (match_at NON_DIGITS_RE false prev (c :: s)) as [[|n]|] eqn:E.
      * apply match_at_NON_DIGITS_RE in E. lia.
      * rewrite (attempts_hit _ _ _ _ E). cbn [map app render].
        pose proof (match_at_length _ _ _ _ _ E) as Hn. simpl in Hn.
        apply match_at_NON_DIGITS_RE in E. destruct E as [_ Hnd].
        simpl in Hnd. inversion Hnd as [|? ? Hc Hrest]; subst.
        simpl. rewrite Hc. apply IH; [lia|exact Hrest].
      * rewrite (attempts_miss _ _ _ E). cbn [map app render].
        destruct (is_digit c) eqn:Hc.
        -- simpl. rewrite Hc. f_equal. apply IH; [lia|constructor].
        -- now apply match_at_NON_DIGITS_RE_nondigit in E.
    + simpl in Hk, Hskip. inversion Hskip as [|? ? Hc Hrest]; subst.
      simpl. rewrite Hc. apply IH; [lia|exact Hrest].
Qed.

(** The normalizer keeps the digit characters, in order, and nothing
    else. *)
Lemma normalize_digits_filter (s : text) : normalize_digits s = digits_of s.
Proof.
  unfold normalize_digits, re_sub. rewrite substitute_erase. simpl.
  apply render_erase_scan; [lia|constructor].
Qed.

(** ** Texts without digits, and runs of digits *)

Lemma no_digit_existsb (s : text) :
  existsb is_digit s = false <-> no_digit s.
Proof.
  unfold no_digit. induction s as [|c s IH]; simpl.
  - split; [constructor|reflexivity].
  - rewrite orb_false_iff, IH. split.
    + intros [Hc Hs]. now constructor.
    + intros H. now inversion H.
Qed.

Lemma all_digits_forallb (s : text) :
  forallb is_digit s = true <-> all_digits s.
Proof.
  unfold all_digits. rewrite forallb_forall, Forall_forall. reflexivity.
Qed.

(** Neither pattern matches where the text does not go on with a digit. *)
Lemma match_at_SSN_RE_needs_digit (prev : option ascii) (s : text) :
  match s with c :: _ => is_digit c = false | [] => True end ->
  match_at SSN_RE false prev s = None.
Proof.
  intros Hs. destruct (match_at SSN_RE false prev s) as [n|] eqn:E;
    [|reflexivity].
  apply match_at_SSN_RE in E. destruct E as (m & s' & -> & _ & Hm & _).
  apply ssn_shaped_first in Hm. destruct Hm as (d & m' & -> & Hd).
  simpl in Hs. congruence.
Qed.

Lemma match_at_PAN_CANDIDATE_RE_needs_digit (prev : option ascii) (s : text) :
  match s with c :: _ => is_digit c = false | [] => True end ->
  match_at PAN_CANDIDATE_RE false prev s = None.
Proof.
  intros Hs. destruct (match_at PAN_CANDIDATE_RE false prev s) as [n|] eqn:E;
    [|reflexivity].
  apply match_at_PAN_CANDIDATE_RE in E.
  destruct E as (m & s' & -> & _ & Hm & _).
  apply pan_shaped_first in Hm. destruct Hm as (d & m' & -> & Hd).
  simpl in Hs. congruence.
Qed.

(** A text in which no attempt succeeds is kept character by character. *)
Lemma finditer_no_match (r : regex) (s : text) :
  (forall prev s', match s' with c :: _ => is_digit c = false | [] => True end ->
     match_at r false prev s' = None) ->
  no_digit s ->
  finditer r s = map Keep s.
Proof.
  intros Hr Hs. unfold finditer.
  rewrite <- (app_nil_r s) at 1. rewrite scan_keep.
  - simpl. unfold attempts. rewrite Hr by exact I. simpl.
    now rewrite app_nil_r.
  - intros p1 p2 -> Hp2. apply Hr.
    apply Forall_app in Hs. destruct Hs as [_ Hs].
    rewrite app_nil_r. destruct p2 as [|c p2]; [exact I|]. now inversion Hs.
Qed.

(** A run of digits, digit by digit, as the repeated body of the PAN
    candidate pattern sees it. *)
Lemma power_pan_body_run (ds : text) (rest : text) :
  all_digits ds ->
  forall prev,
    power (den (Class is_digit >> opt (Class is_sep))) (length ds)
      (prev, ds ++ rest) (last_char prev ds, rest).
Proof.
  induction 1 as [|d ds Hd _ IH]; intros prev; simpl; [reflexivity|].
  exists (Some d, ds ++ rest). rewrite last_char_cons. split; [|apply IH].
  exists (Some d, ds ++ rest). split.
  - exists d. auto.
  - exists 0. simpl. split; [lia|reflexivity].
Qed.

Lemma all_digits_last (ds : text) (prev : option ascii) :
  all_digits ds -> ds <> [] ->
  exists d, last_char prev ds = Some d /\ is_digit d = true.
Proof.
  intros H Hne. destruct ds as [|d ds] using rev_ind; [contradiction|].
  exists d. rewrite last_char_snoc. apply Forall_app in H.
  destruct H as [_ H]. now inversion H.
Qed.

(** A run of 13 to 19 digits that is the whole text is one candidate. *)
Lemma match_at_PAN_CANDIDATE_RE_run (ds : text) :
  all_digits ds -> 13 <= length ds <= 19 ->
  match_at PAN_CANDIDATE_RE false None ds = Some (length ds).
Proof.
  intros Hds Hlen.
  assert (Hne : ds <> []) by (intros ->; simpl in Hlen; lia).
  destruct (all_digits_last ds None Hds Hne) as (dl & Hl & Hdl).
  destruct ds as [|d0 ds0] eqn:Eds; [contradiction|]. rewrite <- Eds in *.
  assert (Hd0 : is_digit d0 = true) by (subst ds; now inversion Hds).
  destruct (match_at PAN_CANDIDATE_RE false None ds) as [n|] eqn:E.
  - apply match_at_PAN_CANDIDATE_RE in E.
    destruct E as (m & s' & Em & Lm & Hm & _ & Hb).
    destruct s' as [|c s'].
    + rewrite app_nil_r in Em. congruence.
    + exfalso.
      assert (Hc : is_digit c = true).
      { rewrite Em in Hds. apply Forall_app in Hds.
        destruct Hds as [_ Hds]. now inversion Hds. }
      assert (Hm' : all_digits m).
      { rewrite Em in Hds. apply Forall_app in Hds. tauto. }
      assert (Hmne : m <> []).
      { apply pan_shaped_first in Hm. destruct Hm as (? & ? & -> & _).
        discriminate. }
      destruct (all_digits_last m None Hm' Hmne) as (dm & Hlm & Hdm).
      unfold at_boundary in Hb. rewrite Hlm in Hb.
      rewrite (digit_is_word _ Hc), (digit_is_word _ Hdm) in Hb.
      discriminate.
  - exfalso. revert E. unfold match_at.
    apply bt_complete with (prev' := last_char None ds) (s' := []).
    + unfold PAN_CANDIDATE_RE.
      exists (None, ds). split.
      { split; [reflexivity|]. cbn [fst snd]. unfold at_boundary.
        rewrite Eds. now rewrite (digit_is_word _ Hd0). }
      exists (last_char None ds, []). split.
      * exists (length ds). split; [exact Hlen|].
        rewrite <- (app_nil_r ds) at 2. now apply power_pan_body_run.
      * split; [reflexivity|]. cbn [fst snd]. unfold at_boundary.
        rewrite Hl. now rewrite (digit_is_word _ Hdl).
    + unfold accept. discriminate.
Qed.

(** ** The two redaction passes *)

Lemma redact_ssns_render (s : text) :
  redact_ssns s
  = (render (fun _ => REDACTED_SSN) (finditer SSN_RE s),
     length (hits (finditer SSN_RE s))).
Proof.
  unfold redact_ssns, re_sub. cbv zeta. now rewrite substitute_ssn_sub.
Qed.

Lemma redact_pans_render (s : text) :
  redact_pans s
  = (render (fun m => if pan_accepts m then REDACTED_PAN else m)
       (finditer PAN_CANDIDATE_RE s),
     length (filter pan_accepts (hits (finditer PAN_CANDIDATE_RE s)))).
Proof.
  unfold redact_pans, re_sub. cbv zeta. now rewrite substitute_pan_sub.
Qed.

(** The matches of a scan are spans of the text, of the shape the pattern
    gives them, between word boundaries. *)
Lemma hits_finditer_candidates (r : regex) (shaped : text -> Prop) (s : text) :
  (forall ma prev t n,
     match_at r ma prev t = Some n ->
     exists m t', t = m ++ t' /\ length m = n /\ shaped m
                  /\ at_boundary prev t = true
                  /\ at_boundary (last_char prev m) t' = true) ->
  Forall (candidate_in shaped s) (hits (finditer r s)).
Proof.
  intros Hr. apply Forall_forall. intros m Hin.
  apply hits_scan in Hin. destruct Hin as (pre & post & ma & E & Hm).
  apply Hr in Hm. destruct Hm as (m' & t' & Em & Lm & Sm & B1 & B2).
  assert (m' = m).
  { apply (f_equal (firstn (length m))) in Em.
    rewrite firstn_app, Nat.sub_diag, firstn_all in Em.
    rewrite firstn_app, Lm, Nat.sub_diag, <- Lm, firstn_all in Em.
    simpl in Em. rewrite !app_nil_r in Em. congruence. }
  subst m'. apply app_inv_head in Em. subst t'.
  exists pre, post. repeat split; auto.
  now rewrite last_char_app.
Qed.

Lemma pan_accepts_run (ds : text) :
  all_digits ds ->
  pan_accepts ds
  = (13 <=? length ds) && (length ds <=? 19) && luhn_is_valid ds.
Proof.
  intros H. unfold pan_accepts. cbv zeta.
  now rewrite normalize_digits_filter, (digits_of_all_digits _ H).
Qed.

(** C4: with both categories enabled, [redact_text] is the SSN pass
    followed by the PAN pass on its output, and the statistics are the two
    counts. *)
Theorem redact_text_ssn_then_pan (s : text) :
  redact_text s true true
  = (let (t1, c1) := redact_ssns s in
     let (t2, c2) := redact_pans t1 in
     (t2, {| ssn_redactions := c1; pan_redactions := c2 |})).
Proof.
  unfold redact_text.
  destruct (redact_ssns s) as [t1 c1].
  destruct (redact_pans t1) as [t2 c2].
  reflexivity.
Qed.

(** C1: the candidates of [redact_pans] are the spans found by the scan of
    the PAN candidate pattern: 13 to 19 digits, each with at most one
    hyphen or space behind it, between word boundaries.  The output is the
    text with each candidate replaced by [[REDACTED_PAN]] exactly when its
    normalized digits number 13 to 19 and pass the Luhn test, and put back
    unmodified otherwise; the count is the number of replaced candidates.
    ["4111111111111111"] becomes the token with count 1, and
    ["1234567890123"] stays as it is with count 0. *)
Theorem redact_pans_luhn_gate (s : text) :
  let candidates := finditer PAN_CANDIDATE_RE s in
  let gate m :=
    (13 <=? length (normalize_digits m))
    && (length (normalize_digits m) <=? 19)
    && luhn_is_valid (normalize_digits m) in
  source candidates = s
  /\ Forall (candidate_in pan_shaped s) (hits candidates)
  /\ redact_pans s
     = (render (fun m => if gate m then REDACTED_PAN else m) candidates,
        length (filter gate (hits candidates)))
  /\ redact_pans (lit "4111111111111111") = (lit "[REDACTED_PAN]", 1)
  /\ redact_pans (lit "1234567890123") = (lit "1234567890123", 0).
Proof.
  cbv zeta. split; [apply source_finditer|].
  split.
  { apply hits_finditer_candidates. apply match_at_PAN_CANDIDATE_RE. }
  split; [apply redact_pans_render|].
  split; vm_compute; reflexivity.
Qed.

(** C10: whatever the PAN candidate pattern matches has 13 to 19 digits
    once normalized, so on a match the callback of [redact_pans] never
    takes its digit-count exit: it redacts or rejects by the Luhn test
    alone.  This holds for every successful attempt of the pattern, and so
    for every candidate of a scan. *)
Theorem pan_candidate_digit_count (ma : bool) (prev : option ascii)
  (s : text) (n : nat) :
  match_at PAN_CANDIDATE_RE ma prev s = Some n ->
  let candidate := firstn n s in
  13 <= length (normalize_digits candidate) <= 19
  /\ (forall count,
        pan_sub candidate count
        = if luhn_is_valid (normalize_digits candidate)
          then (REDACTED_PAN, count + 1)
          else (candidate, count))
  /\ (forall t,
        Forall (fun m => 13 <= length (normalize_digits m) <= 19)
          (hits (finditer PAN_CANDIDATE_RE t))).
Proof.
  intros H. cbv zeta.
  assert (Hshape : forall m, pan_shaped m ->
            13 <= length (normalize_digits m) <= 19).
  { intros m Hm. rewrite normalize_digits_filter.
    now apply pan_shaped_digits. }
  assert (Hn : 13 <= length (normalize_digits (firstn n s)) <= 19).
  { apply match_at_PAN_CANDIDATE_RE in H.
    destruct H as (m & s' & -> & Lm & Hm & _).
    rewrite firstn_app, <- Lm, Nat.sub_diag, firstn_all. simpl.
    rewrite app_nil_r. now apply Hshape. }
  split; [exact Hn|]. split.
  - intros count. unfold pan_sub. cbv zeta.
    replace (13 <=? length (normalize_digits (firstn n s))) with true
      by (symmetry; apply Nat.leb_le; lia).
    replace (length (normalize_digits (firstn n s)) <=? 19) with true
      by (symmetry; apply Nat.leb_le; lia).
    simpl. now destruct (luhn_is_valid (normalize_digits (firstn n s))).
  - intros t.
    pose proof (hits_finditer_candidates PAN_CANDIDATE_RE pan_shaped t
                  match_at_PAN_CANDIDATE_RE) as Hall.
    eapply Forall_impl; [|exact Hall].
    intros m (pre & post & _ & Hm & _). now apply Hshape.
Qed.

Lemma pan_candidate_digit_count_witness :
  match_at PAN_CANDIDATE_RE false None (lit "4111111111111111") = Some 16
  /\ 13 <= length (normalize_digits (firstn 16 (lit "4111111111111111")))
     <= 19.
Proof.
  split; [reflexivity|].
  apply (pan_candidate_digit_count false None (lit "4111111111111111") 16).
  reflexivity.
Defined.

(** C5: a text that is one run of exactly 16 digits passing the Luhn test
    is one candidate, the whole run: the scan yields that single match and
    nothing else, and [redact_pans] returns the one token with count 1. *)
Theorem redact_pans_sixteen_digits (s : text) :
  forallb is_digit s = true ->
  length s = 16 ->
  luhn_is_valid s = true ->
  finditer PAN_CANDIDATE_RE s = [Hit s]
  /\ redact_pans s = (REDACTED_PAN, 1).
Proof.
  intros Hd Hl Hv. apply all_digits_forallb in Hd.
  assert (Hf : finditer PAN_CANDIDATE_RE s = [Hit s]).
  { unfold finditer. rewrite <- (app_nil_r s) at 1.
    rewrite scan_hit.
    - simpl. unfold attempts.
      now rewrite match_at_PAN_CANDIDATE_RE_needs_digit.
    - intros ->. discriminate.
    - rewrite app_nil_r. apply match_at_PAN_CANDIDATE_RE_run; [exact Hd|lia]. }
  split; [exact Hf|].
  rewrite redact_pans_render, Hf. cbn [render hits filter].
  rewrite (pan_accepts_run _ Hd), Hl, Hv. simpl.
  reflexivity.
Qed.

Lemma redact_pans_sixteen_digits_witness :
  forallb is_digit (lit "4111111111111111") = true
  /\ length (lit "4111111111111111") = 16
  /\ luhn_is_valid (lit "4111111111111111") = true
  /\ redact_pans (lit "4111111111111111") = (REDACTED_PAN, 1).
Proof.
  split; [reflexivity|]. split; [reflexivity|]. split; [reflexivity|].
  apply (redact_pans_sixteen_digits (lit "4111111111111111"));
    reflexivity.
Defined.

(** C6: on a text with no digit in it (tokens and other non-digit content
    only), [redact_text] returns the text as it is and both counts zero,
    whichever categories are enabled. *)
Theorem redact_text_no_digits (s : text) (do_ssn do_pan : bool) :
  existsb is_digit s = false ->
  redact_text s do_ssn do_pan
  = (s, {| ssn_redactions := 0; pan_redactions := 0 |}).
Proof.
  intros H. apply no_digit_existsb in H.
  assert (Hs : redact_ssns s = (s, 0)).
  { rewrite redact_ssns_render.
    rewrite (finditer_no_match SSN_RE s match_at_SSN_RE_needs_digit H).
    now rewrite render_map_Keep, hits_map_Keep. }
  assert (Hp : redact_pans s = (s, 0)).
  { rewrite redact_pans_render.
    rewrite (finditer_no_match PAN_CANDIDATE_RE s
               match_at_PAN_CANDIDATE_RE_needs_digit H).
    now rewrite render_map_Keep, hits_map_Keep. }
  unfold redact_text. destruct do_ssn, do_pan; rewrite ?Hs, ?Hp; reflexivity.
Qed.

Lemma redact_text_no_digits_witness :
  existsb is_digit (lit "see [REDACTED_SSN] and [REDACTED_PAN].") = false
  /\ redact_text (lit "see [REDACTED_SSN] and [REDACTED_PAN].") true true
     = (lit "see [REDACTED_SSN] and [REDACTED_PAN].",
        {| ssn_redactions := 0; pan_redactions := 0 |}).
Proof.
  split; [reflexivity|].
  apply (redact_text_no_digits
           (lit "see [REDACTED_SSN] and [REDACTED_PAN].") true true).
  reflexivity.
Defined.

(** ** Redaction removes digits *)

Lemma text_eqb_eq (a b : text) : text_eqb a b = true <-> a = b.
Proof.
  revert b. induction a as [|x a IH]; intros [|y b]; simpl;
    try (split; [discriminate|congruence]).
  - split; reflexivity.
  - rewrite andb_true_iff, Ascii.eqb_eq, IH.
    split; [intros [-> ->]; reflexivity|intros E; now inversion E].
Qed.

Lemma digits_of_source_SSN (ps : list piece) :
  Forall ssn_shaped (hits ps) ->
  length (digits_of (source ps))
  = length (digits_of (render (fun _ => REDACTED_SSN) ps))
    + 9 * length (hits ps).
Proof.
  induction ps as [|[c|m] ps IH]; simpl; intros H.
  - reflexivity.
  - destruct (is_digit c); simpl; rewrite IH by exact H; lia.
  - inversion H as [|? ? Hm Hrest]; subst.
    rewrite digits_of_app, length_app, (ssn_shaped_digits _ Hm).
    rewrite IH by exact Hrest. lia.
Qed.

Lemma digits_of_source_PAN (ps : list piece) :
  length (digits_of
            (render (fun m => if pan_accepts m then REDACTED_PAN else m) ps))
  + 13 * length (filter pan_accepts (hits ps))
  <= length (digits_of (source ps)).
Proof.
  induction ps as [|[c|m] ps IH]; simpl.
  - lia.
  - destruct (is_digit c); simpl; lia.
  - rewrite !digits_of_app, !length_app.
    destruct (pan_accepts m) eqn:Hm; [|lia].
    unfold pan_accepts in Hm. cbv zeta in Hm.
    rewrite normalize_digits_filter in Hm.
    apply andb_true_iff in Hm. destruct Hm as [Hm _].
    apply andb_true_iff in Hm. destruct Hm as [Hm _].
    apply Nat.leb_le in Hm. simpl. lia.
Qed.

Lemma render_PAN_no_redaction (ps : list piece) :
  filter pan_accepts (hits ps) = [] ->
  render (fun m => if pan_accepts m then REDACTED_PAN else m) ps = source ps.
Proof.
  induction ps as [|[c|m] ps IH]; simpl; intros H.
  - reflexivity.
  - now rewrite IH.
  - destruct (pan_accepts m); [discriminate|]. now rewrite IH.
Qed.

Lemma Forall_ssn_shaped_hits (s : text) :
  Forall ssn_shaped (hits (finditer SSN_RE s)).
Proof.
  pose proof (hits_finditer_candidates SSN_RE ssn_shaped s) as H.
  eapply Forall_impl; [|apply H].
  - intros m (pre & post & _ & Hm & _). exact Hm.
  - intros ma prev t n Hm. now apply match_at_SSN_RE with (ma := ma).
Qed.

(** The SSN pass: the text is unchanged exactly when nothing is counted,
    and every redaction takes nine digits out of the text. *)
Lemma redact_ssns_digits (s : text) :
  length (digits_of s)
  = length (digits_of (fst (redact_ssns s))) + 9 * snd (redact_ssns s)
  /\ (snd (redact_ssns s) = 0 -> fst (redact_ssns s) = s).
Proof.
  rewrite redact_ssns_render. cbn [fst snd]. split.
  - pose proof (digits_of_source_SSN (finditer SSN_RE s)
                  (Forall_ssn_shaped_hits s)) as H.
    now rewrite source_finditer in H.
  - intros H. apply length_zero_iff_nil in H.
    rewrite render_no_hits by exact H. apply source_finditer.
Qed.

(** The PAN pass: the text is unchanged when nothing is counted, and every
    redaction takes at least thirteen digits out of the text. *)
Lemma redact_pans_digits (s : text) :
  length (digits_of (fst (redact_pans s))) + 13 * snd (redact_pans s)
  <= length (digits_of s)
  /\ (snd (redact_pans s) = 0 -> fst (redact_pans s) = s).
Proof.
  rewrite redact_pans_render. cbn [fst snd]. split.
  - pose proof (digits_of_source_PAN (finditer PAN_CANDIDATE_RE s)) as H.
    now rewrite source_finditer in H.
  - intros H. apply length_zero_iff_nil in H.
    rewrite render_PAN_no_redaction by exact H. apply source_finditer.
Qed.

Lemma redact_text_unchanged_iff (s : text) (do_ssn do_pan : bool) :
  fst (redact_text s do_ssn do_pan) = s
  <-> ssn_redactions (snd (redact_text s do_ssn do_pan)) = 0
      /\ pan_redactions (snd (redact_text s do_ssn do_pan)) = 0.
Proof.
  unfold redact_text.
  destruct (redact_ssns_digits s) as [Hs1 Hs2].
  destruct (redact_ssns s) as [t1 c1]. simpl in Hs1, Hs2.
  destruct do_ssn.
  - destruct (redact_pans_digits t1) as [Hp1 Hp2].
    destruct (redact_pans t1) as [t2 c2]. simpl in Hp1, Hp2.
    destruct do_pan; simpl.
    + split.
      * intros ->. lia.
      * intros [H1 H2]. rewrite Hp2, Hs2 by assumption. reflexivity.
    + split.
      * intros ->. lia.
      * intros [H1 _]. now apply Hs2.
  - destruct (redact_pans_digits s) as [Hp1 Hp2].
    destruct (redact_pans s) as [t2 c2]. simpl in Hp1, Hp2.
    destruct do_pan; simpl.
    + split.
      * intros ->. lia.
      * intros [_ H2]. now apply Hp2.
    + split; auto.
Qed.

(** ** The file pipeline *)

(** C8: a file whose bytes contain a NUL byte leaves the state of the run
    as it was, whatever else the bytes hold: nothing is written for it and
    neither total moves.  A run over a list of files is the run over the
    list without that file. *)
Theorem process_file_skips_nul (path : Type)
  (decode_strict : list byte -> option text)
  (decode_replace : list byte -> text) (output_path : path -> path)
  (do_ssn do_pan : bool) (e : FileEntry path) (data : list byte) :
  read_bytes e = Some data ->
  has_nul data = true ->
  (forall st,
     process_file decode_strict decode_replace output_path do_ssn do_pan e st
     = st)
  /\ (forall before after st,
        main_loop decode_strict decode_replace output_path do_ssn do_pan
          (before ++ e :: after) st
        = main_loop decode_strict decode_replace output_path do_ssn do_pan
            (before ++ after) st).
Proof.
  intros Hr Hn.
  assert (H : forall st,
            process_file decode_strict decode_replace output_path
              do_ssn do_pan e st = st).
  { intros st. unfold process_file. rewrite Hr, Hn.
    destruct (negb (is_file e)); [reflexivity|].
    now destruct (existsb (String.eqb (suffix_lower e)) BINARY_SUFFIXES). }
  split; [exact H|].
  intros before after st. unfold main_loop.
  rewrite !fold_left_app. simpl. now rewrite H.
Qed.

Lemma process_file_skips_nul_witness :
  let data := [x31; x32; x33; x2d; x34; x35; x2d; x36; x37; x38; x39; x00] in
  let e := {| entry_path := 7; is_file := true; suffix_lower := ".txt";
              read_bytes := Some data |} in
  let st := {| total_ssn := 2; total_pan := 1; files_written := 3;
               outputs := [] |} in
  read_bytes e = Some data
  /\ has_nul data = true
  /\ process_file (fun _ => None) (map ascii_of_byte) S true true e st = st.
Proof.
  intros data e st. split; [reflexivity|]. split; [reflexivity|].
  apply (process_file_skips_nul nat (fun _ => None) (map ascii_of_byte) S
           true true e data eq_refl eq_refl).
Defined.

(** C9: for every text and every choice of categories, [redact_text]
    returns the text it was given exactly when both counts are zero.  So a
    file that the loop skips because the output equals the input had
    nothing to add: after any file, each total is the total before plus the
    count [redact_text] returned for it, if the file got that far. *)
Theorem redact_text_unchanged_iff_zero_counts (s : text)
  (do_ssn do_pan : bool) :
  (fst (redact_text s do_ssn do_pan) = s
   <-> ssn_redactions (snd (redact_text s do_ssn do_pan)) = 0
       /\ pan_redactions (snd (redact_text s do_ssn do_pan)) = 0)
  /\ (forall (path : Type) (decode_strict : list byte -> option text)
        (decode_replace : list byte -> text) (output_path : path -> path)
        (e : FileEntry path) (st : RunState path),
        let st' :=
          process_file decode_strict decode_replace output_path
            do_ssn do_pan e st in
        let counts :=
          match redaction_of decode_strict decode_replace do_ssn do_pan e with
          | Some (_, stats) => (ssn_redactions stats, pan_redactions stats)
          | None => (0, 0)
          end in
        total_ssn st' = total_ssn st + fst counts
        /\ total_pan st' = total_pan st + snd counts).
Proof.
  split; [apply redact_text_unchanged_iff|].
  intros path decode_strict decode_replace output_path e st. cbv zeta.
  unfold process_file, redaction_of.
  destruct (negb (is_file e)); [simpl; lia|].
  destruct (existsb (String.eqb (suffix_lower e)) BINARY_SUFFIXES);
    [simpl; lia|].
  destruct (read_bytes e) as [data|]; [|simpl; lia].
  destruct (has_nul data); [simpl; lia|].
  pose proof (redact_text_unchanged_iff
                (decode decode_strict decode_replace data) do_ssn do_pan)
    as Hiff.
  destruct (redact_text (decode decode_strict decode_replace data)
              do_ssn do_pan) as [redacted stats].
  simpl in Hiff. simpl.
  destruct (text_eqb redacted (decode decode_strict decode_replace data))
    eqn:E; simpl; [|lia].
  apply text_eqb_eq in E. apply Hiff in E. lia.
Qed.

(** ** Spans the SSN pattern cannot reach into *)

(** A match that starts before a cut and ends behind it. *)
Lemma straddle_split (m s' p2 rest : text) :
  m ++ s' = p2 ++ rest -> length p2 < length m ->
  exists x, m = p2 ++ x /\ rest = x ++ s' /\ x <> [].
Proof.
  intros E Hlen. apply app_eq_app in E.
  destruct E as (l & [[-> ->]|[-> ->]]).
  - exists l. repeat split; auto. intros ->.
    rewrite app_nil_r in Hlen. lia.
  - rewrite length_app in Hlen. lia.
Qed.

Lemma at_boundary_after_word (c : ascii) (s : text) :
  is_word c = true ->
  at_boundary (Some c) s = true ->
  match s with c' :: _ => is_word c' = false | [] => True end.
Proof.
  unfold at_boundary. intros ->. destruct s as [|c' s]; [auto|].
  now destruct (is_word c').
Qed.

Lemma at_boundary_before_word (prev : option ascii) (c : ascii) (s : text) :
  is_word c = true ->
  at_boundary prev (c :: s) = true ->
  match prev with Some c' => is_word c' = false | None => True end.
Proof.
  unfold at_boundary. intros ->. destruct prev as [c'|]; [|auto].
  now destruct (is_word c').
Qed.

(** No match of the SSN pattern reaches into a run of ten digits or more:
    it would have to end inside the run, where there is no word boundary,
    or to hold the whole run, which has too many digits. *)
Lemma SSN_RE_stops_before_run (prev : option ascii) (p2 run post : text)
  (n : nat) :
  all_digits run -> 10 <= length run ->
  match_at SSN_RE false prev (p2 ++ run ++ post) = Some n ->
  n <= length p2.
Proof.
  intros Hrun Hlen H.
  apply match_at_SSN_RE in H.
  destruct H as (m & s' & E & Lm & Hm & _ & Hb).
  destruct (Nat.le_gt_cases n (length p2)) as [|Hgt]; [assumption|exfalso].
  symmetry in E. apply straddle_split in E; [|lia].
  destruct E as (x & -> & E & Hx).
  destruct (ssn_shaped_last (p2 ++ x) prev Hm) as (dl & Hl & Hdl).
  rewrite Hl in Hb.
  apply at_boundary_after_word in Hb; [|now apply digit_is_word].
  pose proof (ssn_shaped_digits _ Hm) as Hnine.
  rewrite digits_of_app, length_app in Hnine.
  apply app_eq_app in E. destruct E as (l & [[-> ->]|[-> ->]]).
  - destruct l as [|c l].
    + rewrite app_nil_r in Hrun.
      rewrite (digits_of_all_digits _ Hrun) in Hnine.
      rewrite app_nil_r in Hlen. lia.
    + apply Forall_app in Hrun. destruct Hrun as [_ Hl'].
      inversion Hl' as [|? ? Hc _]; subst. simpl in Hb.
      rewrite (digit_is_word _ Hc) in Hb. discriminate.
  - rewrite digits_of_app, length_app in Hnine.
    rewrite (digits_of_all_digits _ Hrun) in Hnine. lia.
Qed.

(** Inside a run of digits there is no word boundary to start a match
    at. *)
Lemma SSN_RE_not_inside_run (prev : option ascii) (r1 r2 post : text) :
  all_digits r1 -> r1 <> [] -> all_digits r2 -> r2 <> [] ->
  match_at SSN_RE false (last_char prev r1) (r2 ++ post) = None.
Proof.
  intros H1 N1 H2 N2.
  destruct (match_at SSN_RE false (last_char prev r1) (r2 ++ post))
    as [n|] eqn:E; [exfalso|reflexivity].
  apply match_at_SSN_RE in E. destruct E as (_ & _ & _ & _ & _ & Hb & _).
  destruct (all_digits_last r1 prev H1 N1) as (d & Hl & Hd).
  destruct r2 as [|c r2]; [contradiction|].
  inversion H2 as [|? ? Hc _]; subst.
  rewrite Hl in Hb. unfold at_boundary in Hb. simpl in Hb.
  rewrite (digit_is_word _ Hc), (digit_is_word _ Hd) in Hb. discriminate.
Qed.

(** The scan of the SSN pattern keeps a run of ten digits or more,
    character by character, wherever it stands in the text. *)
Lemma finditer_SSN_RE_keeps_run (pre run post : text) :
  all_digits run -> 10 <= length run ->
  exists ps1 ps2,
    finditer SSN_RE (pre ++ run ++ post) = ps1 ++ map Keep run ++ ps2
    /\ source ps1 = pre /\ source ps2 = post.
Proof.
  intros Hrun Hlen. unfold finditer.
  destruct (scan_cut SSN_RE (run ++ post) never_empty_SSN_RE pre 0 None)
    as (ps1 & E1 & S1); [lia| |].
  { intros p1 p2 n _ _.
    now apply SSN_RE_stops_before_run. }
  exists ps1, (scan SSN_RE 0 (last_char (last_char None pre) run) post).
  rewrite E1. split; [|split].
  - f_equal. apply scan_keep.
    intros r1 r2 -> Hr2.
    apply Forall_app in Hrun. destruct Hrun as [Hr1 Hr2'].
    destruct r1 as [|c r1].
    + rewrite last_char_nil.
      destruct (match_at SSN_RE false (last_char None pre) (r2 ++ post))
        as [n|] eqn:E; [exfalso|reflexivity].
      pose proof (SSN_RE_stops_before_run (last_char None pre) [] r2 post n
                    Hr2' Hlen E) as Hn.
      simpl in Hn. assert (n = 0) by lia. subst n.
      exact (never_empty_SSN_RE _ _ E).
    + apply SSN_RE_not_inside_run; auto. discriminate.
  - exact S1.
  - apply source_scan. lia.
Qed.

(** C7: with [do_pan = False], [redact_text] reports no PAN redaction and
    changes the text by the SSN pass alone, if that is enabled.  A run of
    16 digits or more, Luhn-valid or not, stands in the output as it stood
    in the input: the SSN pattern matches no part of it, so the output is
    the redaction of what precedes the run, the run itself, and the
    redaction of what follows. *)
Theorem redact_text_pan_disabled (pre run post : text) (do_ssn : bool) :
  forallb is_digit run = true ->
  16 <= length run ->
  (forall t,
     pan_redactions (snd (redact_text t do_ssn false)) = 0
     /\ redact_text t false false
        = (t, {| ssn_redactions := 0; pan_redactions := 0 |})
     /\ redact_text t true false
        = (fst (redact_ssns t),
           {| ssn_redactions := snd (redact_ssns t); pan_redactions := 0 |}))
  /\ (exists ps1 ps2,
        source ps1 = pre /\ source ps2 = post
        /\ finditer SSN_RE (pre ++ run ++ post) = ps1 ++ map Keep run ++ ps2
        /\ fst (redact_text (pre ++ run ++ post) true false)
           = render (fun _ => REDACTED_SSN) ps1 ++ run
             ++ render (fun _ => REDACTED_SSN) ps2)
  /\ fst (redact_text (pre ++ run ++ post) false false) = pre ++ run ++ post.
Proof.
  intros Hd Hlen. apply all_digits_forallb in Hd.
  assert (Hgen : forall t,
            pan_redactions (snd (redact_text t do_ssn false)) = 0
            /\ redact_text t false false
               = (t, {| ssn_redactions := 0; pan_redactions := 0 |})
            /\ redact_text t true false
               = (fst (redact_ssns t),
                  {| ssn_redactions := snd (redact_ssns t);
                     pan_redactions := 0 |})).
  { intros t. unfold redact_text.
    destruct (redact_ssns t) as [t1 c1]. now destruct do_ssn. }
  split; [exact Hgen|]. split; [|reflexivity].
  destruct (finditer_SSN_RE_keeps_run pre run post Hd ltac:(lia))
    as (ps1 & ps2 & E & S1 & S2).
  exists ps1, ps2. repeat split; auto.
  destruct (Hgen (pre ++ run ++ post)) as (_ & _ & ->). cbn [fst].
  rewrite redact_ssns_render. cbn [fst].
  now rewrite E, !render_app, render_map_Keep.
Qed.

Lemma redact_text_pan_disabled_witness :
  forallb is_digit (lit "4111111111111111") = true
  /\ 16 <= length (lit "4111111111111111")
  /\ fst (redact_text
            (lit "ssn 123-45-6789 card " ++ lit "4111111111111111" ++ lit ".")
            false false)
     = lit "ssn 123-45-6789 card " ++ lit "4111111111111111" ++ lit ".".
Proof.
  split; [reflexivity|]. split; [vm_compute; lia|].
  apply (redact_text_pan_disabled (lit "ssn 123-45-6789 card ")
           (lit "4111111111111111") (lit ".") true);
    [reflexivity|vm_compute; lia].
Defined.

(** ** Every SSN-shaped span between word boundaries is found *)

#[local] Arguments is_digit : simpl never.
#[local] Arguments is_sep : simpl never.
#[local] Arguments is_word : simpl never.
#[local] Arguments at_boundary : simpl never.

(** The four ways an SSN-shaped text is laid out. *)
Lemma ssn_shaped_cases (m : text) :
  ssn_shaped m ->
  exists d1 d2 d3 d4 d5 d6 d7 d8 d9 s1 s2,
    m = d1 :: d2 :: d3 :: s1 ++ d4 :: d5 :: s2 ++ [d6; d7; d8; d9]
    /\ Forall (fun d => is_digit d = true) [d1; d2; d3; d4; d5; d6; d7; d8; d9]
    /\ opt_sep s1 /\ opt_sep s2.
Proof.
  intros (g1 & s1 & g2 & s2 & g3 & -> & F1 & L1 & O1 & F2 & L2 & O2 & F3 & L3).
  destruct g1 as [|d1 [|d2 [|d3 [|? ?]]]]; try discriminate.
  destruct g2 as [|d4 [|d5 [|? ?]]]; try discriminate.
  destruct g3 as [|d6 [|d7 [|d8 [|d9 [|? ?]]]]]; try discriminate.
  exists d1, d2, d3, d4, d5, d6, d7, d8, d9, s1, s2.
  repeat split; auto.
  apply Forall_app with (l1 := [d1; d2; d3]). split; [exact F1|].
  apply Forall_app with (l1 := [d4; d5]). split; [exact F2|exact F3].
Qed.

Ltac digit_facts :=
  repeat match goal with
    | H : Forall _ (_ :: _) |- _ =>
        let Hd := fresh "Hd" in
        let Hs := fresh "Hs" in
        let Hw := fresh "Hw" in
        inversion H as [|? ? Hd ?]; subst; clear H;
        pose proof (digit_not_sep _ Hd) as Hs;
        pose proof (digit_is_word _ Hd) as Hw
    | H : Forall _ [] |- _ => clear H
    end.

Ltac sep_facts :=
  repeat match goal with
    | H : opt_sep _ |- _ =>
        let c := fresh "c" in
        let Hc := fresh "Hc" in
        let Hd := fresh "Hcd" in
        let Hw := fresh "Hcw" in
        destruct H as [->|(c & -> & Hc)];
        [|pose proof (sep_not_digit _ Hc) as Hd;
          pose proof (sep_not_word _ Hc) as Hw]
    end.

Ltac rewrite_facts :=
  repeat match goal with
    | H : is_digit ?c = _ |- context [is_digit ?c] => rewrite H
    | H : is_sep ?c = _ |- context [is_sep ?c] => rewrite H
    | H : is_word ?c = _ |- context [is_word ?c] => rewrite H
    | H : at_boundary ?p ?s = _ |- context [at_boundary ?p ?s] => rewrite H
    end.

(** The matcher accepts an SSN-shaped span between word boundaries, whole. *)
Lemma match_at_SSN_RE_shaped (prev : option ascii) (m post : text) :
  ssn_shaped m ->
  at_boundary prev (m ++ post) = true ->
  at_boundary (last_char prev m) post = true ->
  match_at SSN_RE false prev (m ++ post) = Some (length m).
Proof.
  intros Hm Hb Hb'. apply ssn_shaped_cases in Hm.
  destruct Hm as (d1 & d2 & d3 & d4 & d5 & d6 & d7 & d8 & d9 & s1 & s2
                  & -> & F & O1 & O2).
  digit_facts. sep_facts;
    cbn [app] in Hb |- *; cbv [last_char rev app] in Hb';
    unfold match_at, SSN_RE, times, opt;
    repeat (cbn [bt rep_loop Nat.eqb pred]; rewrite_facts);
    unfold accept; cbn [andb]; f_equal; simpl length; lia.
Qed.

(** The run of digits an SSN-shaped span starts with has 3 digits, or 5,
    or at least 9. *)
Lemma digit_run_ssn_shaped (m post : text) :
  ssn_shaped m ->
  digit_run (m ++ post) = 3 \/ digit_run (m ++ post) = 5
  \/ 9 <= digit_run (m ++ post).
Proof.
  intros Hm. apply ssn_shaped_cases in Hm.
  destruct Hm as (d1 & d2 & d3 & d4 & d5 & d6 & d7 & d8 & d9 & s1 & s2
                  & -> & F & O1 & O2).
  digit_facts. sep_facts; cbn [app digit_run]; rewrite_facts;
    cbn [digit_run]; rewrite_facts; lia.
Qed.

Ltac peel p E :=
  destruct p as [|? p];
  [cbn [app] in E; subst
  |cbn [app] in E; injection E as ? E; subst].

Ltac clash :=
  match goal with
  | H1 : ?x = true, H2 : ?x = false |- _ => rewrite H1 in H2; discriminate H2
  end.

(** What is left of an SSN match behind one of its separators starts with
    a run of 2, 4 or 6 digits. *)
Lemma digit_run_behind_sep (prev : option ascii) (p2 x s' : text)
  (c0 : ascii) :
  ssn_shaped (p2 ++ x) ->
  at_boundary (last_char prev (p2 ++ x)) s' = true ->
  last_char prev p2 = Some c0 -> is_word c0 = false ->
  p2 <> [] -> x <> [] ->
  digit_run (x ++ s') = 2 \/ digit_run (x ++ s') = 4
  \/ digit_run (x ++ s') = 6.
Proof.
  intros Hm Hb Hl Hw Hp2 Hx.
  assert (Hs' : match s' with c :: _ => is_digit c = false | [] => True end).
  { destruct (ssn_shaped_last (p2 ++ x) prev Hm) as (dl & Hdl & Hd).
    rewrite Hdl in Hb.
    apply at_boundary_after_word in Hb; [|now apply digit_is_word].
    destruct s' as [|c s']; [exact I|].
    destruct (is_digit c) eqn:Hc; [|reflexivity].
    apply digit_is_word in Hc. congruence. }
  clear Hb.
  apply ssn_shaped_cases in Hm.
  destruct Hm as (d1 & d2 & d3 & d4 & d5 & d6 & d7 & d8 & d9 & s1 & s2
                  & E & F & O1 & O2).
  digit_facts. symmetry in E.
  sep_facts; cbn [app] in E;
    do 12 (try (peel p2 E;
                [try (now elim Hp2);
                 try (now elim Hx);
                 try (cbv [last_char rev app] in Hl;
                      injection Hl as <-; clash);
                 try (cbn [app digit_run]; rewrite_facts;
                      destruct s' as [|? ?]; cbn [digit_run]; rewrite_facts;
                      cbn [digit_run]; lia)
                |]));
    symmetry in E; apply app_eq_nil in E; destruct E as [_ ->];
    now elim Hx.
Qed.

(** No match of the SSN pattern that starts earlier reaches into an
    SSN-shaped span that starts at a word boundary: behind a separator of
    the match the digits run for 2, 4 or 6 characters, while the span
    starts with a run of 3, 5 or at least 9. *)
Lemma SSN_RE_stops_before_ssn (prev : option ascii) (p2 m post : text)
  (n : nat) :
  ssn_shaped m -> p2 <> [] ->
  at_boundary (last_char prev p2) (m ++ post) = true ->
  match_at SSN_RE false prev (p2 ++ m ++ post) = Some n ->
  n <= length p2.
Proof.
  intros Hm Hp2 Hb H.
  apply match_at_SSN_RE in H.
  destruct H as (mm & s' & E & Lm & Hmm & _ & Hb').
  destruct (Nat.le_gt_cases n (length p2)) as [|Hgt]; [assumption|exfalso].
  symmetry in E. apply straddle_split in E; [|lia].
  destruct E as (x & -> & E & Hx).
  assert (Hc0 : exists c0, last_char prev p2 = Some c0 /\ is_word c0 = false).
  { destruct (ssn_shaped_first m Hm) as (d & m' & -> & Hd).
    apply at_boundary_before_word in Hb; [|now apply digit_is_word].
    destruct p2 as [|c0 p2 _] using rev_ind; [contradiction|].
    rewrite last_char_snoc in Hb |- *. now exists c0. }
  destruct Hc0 as (c0 & Hl & Hw).
  pose proof (digit_run_behind_sep prev p2 x s' c0 Hmm Hb' Hl Hw Hp2 Hx).
  pose proof (digit_run_ssn_shaped m post Hm) as Hrun.
  rewrite E in Hrun. lia.
Qed.

Lemma ssn_shaped_nonempty (m : text) : ssn_shaped m -> m <> [].
Proof.
  intros Hm. destruct (ssn_shaped_first m Hm) as (d & m' & -> & _).
  discriminate.
Qed.

(** The scan of the SSN pattern yields an SSN-shaped span between word
    boundaries as one match, wherever it stands in the text. *)
Lemma finditer_SSN_RE_finds (pre m post : text) :
  ssn_shaped m -> word_bounded pre m post ->
  exists ps1 ps2,
    finditer SSN_RE (pre ++ m ++ post) = ps1 ++ Hit m :: ps2
    /\ source ps1 = pre /\ source ps2 = post.
Proof.
  intros Hm [Hb Hb']. rewrite last_char_app in Hb'. unfold finditer.
  destruct (scan_cut SSN_RE (m ++ post) never_empty_SSN_RE pre 0 None)
    as (ps1 & E1 & S1); [lia| |].
  { intros p1 p2 n -> Hp2. apply SSN_RE_stops_before_ssn; auto.
    now rewrite <- last_char_app. }
  exists ps1, (scan SSN_RE 0 (last_char (last_char None pre) m) post).
  rewrite E1. split; [|split].
  - f_equal. apply scan_hit; [now apply ssn_shaped_nonempty|].
    now apply match_at_SSN_RE_shaped.
  - exact S1.
  - apply source_scan. lia.
Qed.

(** C3: [redact_ssns] puts [[REDACTED_SSN]] for every span of three
    digits, an optional hyphen or space, two digits, an optional hyphen or
    space and four digits that has a word boundary on either side, with no
    further test, and counts one per replacement.  Such a span, wherever
    it stands, is one match of the scan; the matches of the scan are spans
    of that kind; the output is the text with each match replaced, and the
    count is the number of matches.  ["SSN: 123-45-6789"] becomes
    ["SSN: [REDACTED_SSN]"] with count 1, and ["123 45 6789"] and
    ["123456789"] are redacted as well. *)
Theorem redact_ssns_every_span (pre m post : text) :
  ssn_shaped m ->
  word_bounded pre m post ->
  (exists ps1 ps2,
     source ps1 = pre /\ source ps2 = post
     /\ finditer SSN_RE (pre ++ m ++ post) = ps1 ++ Hit m :: ps2
     /\ redact_ssns (pre ++ m ++ post)
        = (render (fun _ => REDACTED_SSN) ps1 ++ REDACTED_SSN
           ++ render (fun _ => REDACTED_SSN) ps2,
           length (hits ps1) + 1 + length (hits ps2)))
  /\ (forall t,
        source (finditer SSN_RE t) = t
        /\ Forall (candidate_in ssn_shaped t) (hits (finditer SSN_RE t))
        /\ redact_ssns t
           = (render (fun _ => REDACTED_SSN) (finditer SSN_RE t),
              length (hits (finditer SSN_RE t))))
  /\ redact_ssns (lit "SSN: 123-45-6789") = (lit "SSN: [REDACTED_SSN]", 1)
  /\ redact_ssns (lit "123 45 6789") = (lit "[REDACTED_SSN]", 1)
  /\ redact_ssns (lit "123456789") = (lit "[REDACTED_SSN]", 1).
Proof.
  intros Hm Hb. split; [|split].
  - destruct (finditer_SSN_RE_finds pre m post Hm Hb)
      as (ps1 & ps2 & E & S1 & S2).
    exists ps1, ps2. repeat split; auto.
    rewrite redact_ssns_render, E, render_app, hits_app, length_app.
    cbn [render hits length]. f_equal. lia.
  - intros t. split; [apply source_finditer|]. split.
    + apply hits_finditer_candidates.
      intros ma prev s n H. now apply match_at_SSN_RE with (ma := ma).
    + apply redact_ssns_render.
  - repeat split; vm_compute; reflexivity.
Qed.

Lemma redact_ssns_every_span_witness :
  ssn_shaped (lit "123-45-6789")
  /\ word_bounded (lit "SSN: ") (lit "123-45-6789") []
  /\ redact_ssns (lit "SSN: 123-45-6789") = (lit "SSN: [REDACTED_SSN]", 1).
Proof.
  assert (Hm : ssn_shaped (lit "123-45-6789")).
  { exists (lit "123"), (lit "-"), (lit "45"), (lit "-"), (lit "6789").
    assert (Hsep : opt_sep (lit "-")).
    { right. exists "-"%char. split; reflexivity. }
    assert (Hdig : forall g, forallb is_digit g = true -> all_digits g).
    { intros g. apply all_digits_forallb. }
    split; [reflexivity|].
    split; [now apply Hdig|]. split; [reflexivity|]. split; [exact Hsep|].
    split; [now apply Hdig|]. split; [reflexivity|]. split; [exact Hsep|].
    split; [now apply Hdig|reflexivity]. }
  assert (Hb : word_bounded (lit "SSN: ") (lit "123-45-6789") []).
  { split; reflexivity. }
  split; [exact Hm|]. split; [exact Hb|].
  apply (redact_ssns_every_span (lit "SSN: ") (lit "123-45-6789") [] Hm Hb).
Defined.

(* ================================================================= *)
(** * Part III: further properties of the script *)
(* ================================================================= *)

From Stdlib Require Import Permutation.

(** ** The Luhn validator on digit strings *)

Lemma ord_digit (c : ascii) :
  is_digit c = true -> (48 <= ord c <= 57)%Z.
Proof.
  unfold is_digit, in_range, ord. intros H.
  apply andb_true_iff in H. destruct H as [H1 H2].
  apply N.leb_le in H1, H2. lia.
Qed.

Lemma ord_inj (a b : ascii) : ord a = ord b -> a = b.
Proof.
  unfold ord. intros H. apply N2Z.inj in H.
  rewrite <- (ascii_N_embedding a), <- (ascii_N_embedding b). now f_equal.
Qed.

Lemma luhn_double_digit (v : Z) :
  (0 <= v <= 9)%Z -> (0 <= luhn_double v <= 9)%Z.
Proof.
  intros H. unfold luhn_double.
  destruct (Z.gtb_spec (2 * v) 9); lia.
Qed.

Lemma luhn_double_inj (v w : Z) :
  (0 <= v <= 9)%Z -> (0 <= w <= 9)%Z -> luhn_double v = luhn_double w ->
  v = w.
Proof.
  intros Hv Hw. unfold luhn_double.
  destruct (Z.gtb_spec (2 * v) 9), (Z.gtb_spec (2 * w) 9); lia.
Qed.

(** The verdict by the index rule, with the parity of the length. *)
Lemma luhn_is_valid_index_sum (d : text) :
  luhn_is_valid d
  = (luhn_index_sum (Z.of_nat (length d) mod 2) 0 d mod 10 =? 0)%Z.
Proof.
  unfold luhn_is_valid. cbv zeta. now rewrite luhn_loop_index_sum.
Qed.

(** The sum of a string with one character singled out. *)
Lemma luhn_index_sum_at (parity : Z) (pre post : text) (x : ascii) :
  luhn_index_sum parity 0 (pre ++ x :: post)
  = (luhn_index_sum parity 0 pre
     + (if Z.of_nat (length pre) mod 2 =? parity
        then luhn_double (ord x - 48) else ord x - 48)
     + luhn_index_sum parity (Z.of_nat (length pre) + 1) post)%Z.
Proof.
  rewrite luhn_index_sum_app. cbn [luhn_index_sum]. rewrite Z.add_0_l. lia.
Qed.

(** X1: A digit string that passes the Luhn test fails it when any one of its
    digits is replaced by a different digit. *)
Theorem luhn_detects_single_digit_error (pre post : text) (a b : ascii) :
  is_digit a = true -> is_digit b = true -> a <> b ->
  luhn_is_valid (pre ++ a :: post) = true ->
  luhn_is_valid (pre ++ b :: post) = false.
Proof.
  intros Ha Hb Hab Hv.
  apply ord_digit in Ha, Hb.
  assert (Hne : ord a <> ord b) by (intros E; now apply Hab, ord_inj).
  rewrite luhn_is_valid_index_sum in Hv |- *.
  replace (length (pre ++ b :: post)) with (length (pre ++ a :: post))
    by (rewrite !length_app; reflexivity).
  set (parity := (Z.of_nat (length (pre ++ a :: post)) mod 2)%Z) in *.
  rewrite luhn_index_sum_at in Hv |- *.
  apply Z.eqb_eq in Hv. apply Z.eqb_neq.
  set (A := luhn_index_sum parity 0 pre) in *.
  set (B := luhn_index_sum parity (Z.of_nat (length pre) + 1) post) in *.
  destruct (Z.of_nat (length pre) mod 2 =? parity)%Z.
  - pose proof (luhn_double_digit (ord a - 48) ltac:(lia)).
    pose proof (luhn_double_digit (ord b - 48) ltac:(lia)).
    assert (luhn_double (ord a - 48) <> luhn_double (ord b - 48)).
    { intros E. apply luhn_double_inj in E; lia. }
    clearbody A B. Z.div_mod_to_equations. lia.
  - clearbody A B. Z.div_mod_to_equations. lia.
Qed.

Lemma luhn_detects_single_digit_error_witness :
  is_digit "1" = true /\ is_digit "2" = true /\ "1"%char <> "2"%char
  /\ luhn_is_valid (lit "411111111111111" ++ "1"%char :: []) = true
  /\ luhn_is_valid (lit "411111111111111" ++ "2"%char :: []) = false.
Proof.
  split; [reflexivity|]. split; [reflexivity|].
  split; [discriminate|]. split; [reflexivity|].
  apply (luhn_detects_single_digit_error (lit "411111111111111") []
           "1" "2"); [reflexivity|reflexivity|discriminate|reflexivity].
Defined.

(** X2: Swapping two adjacent, different digits of a string that passes the
    Luhn test goes unnoticed exactly when the two digits are 0 and 9. *)
Theorem luhn_adjacent_transposition (pre post : text) (a b : ascii) :
  is_digit a = true -> is_digit b = true -> a <> b ->
  luhn_is_valid (pre ++ a :: b :: post) = true ->
  (luhn_is_valid (pre ++ b :: a :: post) = true
   <-> (a = "0"%char /\ b = "9"%char) \/ (a = "9"%char /\ b = "0"%char)).
Proof.
  intros Ha Hb Hab Hv.
  apply ord_digit in Ha, Hb.
  assert (Hne : ord a <> ord b) by (intros E; now apply Hab, ord_inj).
  assert (H09 : (a = "0"%char /\ b = "9"%char)
                \/ (a = "9"%char /\ b = "0"%char)
                <-> (ord a = 48 /\ ord b = 57)%Z
                    \/ (ord a = 57 /\ ord b = 48)%Z).
  { split.
    - intros [[-> ->]|[-> ->]]; [left|right]; split; reflexivity.
    - intros [[E1 E2]|[E1 E2]]; [left|right]; split; apply ord_inj;
        rewrite ?E1, ?E2; reflexivity. }
  rewrite H09. clear H09.
  rewrite luhn_is_valid_index_sum in Hv |- *.
  replace (length (pre ++ b :: a :: post))
    with (length (pre ++ a :: b :: post))
    by (rewrite !length_app; reflexivity).
  set (parity := (Z.of_nat (length (pre ++ a :: b :: post)) mod 2)%Z) in *.
  rewrite luhn_index_sum_at in Hv |- *.
  cbn [luhn_index_sum] in Hv |- *.
  rewrite Z.eqb_eq in Hv |- *.
  set (A := luhn_index_sum parity 0 pre) in *.
  set (B := luhn_index_sum parity (Z.of_nat (length pre) + 1 + 1) post) in *.
  assert (Hpar : (Z.of_nat (length pre) mod 2 =? parity)%Z
                 = negb ((Z.of_nat (length pre) + 1) mod 2 =? parity)%Z).
  { assert (0 <= parity < 2)%Z by (apply Z.mod_pos_bound; lia).
    destruct (Z.eqb_spec (Z.of_nat (length pre) mod 2) parity),
      (Z.eqb_spec ((Z.of_nat (length pre) + 1) mod 2) parity);
      simpl; try reflexivity; exfalso; Z.div_mod_to_equations; lia. }
  rewrite Hpar in Hv |- *.
  unfold luhn_double in *.
  destruct ((Z.of_nat (length pre) + 1) mod 2 =? parity)%Z; cbn [negb] in *;
    destruct (Z.gtb_spec (2 * (ord a - 48)) 9),
      (Z.gtb_spec (2 * (ord b - 48)) 9);
    clearbody A B; Z.div_mod_to_equations; lia.
Qed.

Lemma luhn_adjacent_transposition_witness :
  is_digit "0" = true /\ is_digit "9" = true /\ "0"%char <> "9"%char
  /\ luhn_is_valid (lit "41111111111111" ++ "0"%char :: "9"%char :: lit "7")
     = true
  /\ luhn_is_valid (lit "41111111111111" ++ "9"%char :: "0"%char :: lit "7")
     = true.
Proof.
  split; [reflexivity|]. split; [reflexivity|].
  split; [discriminate|]. split; [reflexivity|].
  apply (luhn_adjacent_transposition (lit "41111111111111") (lit "7")
           "0" "9"); [reflexivity|reflexivity|discriminate|reflexivity|].
  left. split; reflexivity.
Defined.

Lemma is_digit_ord (c : ascii) :
  is_digit c = true <-> (48 <= ord c <= 57)%Z.
Proof.
  split; [apply ord_digit|].
  unfold is_digit, in_range, ord. intros H.
  apply andb_true_iff. split; apply N.leb_le; lia.
Qed.

(** X3: Every string has exactly one check digit: one digit that, put behind
    the string, makes it pass the Luhn test. *)
Theorem luhn_check_digit_unique (p : text) :
  exists c,
    is_digit c = true
    /\ luhn_is_valid (p ++ [c]) = true
    /\ forall c', is_digit c' = true ->
         luhn_is_valid (p ++ [c']) = true -> c' = c.
Proof.
  assert (Hsum : forall x,
            luhn_is_valid (p ++ [x])
            = ((luhn_index_sum (Z.of_nat (length (p ++ [x])) mod 2) 0 p
                + (ord x - 48)) mod 10 =? 0)%Z).
  { intros x. rewrite luhn_is_valid_index_sum, luhn_index_sum_at.
    cbn [luhn_index_sum]. rewrite Z.add_0_r.
    replace (Z.of_nat (length p) mod 2
             =? Z.of_nat (length (p ++ [x])) mod 2)%Z with false;
      [reflexivity|].
    symmetry. apply Z.eqb_neq. rewrite length_app. simpl length.
    rewrite Nat2Z.inj_add. change (Z.of_nat 1) with 1%Z.
    Z.div_mod_to_equations. lia. }
  assert (Hlen : forall x, length (p ++ [x]) = length p + 1).
  { intros x. now rewrite length_app. }
  set (A := luhn_index_sum (Z.of_nat (length p + 1) mod 2) 0 p).
  set (v := ((- A) mod 10)%Z).
  assert (Hv : (0 <= v < 10)%Z) by (apply Z.mod_pos_bound; lia).
  set (c := ascii_of_N (Z.to_N (48 + v))).
  assert (Hc : ord c = (48 + v)%Z).
  { unfold c, ord. rewrite N_ascii_embedding by lia. lia. }
  exists c. split; [apply is_digit_ord; lia|]. split.
  - rewrite Hsum, Hlen. fold A. rewrite Hc. apply Z.eqb_eq.
    subst v. clearbody A. Z.div_mod_to_equations. lia.
  - intros c' Hd Hvalid. apply is_digit_ord in Hd.
    rewrite Hsum, Hlen in Hvalid. fold A in Hvalid.
    apply Z.eqb_eq in Hvalid. apply ord_inj. rewrite Hc.
    subst v. clearbody A. Z.div_mod_to_equations. lia.
Qed.

(** ** The digit normalizer, as a function on texts *)


(** ** Digits in, digits out *)




(** ** A run of the file pipeline *)

Lemma process_file_step (path : Type)
  (decode_strict : list byte -> option text)
  (decode_replace : list byte -> text) (output_path : path -> path)
  (do_ssn do_pan : bool) (e : FileEntry path) (st : RunState path) :
  let st' :=
    process_file decode_strict decode_replace output_path do_ssn do_pan e st in
  let counts := file_counts decode_strict decode_replace do_ssn do_pan e in
  total_ssn st' = total_ssn st + fst counts
  /\ total_pan st' = total_pan st + snd counts
  /\ files_written st'
     = files_written st + (if has_redaction counts then 1 else 0)
  /\ exists new,
       outputs st' = outputs st ++ new
       /\ length new = (if has_redaction counts then 1 else 0).
Proof.
  cbv zeta. unfold process_file, file_counts, redaction_of, has_redaction.
  assert (Hskip : total_ssn st = total_ssn st + fst (0, 0)
                  /\ total_pan st = total_pan st + snd (0, 0)
                  /\ files_written st = files_written st + 0
                  /\ exists new : list (path * text),
                       outputs st = outputs st ++ new /\ length new = 0).
  { cbn [fst snd]. split; [lia|]. split; [lia|]. split; [lia|].
    exists []. now rewrite app_nil_r. }
  destruct (negb (is_file e)); [exact Hskip|].
  destruct (existsb (String.eqb (suffix_lower e)) BINARY_SUFFIXES);
    [exact Hskip|].
  destruct (read_bytes e) as [data|]; [|exact Hskip].
  destruct (has_nul data); [exact Hskip|].
  pose proof (redact_text_unchanged_iff
                (decode decode_strict decode_replace data) do_ssn do_pan)
    as Hiff.
  destruct (redact_text (decode decode_strict decode_replace data)
              do_ssn do_pan) as [redacted stats].
  cbn [fst snd] in Hiff |- *.
  destruct (text_eqb redacted (decode decode_strict decode_replace data))
    eqn:E.
  - apply text_eqb_eq in E. apply Hiff in E. destruct E as [-> ->].
    cbn [Nat.add Nat.ltb Nat.leb]. split; [lia|]. split; [lia|].
    split; [lia|]. exists []. now rewrite app_nil_r.
  - assert (Hpos : 0 < ssn_redactions stats + pan_redactions stats).
    { destruct (Nat.eq_dec (ssn_redactions stats + pan_redactions stats) 0)
        as [Hz|]; [|lia].
      exfalso. assert (redacted = decode decode_strict decode_replace data).
      { apply Hiff. lia. }
      subst redacted.
      assert (Ht : text_eqb (decode decode_strict decode_replace data)
                     (decode decode_strict decode_replace data) = true)
        by now apply text_eqb_eq.
      congruence. }
    apply Nat.ltb_lt in Hpos. rewrite Hpos.
    cbn [total_ssn total_pan files_written outputs].
    split; [lia|]. split; [lia|]. split; [lia|].
    eexists. split; reflexivity.
Qed.

Lemma main_loop_sums (path : Type)
  (decode_strict : list byte -> option text)
  (decode_replace : list byte -> text) (output_path : path -> path)
  (do_ssn do_pan : bool) (files : list (FileEntry path))
  (st : RunState path) :
  let st' :=
    main_loop decode_strict decode_replace output_path do_ssn do_pan
      files st in
  let counts :=
    map (file_counts decode_strict decode_replace do_ssn do_pan) files in
  total_ssn st' = total_ssn st + list_sum (map fst counts)
  /\ total_pan st' = total_pan st + list_sum (map snd counts)
  /\ files_written st'
     = files_written st + length (filter has_redaction counts)
  /\ exists new,
       outputs st' = outputs st ++ new
       /\ length new = length (filter has_redaction counts).
Proof.
  cbv zeta. revert st. unfold main_loop.
  induction files as [|e files IH]; intros st; cbn [fold_left map].
  - cbn [list_sum fold_right filter length]. split; [lia|]. split; [lia|].
    split; [lia|]. exists []. now rewrite app_nil_r.
  - destruct (process_file_step path decode_strict decode_replace output_path
                do_ssn do_pan e st) as (H1 & H2 & H3 & new1 & H4 & H5).
    destruct (IH (process_file decode_strict decode_replace output_path
                    do_ssn do_pan e st))
      as (I1 & I2 & I3 & new2 & I4 & I5).
    rewrite I1, I2, I3, I4, H1, H2, H3, H4.
    cbn [filter]. unfold list_sum. cbn [fold_right].
    destruct (has_redaction
                (file_counts decode_strict decode_replace do_ssn do_pan e));
      cbn [length]; (split; [lia|]; split; [lia|]; split; [lia|]);
      exists (new1 ++ new2); rewrite length_app, H5, I5, app_assoc;
      split; reflexivity.
Qed.

(** X6: After a run over any list of files, each total is the total before
    plus the counts of the files, the number of files written has grown by
    the number of files with at least one redaction, and one output has
    been appended for each of them; earlier outputs are kept. *)
Theorem main_loop_totals (path : Type)
  (decode_strict : list byte -> option text)
  (decode_replace : list byte -> text) (output_path : path -> path)
  (do_ssn do_pan : bool) (files : list (FileEntry path))
  (st : RunState path) :
  let st' :=
    main_loop decode_strict decode_replace output_path do_ssn do_pan
      files st in
  let counts :=
    map (file_counts decode_strict decode_replace do_ssn do_pan) files in
  total_ssn st' = total_ssn st + list_sum (map fst counts)
  /\ total_pan st' = total_pan st + list_sum (map snd counts)
  /\ files_written st'
     = files_written st + length (filter has_redaction counts)
  /\ exists new,
       outputs st' = outputs st ++ new
       /\ length new = length (filter has_redaction counts).
Proof. apply main_loop_sums. Qed.




(** X8: With both categories disabled a run changes nothing: no file is
    written and the totals stay as they were, whatever the files hold. *)
Theorem main_loop_nothing_enabled (path : Type)
  (decode_strict : list byte -> option text)
  (decode_replace : list byte -> text) (output_path : path -> path)
  (files : list (FileEntry path)) (st : RunState path) :
  main_loop decode_strict decode_replace output_path false false files st
  = st.
Proof.
  unfold main_loop. revert st.
  induction files as [|e files IH]; intros st; cbn [fold_left];
    [reflexivity|].
  rewrite <- (IH st) at 2. f_equal.
  unfold process_file.
  destruct (negb (is_file e)); [reflexivity|].
  destruct (existsb (String.eqb (suffix_lower e)) BINARY_SUFFIXES);
    [reflexivity|].
  destruct (read_bytes e) as [data|]; [|reflexivity].
  destruct (has_nul data); [reflexivity|].
  unfold redact_text.
  replace (text_eqb (decode decode_strict decode_replace data)
             (decode decode_strict decode_replace data)) with true;
    [reflexivity|].
  symmetry. now apply text_eqb_eq.
Qed.

(** ** The PAN candidate at a position is the longest one *)

(** The continuation behind the repetition of the PAN candidate pattern:
    the closing [\b], then the end of the match. *)
Lemma bt_Boundary (prev : option ascii) (t : text) (k : cont) :
  bt Boundary prev t k = if at_boundary prev t then k prev t else None.
Proof. reflexivity. Qed.

Lemma match_at_PAN_CANDIDATE_RE_unfold (ma : bool) (prev : option ascii)
  (s : text) :
  match_at PAN_CANDIDATE_RE ma prev s
  = if at_boundary prev s
    then rep_loop (bt (Class is_digit >> opt (Class is_sep)))
           (fun p t => bt Boundary p t (accept ma s)) 19 13 prev s
    else None.
Proof. reflexivity. Qed.

(** One round of the repeated body, by cases on the text: a digit, then
    its separator if there is one, and the digit alone if the match fails
    behind the separator. *)
Lemma bt_pan_body (prev : option ascii) (t : text) (k : cont) :
  bt (Class is_digit >> opt (Class is_sep)) prev t k
  = match t with
    | c :: t1 =>
        if is_digit c then
          match t1 with
          | c2 :: t2 =>
              if is_sep c2 then
                match k (Some c2) t2 with
                | Some n => Some n
                | None => k (Some c) t1
                end
              else k (Some c) t1
          | [] => k (Some c) t1
          end
        else None
    | [] => None
    end.
Proof.
  destruct t as [|c [|c2 t2]]; cbn [bt opt rep_loop Nat.eqb pred];
    try reflexivity.
  destruct (is_digit c); [|reflexivity]. now destruct (is_sep c2).
Qed.

Lemma den_pan_body_cases (prev : option ascii) (t : text) (b : cfg) :
  den (Class is_digit >> opt (Class is_sep)) (prev, t) b ->
  exists c t1,
    t = c :: t1 /\ is_digit c = true
    /\ (b = (Some c, t1)
        \/ exists c2 t2, t1 = c2 :: t2 /\ is_sep c2 = true
                         /\ b = (Some c2, t2)).
Proof.
  intros (mid & (c & E & Hc & L) & (n & Hn & Hp)).
  destruct mid as [pm tm]. cbn [fst snd] in *. subst t pm.
  exists c, tm. split; [reflexivity|]. split; [exact Hc|].
  destruct n as [|[|n]]; [| |lia]; cbn [power] in Hp.
  - left. now subst b.
  - right. destruct Hp as (mid2 & (c2 & E2 & Hc2 & L2) & <-).
    destruct mid2 as [p2 t2]. cbn [fst snd] in *. subst tm p2.
    now exists c2, t2.
Qed.

(** What the loop returns is a length reached from where it stands. *)
Lemma rep_loop_pan_reach (s : text) (ma : bool)
  (budget need : nat) (prev : option ascii) (t : text) (n : nat) :
  rep_loop (bt (Class is_digit >> opt (Class is_sep)))
    (fun p u => bt Boundary p u (accept ma s)) budget need prev t = Some n ->
  length s - length t <= n.
Proof.
  intros H.
  apply rep_loop_sound
    with (R := den (Class is_digit >> opt (Class is_sep))) in H;
    [|apply bt_sound].
  destruct H as (j & p' & t' & _ & Hp & Hk).
  apply power_consumes in Hp; [|apply den_consumes].
  destruct Hp as (m & E & _). cbn [fst snd] in E.
  rewrite bt_Boundary in Hk. destruct (at_boundary p' t'); [|discriminate].
  unfold accept in Hk.
  destruct (ma && (length s - length t' =? 0)); [discriminate|].
  injection Hk as <-. subst t. rewrite length_app. lia.
Qed.

(** Greedy repetition with backtracking ends at the farthest place where
    the match can end. *)
Lemma rep_loop_pan_longest (s : text) (ma : bool) (budget : nat) :
  forall need prev t n,
    rep_loop (bt (Class is_digit >> opt (Class is_sep)))
      (fun p u => bt Boundary p u (accept ma s)) budget need prev t
    = Some n ->
    forall j p' t' n',
      need <= j <= budget ->
      power (den (Class is_digit >> opt (Class is_sep))) j (prev, t)
        (p', t') ->
      bt Boundary p' t' (accept ma s) = Some n' ->
      n' <= n.
Proof.
  set (body := (Class is_digit >> opt (Class is_sep))%regex).
  set (K := fun p u => bt Boundary p u (accept ma s)).
  assert (HK : forall p u n, K p u = Some n -> n = length s - length u).
  { intros p u n H. unfold K in H. rewrite bt_Boundary in H.
    destruct (at_boundary p u); [|discriminate]. unfold accept in H.
    destruct (ma && (length s - length u =? 0)); [discriminate|].
    now injection H. }
  induction budget as [|budget IH]; intros need prev t n H j p' t' n' Hj Hp Hk.
  - assert (j = 0) by lia. subst j. cbn [power] in Hp.
    injection Hp as <- <-. cbn [rep_loop] in H.
    destruct (need =? 0); [|discriminate].
    apply HK in H. apply HK in Hk. lia.
  - cbn [rep_loop] in H.
    set (k' := rep_loop (bt body) K budget (pred need)) in *.
    assert (Hcomplete : forall q u, 0 < j ->
              power (den body) (pred j) (q, u) (p', t') ->
              k' q u <> None).
    { intros q u Hj0 Hq. unfold k'.
      apply rep_loop_complete
        with (R := den body) (n := pred j) (prev' := p') (s' := t');
        [intros; eapply bt_complete; eassumption|lia|exact Hq|].
      unfold K. cbv beta. rewrite Hk. discriminate. }
    assert (Hrec : forall q u r, 0 < j ->
              power (den body) (pred j) (q, u) (p', t') ->
              k' q u = Some r -> n' <= r).
    { intros q u r Hj0 Hq Hr.
      apply (IH (pred need) q u r Hr (pred j) p' t' n'); [lia|exact Hq|].
      exact Hk. }
    destruct j as [|j].
    + (* the alternative stops here *)
      cbn [power] in Hp. injection Hp as <- <-.
      apply HK in Hk. subst n'.
      destruct (bt body prev t k') as [r|] eqn:E.
      * injection H as <-. unfold body in E. rewrite bt_pan_body in E.
        destruct t as [|c t1]; [discriminate|].
        destruct (is_digit c); [|discriminate].
        assert (Hreach : forall q u x, k' q u = Some x ->
                  length u <= length t1 ->
                  length s - length (c :: t1) <= x).
        { intros q u x Hx Hu. apply rep_loop_pan_reach in Hx.
          cbn [length]. lia. }
        destruct t1 as [|c2 t2]; [now apply Hreach in E|].
        destruct (is_sep c2); [|now apply Hreach in E].
        destruct (k' (Some c2) t2) as [r'|] eqn:E2.
        -- injection E as <-. apply Hreach in E2; [exact E2|].
           cbn [length]. lia.
        -- now apply Hreach in E.
      * destruct (need =? 0); [|discriminate]. apply HK in H. lia.
    + (* the alternative goes through one more round *)
      cbn [power] in Hp. destruct Hp as (mid & Hb & Hp).
      apply den_pan_body_cases in Hb.
      destruct Hb as (c & t1 & -> & Hc & Hmid).
      unfold body in H. rewrite bt_pan_body, Hc in H. fold body in H.
      cbn [pred] in Hcomplete, Hrec.
      destruct Hmid as [->|(c2 & t2 & -> & Hc2 & ->)].
      * (* the digit alone *)
        destruct t1 as [|c2 t2].
        -- destruct (k' (Some c) []) as [r|] eqn:E.
           ++ injection H as <-. apply (Hrec _ _ _ ltac:(lia) Hp E).
           ++ exfalso. exact (Hcomplete _ _ ltac:(lia) Hp E).
        -- destruct (is_sep c2) eqn:Hc2.
           ++ destruct (k' (Some c2) t2) as [r|] eqn:E2.
              ** injection H as <-.
                 (* behind a separator the alternative cannot go on *)
                 destruct j as [|j].
                 --- cbn [power] in Hp. injection Hp as <- <-.
                     apply HK in Hk. subst n'.
                     unfold k' in E2. apply rep_loop_pan_reach in E2.
                     cbn [length]. lia.
                 --- cbn [power] in Hp. destruct Hp as (mid2 & Hb2 & _).
                     apply den_pan_body_cases in Hb2.
                     destruct Hb2 as (c3 & t3 & E3 & Hc3 & _).
                     injection E3 as <- <-.
                     rewrite (sep_not_digit _ Hc2) in Hc3. discriminate.
              ** destruct (k' (Some c) (c2 :: t2)) as [r|] eqn:E.
                 --- injection H as <-. apply (Hrec _ _ _ ltac:(lia) Hp E).
                 --- exfalso. exact (Hcomplete _ _ ltac:(lia) Hp E).
           ++ destruct (k' (Some c) (c2 :: t2)) as [r|] eqn:E.
              ** injection H as <-. apply (Hrec _ _ _ ltac:(lia) Hp E).
              ** exfalso. exact (Hcomplete _ _ ltac:(lia) Hp E).
      * (* the digit and its separator *)
        rewrite Hc2 in H.
        destruct (k' (Some c2) t2) as [r|] eqn:E.
        -- injection H as <-. apply (Hrec _ _ _ ltac:(lia) Hp E).
        -- exfalso. exact (Hcomplete _ _ ltac:(lia) Hp E).
Qed.

Lemma power_pan_body_blocks (blocks : list text) (rest : text) :
  Forall pan_block blocks ->
  forall prev,
    power (den (Class is_digit >> opt (Class is_sep))) (length blocks)
      (prev, concat blocks ++ rest) (last_char prev (concat blocks), rest).
Proof.
  induction 1 as [|b blocks Hb _ IH]; intros prev; cbn [length power concat].
  - reflexivity.
  - destruct Hb as (d & g & -> & Hd & Hg).
    exists (last_char prev (d :: g), concat blocks ++ rest).
    rewrite last_char_app. split; [|apply IH].
    rewrite <- app_assoc. cbn [app].
    exists (Some d, g ++ concat blocks ++ rest). split.
    + exists d. auto.
    + rewrite last_char_cons.
      destruct Hg as [->|(c & -> & Hc)].
      * exists 0. split; [lia|reflexivity].
      * exists 1. split; [lia|]. cbn [power app].
        exists (Some c, concat blocks ++ rest). split; [|reflexivity].
        exists c. auto.
Qed.

Lemma match_at_PAN_longest (prev : option ascii) (s m s' : text) (n : nat) :
  match_at PAN_CANDIDATE_RE false prev s = Some n ->
  s = m ++ s' -> pan_shaped m ->
  at_boundary (last_char prev m) s' = true ->
  length m <= n.
Proof.
  intros H -> (blocks & -> & Hb & Hlen) Hbd.
  rewrite match_at_PAN_CANDIDATE_RE_unfold in H.
  destruct (at_boundary prev (concat blocks ++ s')); [|discriminate].
  apply (rep_loop_pan_longest _ _ _ _ _ _ _ H (length blocks)
           (last_char prev (concat blocks)) s' (length (concat blocks)));
    [exact Hlen|now apply power_pan_body_blocks|].
  rewrite bt_Boundary, Hbd. unfold accept. cbn [andb].
  f_equal. rewrite length_app. lia.
Qed.

(** X9: The candidate the PAN pattern yields at a position is the longest
    one there: no span of 13 to 19 digits with single separators that
    starts at the same place and ends at a word boundary is longer. *)
Theorem pan_candidate_is_longest (prev : option ascii) (s m s' : text)
  (n : nat) :
  match_at PAN_CANDIDATE_RE false prev s = Some n ->
  s = m ++ s' ->
  pan_shaped m ->
  at_boundary (last_char prev m) s' = true ->
  length m <= n.
Proof. apply match_at_PAN_longest. Qed.

Lemma pan_shaped_all_digits (m : text) :
  all_digits m -> 13 <= length m <= 19 -> pan_shaped m.
Proof.
  intros Hm Hlen. exists (map (fun d => [d]) m). split; [|split].
  - clear. induction m as [|d m IH]; cbn [map concat app]; congruence.
  - clear Hlen. induction Hm as [|d m Hd _ IH]; cbn [map]; constructor;
      [|exact IH].
    exists d, []. repeat split; auto. now left.
  - now rewrite length_map.
Qed.

Lemma pan_candidate_is_longest_witness :
  match_at PAN_CANDIDATE_RE false None (lit "4111111111111111 1") = Some 18
  /\ lit "4111111111111111 1" = lit "4111111111111111" ++ lit " 1"
  /\ pan_shaped (lit "4111111111111111")
  /\ at_boundary (last_char None (lit "4111111111111111")) (lit " 1") = true
  /\ length (lit "4111111111111111") <= 18.
Proof.
  assert (Hm : pan_shaped (lit "4111111111111111")).
  { apply pan_shaped_all_digits; [|vm_compute; lia].
    now apply all_digits_forallb. }
  split; [reflexivity|]. split; [reflexivity|]. split; [exact Hm|].
  split; [reflexivity|].
  apply (pan_candidate_is_longest None (lit "4111111111111111 1")
           (lit "4111111111111111") (lit " 1") 18
           eq_refl eq_refl Hm eq_refl).
Defined.

(** ** A Luhn-valid span that stands clear of its neighbours is redacted *)

Lemma pan_blocks_chars (blocks : list text) :
  Forall pan_block blocks ->
  Forall (fun c => is_digit c = true \/ is_sep c = true) (concat blocks).
Proof.
  induction 1 as [|b blocks (d & g & -> & Hd & Hg) _ IH]; cbn [concat app].
  - constructor.
  - constructor; [now left|]. apply Forall_app. split; [|exact IH].
    destruct Hg as [->|(c & -> & Hc)]; [constructor|].
    constructor; [now right|constructor].
Qed.

Lemma pan_shaped_chars (m : text) :
  pan_shaped m ->
  Forall (fun c => is_digit c = true \/ is_sep c = true) m.
Proof. intros (blocks & -> & Hb & _). now apply pan_blocks_chars. Qed.

(** In a candidate, a separator stands behind a digit. *)
Lemma pan_blocks_sep_prev (blocks : list text) :
  Forall pan_block blocks ->
  forall a c b,
    concat blocks = a ++ c :: b -> is_sep c = true ->
    exists a' d, a = a' ++ [d] /\ is_digit d = true.
Proof.
  induction 1 as [|blk blocks (d & g & -> & Hd & Hg) Hrest IH];
    intros a c b E Hc; cbn [concat app] in E.
  - destruct a; discriminate.
  - destruct a as [|x a].
    + cbn [app] in E. injection E as <- _.
      rewrite (digit_not_sep _ Hd) in Hc. discriminate.
    + cbn [app] in E. injection E as <- E.
      destruct Hg as [->|(s0 & -> & Hs0)]; cbn [app] in E.
      * destruct a as [|y a].
        -- cbn [app] in E. destruct blocks as [|b0 blocks];
             [discriminate|].
           inversion Hrest as [|? ? (d0 & g0 & -> & Hd0 & _) _]; subst.
           cbn [concat app] in E. injection E as <- _.
           rewrite (digit_not_sep _ Hd0) in Hc. discriminate.
        -- destruct (IH (y :: a) c b E Hc) as (a' & d' & Ea & Hd').
           exists (d :: a'), d'. rewrite Ea. auto.
      * destruct a as [|y a].
        -- exists [], d. auto.
        -- cbn [app] in E. injection E as <- E.
           destruct a as [|z a].
           ++ cbn [app] in E. destruct blocks as [|b0 blocks];
                [discriminate|].
              inversion Hrest as [|? ? (d0 & g0 & -> & Hd0 & _) _]; subst.
              cbn [concat app] in E. injection E as <- _.
              rewrite (digit_not_sep _ Hd0) in Hc. discriminate.
           ++ destruct (IH (z :: a) c b E Hc) as (a' & d' & Ea & Hd').
              exists (d :: s0 :: a'), d'. rewrite Ea. auto.
Qed.

Lemma pan_shaped_sep_prev (m a b : text) (c : ascii) :
  pan_shaped m -> m = a ++ c :: b -> is_sep c = true ->
  exists a' d, a = a' ++ [d] /\ is_digit d = true.
Proof.
  intros (blocks & -> & Hb & _) E Hc.
  now apply (pan_blocks_sep_prev blocks Hb a c b).
Qed.

Lemma nonword_pan_char_is_sep (c : ascii) :
  is_digit c = true \/ is_sep c = true -> is_word c = false ->
  is_sep c = true.
Proof.
  intros [Hd|Hs] Hw; [|exact Hs].
  rewrite (digit_is_word _ Hd) in Hw. discriminate.
Qed.

(** No candidate that starts earlier reaches across a clear end of the
    text before. *)
Lemma PAN_stops_at_clear_end (prev : option ascii) (p1 p2 rest : text)
  (n : nat) :
  clear_before (p1 ++ p2) = true -> p2 <> [] ->
  match_at PAN_CANDIDATE_RE false prev (p2 ++ rest) = Some n ->
  n <= length p2.
Proof.
  intros Hclear Hp2 H.
  apply match_at_PAN_CANDIDATE_RE in H.
  destruct H as (mm & s' & E & Lm & Hmm & _ & _).
  destruct (Nat.le_gt_cases n (length p2)) as [|Hgt]; [assumption|exfalso].
  symmetry in E. apply straddle_split in E; [|lia].
  destruct E as (x & -> & _ & Hx).
  destruct p2 as [|c p2 _] using rev_ind; [contradiction|].
  unfold clear_before in Hclear.
  rewrite app_assoc, rev_app_distr in Hclear. cbn [rev app] in Hclear.
  apply andb_true_iff in Hclear. destruct Hclear as [Hw Hsep].
  apply negb_true_iff in Hw.
  pose proof (pan_shaped_chars _ Hmm) as Hch.
  rewrite <- app_assoc in Hch. apply Forall_app in Hch.
  destruct Hch as [_ Hch]. inversion Hch as [|? ? Hc _]; subst.
  pose proof (nonword_pan_char_is_sep c Hc Hw) as Hs.
  rewrite Hs in Hsep. cbn [negb orb] in Hsep.
  rewrite <- app_assoc in Hmm. cbn [app] in Hmm.
  destruct (pan_shaped_sep_prev _ p2 x c Hmm eq_refl Hs)
    as (a' & d & -> & Hd).
  rewrite app_assoc, rev_app_distr in Hsep. cbn [rev app] in Hsep.
  rewrite Hd in Hsep. discriminate.
Qed.

(** At a clear start, a candidate that ends in a digit and has a clear
    text behind it is matched whole. *)
Lemma match_at_PAN_clear (prev : option ascii) (m post : text) :
  pan_shaped m -> ends_with_digit m = true ->
  match prev with Some c => is_word c = false | None => True end ->
  clear_after post = true ->
  match_at PAN_CANDIDATE_RE false prev (m ++ post) = Some (length m).
Proof.
  intros Hm Hend Hprev Hpost.
  destruct (pan_shaped_first m Hm) as (d0 & m0 & Em & Hd0).
  assert (Hlast : exists dl, last_char prev m = Some dl
                             /\ is_digit dl = true).
  { unfold ends_with_digit in Hend. unfold last_char.
    destruct (rev m) as [|dl ?]; [discriminate|]. now exists dl. }
  destruct Hlast as (dl & Hl & Hdl).
  assert (Hpost' : match post with
                   | [] => True
                   | c :: rest =>
                       is_word c = false
                       /\ (is_sep c = true ->
                           match rest with
                           | [] => True
                           | x :: _ => is_word x = false
                           end)
                   end).
  { unfold clear_after in Hpost. destruct post as [|c rest]; [exact I|].
    apply andb_true_iff in Hpost. destruct Hpost as [Hw Hs].
    apply negb_true_iff in Hw. split; [exact Hw|]. intros Hc.
    rewrite Hc in Hs. cbn [negb orb] in Hs.
    destruct rest as [|x rest]; [exact I|]. now apply negb_true_iff. }
  assert (Hb1 : at_boundary prev (m ++ post) = true).
  { rewrite Em. unfold at_boundary. cbn [app].
    rewrite (digit_is_word _ Hd0).
    destruct prev as [c|]; [now rewrite Hprev|reflexivity]. }
  assert (Hb2 : at_boundary (last_char prev m) post = true).
  { rewrite Hl. unfold at_boundary. rewrite (digit_is_word _ Hdl).
    destruct post as [|c rest]; [reflexivity|].
    destruct Hpost' as [-> _]. reflexivity. }
  destruct (match_at PAN_CANDIDATE_RE false prev (m ++ post)) as [n|] eqn:E.
  - f_equal. apply Nat.le_antisymm.
    + (* the match does not go beyond [m] *)
      pose proof E as E'. apply match_at_PAN_CANDIDATE_RE in E'.
      destruct E' as (mm & s' & Es & Lm & Hmm & _ & Hbm).
      destruct (Nat.le_gt_cases n (length m)) as [|Hgt]; [assumption|].
      exfalso. symmetry in Es. apply straddle_split in Es; [|lia].
      destruct Es as (x & -> & Ep & Hx).
      destruct x as [|c x]; [contradiction|].
      rewrite Ep in Hpost'. cbn [app] in Hpost'.
      destruct Hpost' as [Hcw Hnext].
      pose proof (pan_shaped_chars _ Hmm) as Hch.
      apply Forall_app in Hch. destruct Hch as [_ Hch].
      apply Forall_cons_iff in Hch. destruct Hch as [Hc Hch'].
      pose proof (nonword_pan_char_is_sep c Hc Hcw) as Hs.
      specialize (Hnext Hs).
      destruct x as [|c3 x].
      * (* the separator would end the match, with no boundary behind *)
        rewrite last_char_app in Hbm. cbn [last_char rev app] in Hbm.
        unfold at_boundary in Hbm. rewrite Hcw in Hbm.
        cbn [app] in Hnext.
        destruct s' as [|x0 s']; [discriminate|].
        rewrite Hnext in Hbm. discriminate.
      * (* behind the separator the match would need a digit *)
        cbn [app] in Hnext.
        apply Forall_cons_iff in Hch'. destruct Hch' as [Hc3 _].
        assert (Hs3 : is_sep c3 = true)
          by now apply nonword_pan_char_is_sep.
        destruct (pan_shaped_sep_prev _ (m ++ [c]) x c3 Hmm
                    ltac:(now rewrite <- app_assoc) Hs3)
          as (a' & d & Ea & Hd).
        apply app_inj_tail in Ea. destruct Ea as [_ <-].
        rewrite (sep_not_digit _ Hs) in Hd. discriminate.
    + now apply (match_at_PAN_longest prev (m ++ post) m post n E).
  - exfalso. revert E. unfold match_at.
    apply bt_complete with (prev' := last_char prev m) (s' := post).
    + destruct Hm as (blocks & -> & Hb & Hlen).
      unfold PAN_CANDIDATE_RE.
      exists (prev, concat blocks ++ post). split; [now split|].
      exists (last_char prev (concat blocks), post). split.
      * exists (length blocks). split; [exact Hlen|].
        now apply power_pan_body_blocks.
      * now split.
    + unfold accept. discriminate.
Qed.

Lemma clear_before_last (pre : text) :
  clear_before pre = true ->
  match last_char None pre with
  | Some c => is_word c = false
  | None => True
  end.
Proof.
  unfold clear_before, last_char. destruct (rev pre) as [|c before];
    [trivial|].
  intros H. apply andb_true_iff in H. destruct H as [H _].
  now apply negb_true_iff.
Qed.

Lemma finditer_PAN_finds_clear (pre m post : text) :
  pan_shaped m -> ends_with_digit m = true ->
  clear_before pre = true -> clear_after post = true ->
  exists ps1 ps2,
    finditer PAN_CANDIDATE_RE (pre ++ m ++ post) = ps1 ++ Hit m :: ps2
    /\ source ps1 = pre /\ source ps2 = post.
Proof.
  intros Hm Hend Hpre Hpost. unfold finditer.
  destruct (scan_cut PAN_CANDIDATE_RE (m ++ post)
              never_empty_PAN_CANDIDATE_RE pre 0 None)
    as (ps1 & E1 & S1); [lia| |].
  { intros p1 p2 n -> Hp2.
    now apply PAN_stops_at_clear_end with (p1 := p1). }
  exists ps1,
    (scan PAN_CANDIDATE_RE 0 (last_char (last_char None pre) m) post).
  rewrite E1. split; [|split].
  - f_equal. apply scan_hit.
    + destruct (pan_shaped_first m Hm) as (? & ? & -> & _). discriminate.
    + apply match_at_PAN_clear; auto. now apply clear_before_last.
  - exact S1.
  - apply source_scan. lia.
Qed.

(** X10: A span of 13 to 19 digits with single separators that ends in a
    digit, passes the Luhn test and stands clear of the text around it is
    always redacted, as one candidate, wherever it stands; the rest of
    the text is redacted as it would be around it. *)
Theorem redact_pans_clear_span (pre m post : text) :
  pan_shaped m ->
  ends_with_digit m = true ->
  pan_accepts m = true ->
  clear_before pre = true ->
  clear_after post = true ->
  exists ps1 ps2,
    source ps1 = pre /\ source ps2 = post
    /\ finditer PAN_CANDIDATE_RE (pre ++ m ++ post) = ps1 ++ Hit m :: ps2
    /\ redact_pans (pre ++ m ++ post)
       = (render (fun c => if pan_accepts c then REDACTED_PAN else c) ps1
          ++ REDACTED_PAN
          ++ render (fun c => if pan_accepts c then REDACTED_PAN else c) ps2,
          length (filter pan_accepts (hits ps1)) + 1
          + length (filter pan_accepts (hits ps2))).
Proof.
  intros Hm Hend Hacc Hpre Hpost.
  destruct (finditer_PAN_finds_clear pre m post Hm Hend Hpre Hpost)
    as (ps1 & ps2 & E & S1 & S2).
  exists ps1, ps2. split; [exact S1|]. split; [exact S2|].
  split; [exact E|].
  rewrite redact_pans_render, E, render_app, hits_app, filter_app,
    length_app.
  cbn [render hits filter]. rewrite Hacc. cbn [length]. f_equal. lia.
Qed.

Lemma redact_pans_clear_span_witness :
  pan_shaped (lit "4111111111111111")
  /\ ends_with_digit (lit "4111111111111111") = true
  /\ pan_accepts (lit "4111111111111111") = true
  /\ clear_before (lit "ssn 123-45-6789, card ") = true
  /\ clear_after (lit ".") = true
  /\ exists ps1 ps2,
       source ps1 = lit "ssn 123-45-6789, card " /\ source ps2 = lit "."
       /\ finditer PAN_CANDIDATE_RE
            (lit "ssn 123-45-6789, card " ++ lit "4111111111111111"
             ++ lit ".")
          = ps1 ++ Hit (lit "4111111111111111") :: ps2
       /\ redact_pans
            (lit "ssn 123-45-6789, card " ++ lit "4111111111111111"
             ++ lit ".")
          = (render (fun c => if pan_accepts c then REDACTED_PAN else c) ps1
             ++ REDACTED_PAN
             ++ render (fun c => if pan_accepts c then REDACTED_PAN else c)
                  ps2,
             length (filter pan_accepts (hits ps1)) + 1
             + length (filter pan_accepts (hits ps2))).
Proof.
  assert (Hm : pan_shaped (lit "4111111111111111")).
  { apply pan_shaped_all_digits; [|vm_compute; lia].
    now apply all_digits_forallb. }
  split; [exact Hm|]. split; [reflexivity|]. split; [reflexivity|].
  split; [reflexivity|]. split; [reflexivity|].
  apply (redact_pans_clear_span (lit "ssn 123-45-6789, card ")
           (lit "4111111111111111") (lit ".") Hm
           eq_refl eq_refl eq_refl eq_refl).
Defined.

(** ** What a replacement pass leaves for the SSN pattern *)

Lemma at_boundary_word_before (prev : option ascii) (s : text) :
  at_boundary prev s
  = xorb (match s with c :: _ => is_word c | [] => false end)
      (word_before prev).
Proof. reflexivity. Qed.

Lemma at_boundary_same_head (prev prev' : option ascii) (c : ascii)
  (s s' : text) :
  word_before prev = word_before prev' ->
  at_boundary prev (c :: s) = at_boundary prev' (c :: s').
Proof. intros H. now rewrite !at_boundary_word_before, H. Qed.

Lemma scan_nil (r : regex) (prev : option ascii) :
  never_empty r -> scan r 0 prev [] = [].
Proof.
  intros Hne. cbn [scan]. unfold attempts.
  destruct (match_at r false prev []) as [[|n]|] eqn:E; [| |reflexivity].
  - exfalso. exact (Hne _ _ E).
  - apply match_at_length in E. cbn [length] in E. lia.
Qed.

Lemma scan_miss (r : regex) (prev : option ascii) (c : ascii) (s : text) :
  match_at r false prev (c :: s) = None ->
  scan r 0 prev (c :: s) = Keep c :: scan r 0 (Some c) s.
Proof. intros E. cbn [scan]. now rewrite (attempts_miss _ _ _ E). Qed.

Lemma scan_found (r : regex) (prev : option ascii) (s : text) (n : nat) :
  0 < n ->
  match_at r false prev s = Some n ->
  scan r 0 prev s
  = Hit (firstn n s)
    :: scan r 0 (last_char prev (firstn n s)) (skipn n s).
Proof.
  intros Hn E. pose proof (match_at_length _ _ _ _ _ E) as Hlen.
  rewrite <- (firstn_skipn n s) at 1. apply scan_hit.
  - intros E0. apply (f_equal (@length ascii)) in E0.
    rewrite length_firstn in E0. cbn [length] in E0. lia.
  - rewrite firstn_skipn, length_firstn. now rewrite Nat.min_l by exact Hlen.
Qed.

Lemma no_match_cons (r : regex) (prev : option ascii) (c : ascii)
  (t : text) :
  match_at r false prev (c :: t) = None ->
  no_match r (Some c) t ->
  no_match r prev (c :: t).
Proof.
  intros Hhead Htail a b E. destruct a as [|x a].
  - cbn [app] in E. subst b. exact Hhead.
  - cbn [app] in E. injection E as <- E. rewrite last_char_cons.
    now apply Htail.
Qed.

Lemma no_match_skip (r : regex) (prev : option ascii) (a t : text) :
  no_match r prev (a ++ t) -> no_match r (last_char prev a) t.
Proof.
  intros H a' b E. rewrite <- last_char_app. apply H.
  now rewrite E, app_assoc.
Qed.

Lemma no_match_app (r : regex) (prev : option ascii) (u t : text) :
  (forall a b, u = a ++ b -> b <> [] ->
     match_at r false (last_char prev a) (b ++ t) = None) ->
  no_match r (last_char prev u) t ->
  no_match r prev (u ++ t).
Proof.
  revert prev. induction u as [|c u IH]; intros prev Hu Ht; [exact Ht|].
  cbn [app]. apply no_match_cons.
  - apply (Hu [] (c :: u)); [reflexivity|discriminate].
  - apply IH.
    + intros a b E Hb. rewrite <- (last_char_cons prev).
      apply Hu; [cbn [app]; congruence|exact Hb].
    + now rewrite <- (last_char_cons prev).
Qed.

(** A text where the pattern has no match is scanned into its
    characters. *)
Lemma finditer_of_no_match (r : regex) (t : text) :
  no_match r None t -> finditer r t = map Keep t.
Proof.
  intros H. unfold finditer. rewrite <- (app_nil_r t) at 1.
  rewrite scan_keep.
  - cbn [scan]. unfold attempts.
    rewrite (H t []) by now rewrite app_nil_r.
    cbn [fst map]. now rewrite app_nil_r.
  - intros p1 p2 -> _. rewrite app_nil_r. now apply H.
Qed.

(** The SSN pattern looks at what stands before it only for the word
    boundary. *)
Lemma match_at_SSN_RE_word_before (prev prev' : option ascii) (s : text) :
  word_before prev = word_before prev' ->
  match_at SSN_RE false prev s = match_at SSN_RE false prev' s.
Proof.
  assert (Hone : forall p p' n,
            word_before p = word_before p' ->
            match_at SSN_RE false p s = Some n ->
            match_at SSN_RE false p' s = Some n).
  { intros p p' n Hw H. apply match_at_SSN_RE in H.
    destruct H as (m & s' & -> & <- & Hm & Hb & Hb').
    destruct (ssn_shaped_first m Hm) as (d & m' & -> & _).
    apply match_at_SSN_RE_shaped; [exact Hm| |].
    - cbn [app] in Hb |- *. now rewrite <- (at_boundary_same_head p p' d
                                              (m' ++ s') (m' ++ s') Hw).
    - now rewrite last_char_cons in Hb' |- *. }
  intros Hw.
  destruct (match_at SSN_RE false prev s) as [n|] eqn:E.
  - symmetry. now apply (Hone prev prev').
  - destruct (match_at SSN_RE false prev' s) as [n|] eqn:E'; [|reflexivity].
    apply (Hone prev' prev) in E'; [congruence|now symmetry].
Qed.

Lemma last_char_nonempty (prev prev' : option ascii) (m : text) :
  m <> [] -> last_char prev m = last_char prev' m.
Proof.
  intros H. destruct m as [|c m _] using rev_ind; [contradiction|].
  now rewrite !last_char_snoc.
Qed.

Lemma ssn_shaped_chars (m : text) :
  ssn_shaped m -> Forall digit_or_sep m.
Proof.
  assert (Hd : forall g, all_digits g -> Forall digit_or_sep g).
  { intros g Hg. eapply Forall_impl; [|exact Hg]. intros c Hc. now left. }
  assert (Hs : forall g, opt_sep g -> Forall digit_or_sep g).
  { intros g [->|(c & -> & Hc)]; [constructor|].
    constructor; [now right|constructor]. }
  intros (g1 & s1 & g2 & s2 & g3 & -> & F1 & _ & O1 & F2 & _ & O2 & F3 & _).
  repeat (apply Forall_app; split); auto.
Qed.

Section Residue.

(** A replacement pass: the pattern [r] of the pass, and its callback [f],
    which puts the token [tok] for a match or puts the match back.  [P]
    is what is known of the text the pass reads. *)
Variable r : regex.
Variable f : text -> text.
Variable tok : text.
Variable P : option ascii -> text -> Prop.

Hypothesis r_never_empty : never_empty r.
Hypothesis r_bounded :
  forall prev s n,
    match_at r false prev s = Some n ->
    at_boundary prev s = true
    /\ at_boundary (last_char prev (firstn n s)) (skipn n s) = true.
Hypothesis f_cases : forall m, f m = m \/ f m = tok.
Hypothesis tok_chars :
  Forall (fun c => is_digit c = false /\ is_sep c = false) tok.
Hypothesis tok_nonempty : tok <> [].
Hypothesis tok_last : word_before (last_char None tok) = false.
Hypothesis P_miss :
  forall prev s,
    P prev s -> match_at r false prev s = None ->
    match_at SSN_RE false prev s = None.
Hypothesis P_kept :
  forall prev s n a b,
    P prev s -> match_at r false prev s = Some n ->
    f (firstn n s) = firstn n s -> firstn n s = a ++ b -> b <> [] ->
    match_at SSN_RE false (last_char prev a) (b ++ skipn n s) = None.
Hypothesis P_skip :
  forall prev a s, P prev (a ++ s) -> P (last_char prev a) s.

Lemma residue_found (prev : option ascii) (s : text) (n : nat) :
  match_at r false prev s = Some n ->
  0 < n /\ n <= length s /\ firstn n s <> []
  /\ length (skipn n s) < length s
  /\ render f (scan r 0 prev s)
     = f (firstn n s)
       ++ render f (scan r 0 (last_char prev (firstn n s)) (skipn n s)).
Proof.
  intros E.
  assert (Hn : 0 < n).
  { destruct n; [|lia]. exfalso. exact (r_never_empty _ _ E). }
  pose proof (match_at_length _ _ _ _ _ E) as Hlen.
  split; [exact Hn|]. split; [exact Hlen|]. split; [|split].
  - intros E0. apply (f_equal (@length ascii)) in E0.
    rewrite length_firstn in E0. cbn [length] in E0. lia.
  - rewrite length_skipn. lia.
  - now rewrite (scan_found r prev s n Hn E).
Qed.

(** A run of digits and separators at the head of the output of the pass
    stood at the head of its input, and a word boundary behind the run in
    the output is one in the input. *)
Lemma residue_prefix (s : text) :
  forall prev run y,
    render f (scan r 0 prev s) = run ++ y ->
    Forall digit_or_sep run ->
    exists y0,
      s = run ++ y0
      /\ (at_boundary (last_char prev run) y = true ->
          at_boundary (last_char prev run) y0 = true).
Proof.
  remember (length s) as len eqn:Hlen. revert s Hlen.
  induction len as [len IH] using lt_wf_ind.
  intros s Hlen prev run y HT Hrun.
  destruct s as [|c s'].
  - rewrite scan_nil in HT by exact r_never_empty. cbn [render] in HT.
    symmetry in HT. apply app_eq_nil in HT. destruct HT as [-> ->].
    exists []. split; [reflexivity|auto].
  - destruct (match_at r false prev (c :: s')) as [n|] eqn:E.
    + destruct (residue_found _ _ _ E) as (Hn & Hle & HM & Hshort & HT').
      rewrite HT' in HT. clear HT'.
      assert (Es : c :: s' = firstn n (c :: s') ++ skipn n (c :: s'))
        by (symmetry; apply firstn_skipn).
      remember (firstn n (c :: s')) as M eqn:EqM.
      remember (skipn n (c :: s')) as rest eqn:Eqrest.
      destruct (f_cases M) as [HfM|HfM]; rewrite HfM in HT.
      * (* the match was put back *)
        apply app_eq_app in HT.
        destruct HT as (l & [[EM Ey]|[Er ET]]).
        -- (* the run ends inside the match *)
           destruct l as [|x l].
           ++ rewrite app_nil_r in EM. cbn [app] in Ey.
              destruct (IH (length rest) ltac:(lia) rest eq_refl
                          (last_char prev M) [] y (eq_sym Ey)
                          ltac:(constructor))
                as (y0 & E0 & Hbt).
              cbn [app] in E0. subst y0.
              exists rest. split; [now rewrite Es, EM|].
              rewrite last_char_nil in Hbt. now rewrite <- EM.
           ++ exists ((x :: l) ++ rest). split.
              ** now rewrite Es, EM, app_assoc.
              ** rewrite Ey. cbn [app].
                 rewrite !at_boundary_word_before. auto.
        -- (* the run goes on behind the match *)
           rewrite Er in Hrun. apply Forall_app in Hrun.
           destruct Hrun as [_ Hl].
           destruct (IH (length rest) ltac:(lia) rest eq_refl
                       (last_char prev M) l y ET Hl)
             as (y0 & E0 & Hbt).
           exists y0. split.
           ++ rewrite Es, E0, Er. now rewrite app_assoc.
           ++ now rewrite Er, last_char_app.
      * (* the match was replaced by the token *)
        destruct tok as [|t0 tok'] eqn:Etok; [contradiction|].
        destruct run as [|x run].
        -- exists (c :: s'). split; [reflexivity|].
           intros _. rewrite last_char_nil.
           now destruct (r_bounded _ _ _ E).
        -- cbn [app] in HT. injection HT as <- _.
           inversion tok_chars as [|? ? [Ht0 Ht0'] _]; subst.
           inversion Hrun as [|? ? [Hx|Hx] _]; subst; congruence.
    + rewrite (scan_miss r prev c s' E) in HT. cbn [render] in HT.
      destruct run as [|x run].
      * exists (c :: s'). split; [reflexivity|].
        cbn [app] in HT. rewrite <- HT.
        rewrite !at_boundary_word_before. auto.
      * cbn [app] in HT. injection HT as <- HT.
        apply Forall_cons_iff in Hrun. destruct Hrun as [_ Hrun].
        destruct (IH (length s') ltac:(subst len; cbn [length]; lia)
                    s' eq_refl (Some c) run y HT Hrun)
          as (y0 & Ey & Hbt).
        exists y0. split; [cbn [app]; congruence|].
        now rewrite last_char_cons.
Qed.

(** A span of digits and separators in the output of the pass that starts
    in text the pass kept, with a word boundary behind it, is such a span
    of the input. *)
Lemma residue_span (pa : option ascii) (b rest S0 y : text) :
  b ++ render f (scan r 0 (last_char pa b) rest) = S0 ++ y ->
  Forall digit_or_sep S0 ->
  at_boundary (last_char pa S0) y = true ->
  exists y0,
    b ++ rest = S0 ++ y0 /\ at_boundary (last_char pa S0) y0 = true.
Proof.
  intros ES HS Hafter.
  apply app_eq_app in ES. destruct ES as (l & [[Eb Ey]|[E0 ET]]).
  - (* the span ends inside the kept text *)
    destruct l as [|x l].
    + rewrite app_nil_r in Eb. cbn [app] in Ey. subst y.
      destruct (residue_prefix rest (last_char pa b) []
                  (render f (scan r 0 (last_char pa b) rest))
                  eq_refl ltac:(constructor)) as (y0 & E0 & Hbt).
      cbn [app] in E0. subst y0. exists rest.
      rewrite last_char_nil in Hbt. subst b. split; [reflexivity|auto].
    + exists ((x :: l) ++ rest). split; [now rewrite Eb, app_assoc|].
      rewrite Ey in Hafter. cbn [app] in Hafter |- *.
      now rewrite at_boundary_word_before in Hafter |- *.
  - (* the span goes on behind the kept text *)
    assert (Hl : Forall digit_or_sep l).
    { rewrite E0 in HS. apply Forall_app in HS. tauto. }
    destruct (residue_prefix rest (last_char pa b) l y ET Hl)
      as (y0 & Er & Hbt).
    exists y0. split; [now rewrite Er, E0, app_assoc|].
    rewrite <- last_char_app, <- E0 in Hbt. auto.
Qed.

(** Where the SSN pattern fails in the input of the pass, at a place the
    pass kept, it fails in the output. *)
Lemma residue_transfer (pa pa' : option ascii) (b rest : text) :
  b <> [] ->
  word_before pa = word_before pa' \/ no_digit_ahead b ->
  match_at SSN_RE false pa (b ++ rest) = None ->
  match_at SSN_RE false pa'
    (b ++ render f (scan r 0 (last_char pa b) rest)) = None.
Proof.
  intros Hb Hinv Horig.
  destruct b as [|c b']; [contradiction|].
  destruct (is_digit c) eqn:Hc;
    [|now apply match_at_SSN_RE_needs_digit].
  destruct Hinv as [Hw|Hnd]; [|cbn in Hnd; congruence].
  set (T' := render f (scan r 0 (last_char pa (c :: b')) rest)).
  destruct (match_at SSN_RE false pa' ((c :: b') ++ T')) as [k|] eqn:E;
    [exfalso|reflexivity].
  apply match_at_SSN_RE in E.
  destruct E as (S0 & y & ES & _ & HS & Hbefore & Hafter).
  destruct (ssn_shaped_first S0 HS) as (d0 & S1 & ES0 & Hd0).
  assert (HS0 : S0 <> []) by (rewrite ES0; discriminate).
  destruct (ssn_shaped_last S0 pa HS) as (dl & Hlast & Hdl).
  rewrite (last_char_nonempty pa' pa S0 HS0), Hlast in Hafter.
  assert (Hy0 : exists y0, (c :: b') ++ rest = S0 ++ y0
                           /\ at_boundary (Some dl) y0 = true).
  { rewrite <- Hlast. apply (residue_span pa (c :: b') rest S0 y ES).
    - now apply ssn_shaped_chars.
    - now rewrite Hlast. }
  destruct Hy0 as (y0 & Eorig & Hafter0).
  rewrite Eorig in Horig.
  rewrite (match_at_SSN_RE_shaped pa S0 y0 HS) in Horig; [discriminate| |].
  - rewrite <- Eorig. cbn [app] in Hbefore |- *. rewrite <- Hbefore.
    now apply at_boundary_same_head.
  - now rewrite Hlast.
Qed.

(** The output of the pass holds no match of the SSN pattern, if the
    input held none at the places the pass kept. *)
Lemma residue_no_match (s : text) :
  forall prev prev',
    P prev s ->
    word_before prev = word_before prev' \/ no_digit_ahead s ->
    no_match SSN_RE prev' (render f (scan r 0 prev s)).
Proof.
  remember (length s) as len eqn:Hlen. revert s Hlen.
  induction len as [len IH] using lt_wf_ind.
  intros s Hlen prev prev' HP Hinv.
  destruct s as [|c s'].
  - rewrite scan_nil by exact r_never_empty. cbn [render].
    intros a b E. symmetry in E. apply app_eq_nil in E.
    destruct E as [-> ->]. now apply match_at_SSN_RE_needs_digit.
  - destruct (match_at r false prev (c :: s')) as [n|] eqn:E.
    + destruct (residue_found _ _ _ E) as (Hn & Hle & HM & Hshort & ->).
      assert (Es : c :: s' = firstn n (c :: s') ++ skipn n (c :: s'))
        by (symmetry; apply firstn_skipn).
      remember (firstn n (c :: s')) as M eqn:EqM.
      remember (skipn n (c :: s')) as rest eqn:Eqrest.
      assert (HPrest : P (last_char prev M) rest).
      { apply P_skip. now rewrite <- Es. }
      destruct (f_cases M) as [HfM|HfM]; rewrite HfM.
      * (* the match was put back *)
        apply no_match_app.
        -- intros a b EM Hb.
           rewrite EM, last_char_app.
           apply residue_transfer; [exact Hb| |].
           ++ destruct a as [|x a].
              ** cbn [app] in EM. subst b. rewrite !last_char_nil.
                 destruct Hinv as [Hw|Hnd]; [now left|right].
                 rewrite Es in Hnd. destruct M; [contradiction|exact Hnd].
              ** left. f_equal. apply last_char_nonempty. discriminate.
           ++ rewrite Eqrest. apply (P_kept prev (c :: s') n a b HP E);
                [now rewrite <- EqM|now rewrite <- EqM|exact Hb].
        -- apply (IH (length rest) ltac:(lia) rest eq_refl); [exact HPrest|].
           left. f_equal. now apply last_char_nonempty.
      * (* the match was replaced by the token *)
        apply no_match_app.
        -- intros a b Et Hb. apply match_at_SSN_RE_needs_digit.
           destruct b as [|x b]; [contradiction|]. cbn [app].
           rewrite Et in tok_chars. apply Forall_app in tok_chars.
           destruct tok_chars as [_ Hx]. inversion Hx as [|? ? [Hx0 _] _].
           exact Hx0.
        -- apply (IH (length rest) ltac:(lia) rest eq_refl); [exact HPrest|].
           destruct (r_bounded _ _ _ E) as [_ Hafter].
           rewrite <- EqM, <- Eqrest in Hafter.
           rewrite at_boundary_word_before in Hafter.
           destruct (word_before (last_char prev M)) eqn:Hw.
           ++ right. destruct rest as [|x rest']; [exact I|]. cbn.
              destruct (is_digit x) eqn:Hx; [|reflexivity].
              rewrite (digit_is_word _ Hx) in Hafter. discriminate.
           ++ left. rewrite (last_char_nonempty prev' None tok tok_nonempty).
              now rewrite tok_last.
    + rewrite (scan_miss r prev c s' E). cbn [render].
      apply no_match_cons.
      * apply (residue_transfer prev prev' [c] s'); [discriminate| |].
        -- destruct Hinv as [Hw|Hnd]; [now left|now right].
        -- now apply P_miss.
      * apply (IH (length s') ltac:(subst len; cbn [length]; lia) s' eq_refl).
        -- now apply (P_skip prev [c] s').
        -- now left.
Qed.

End Residue.

Lemma firstn_skipn_of_app (s m s' : text) (n : nat) :
  s = m ++ s' -> length m = n -> firstn n s = m /\ skipn n s = s'.
Proof.
  intros -> <-. split.
  - rewrite firstn_app, Nat.sub_diag, firstn_all. cbn [firstn].
    apply app_nil_r.
  - rewrite skipn_app, Nat.sub_diag, skipn_all. reflexivity.
Qed.

Lemma SSN_RE_bounded (prev : option ascii) (s : text) (n : nat) :
  match_at SSN_RE false prev s = Some n ->
  at_boundary prev s = true
  /\ at_boundary (last_char prev (firstn n s)) (skipn n s) = true.
Proof.
  intros H. apply match_at_SSN_RE in H.
  destruct H as (m & s' & E & L & _ & Hb & Hb').
  destruct (firstn_skipn_of_app s m s' n E L) as [-> ->]. auto.
Qed.

Lemma PAN_CANDIDATE_RE_bounded (prev : option ascii) (s : text) (n : nat) :
  match_at PAN_CANDIDATE_RE false prev s = Some n ->
  at_boundary prev s = true
  /\ at_boundary (last_char prev (firstn n s)) (skipn n s) = true.
Proof.
  intros H. apply match_at_PAN_CANDIDATE_RE in H.
  destruct H as (m & s' & E & L & _ & Hb & Hb').
  destruct (firstn_skipn_of_app s m s' n E L) as [-> ->]. auto.
Qed.

Lemma token_chars (tok : text) :
  forallb (fun c => negb (is_digit c) && negb (is_sep c)) tok = true ->
  Forall (fun c => is_digit c = false /\ is_sep c = false) tok.
Proof.
  intros H. apply Forall_forall. intros c Hc.
  rewrite forallb_forall in H. specialize (H c Hc).
  apply andb_true_iff in H. destruct H as [H1 H2].
  now rewrite negb_true_iff in H1, H2.
Qed.

(** The SSN pass leaves no match of the SSN pattern. *)
Lemma redact_ssns_no_match (s : text) :
  no_match SSN_RE None (fst (redact_ssns s)).
Proof.
  rewrite redact_ssns_render. cbn [fst]. unfold finditer.
  apply residue_no_match
    with (tok := REDACTED_SSN) (P := fun _ _ => True).
  - exact never_empty_SSN_RE.
  - exact SSN_RE_bounded.
  - intros m. now right.
  - now apply token_chars.
  - discriminate.
  - reflexivity.
  - intros prev t _ H. exact H.
  - intros prev t n a b _ H Hf. exfalso.
    apply match_at_SSN_RE in H. destruct H as (m & s' & E & L & Hm & _).
    destruct (firstn_skipn_of_app t m s' n E L) as [Ef _].
    rewrite Ef in Hf. destruct (ssn_shaped_first m Hm) as (d & m' & -> & Hd).
    injection Hf as <- _. discriminate.
  - trivial.
  - exact I.
  - now left.
Qed.

(** The PAN pass brings no match of the SSN pattern into a text that has
    none. *)
Lemma redact_pans_no_match (t : text) :
  no_match SSN_RE None t ->
  no_match SSN_RE None (fst (redact_pans t)).
Proof.
  intros Ht. rewrite redact_pans_render. cbn [fst]. unfold finditer.
  apply residue_no_match
    with (tok := REDACTED_PAN) (P := no_match SSN_RE).
  - exact never_empty_PAN_CANDIDATE_RE.
  - exact PAN_CANDIDATE_RE_bounded.
  - intros m. destruct (pan_accepts m); auto.
  - now apply token_chars.
  - discriminate.
  - reflexivity.
  - intros prev u Hu _. apply (Hu [] u). reflexivity.
  - intros prev u n a b Hu _ _ E _. apply Hu.
    rewrite app_assoc, <- E. symmetry. apply firstn_skipn.
  - intros prev a u. apply no_match_skip.
  - exact Ht.
  - now left.
Qed.

Lemma redact_text_ssn_enabled (s : text) (do_pan : bool) :
  fst (redact_text s true do_pan)
  = if do_pan then fst (redact_pans (fst (redact_ssns s)))
    else fst (redact_ssns s).
Proof.
  unfold redact_text. destruct (redact_ssns s) as [t1 c1]. cbn [fst].
  destruct do_pan; [|reflexivity]. now destruct (redact_pans t1).
Qed.

Lemma redact_text_no_ssn_match (s : text) (do_pan : bool) :
  no_match SSN_RE None (fst (redact_text s true do_pan)).
Proof.
  rewrite redact_text_ssn_enabled. destruct do_pan.
  - apply redact_pans_no_match, redact_ssns_no_match.
  - apply redact_ssns_no_match.
Qed.

(** X11: With SSN redaction enabled, the output of [redact_text] holds no span
    of the SSN shape between word boundaries, whether PAN redaction is
    enabled or not; redacting SSNs in it again changes nothing and counts
    nothing. *)
Theorem redact_text_leaves_no_ssn (s : text) (do_pan : bool) :
  let out := fst (redact_text s true do_pan) in
  finditer SSN_RE out = map Keep out
  /\ redact_ssns out = (out, 0)
  /\ forall pre m post,
       out = pre ++ m ++ post -> ssn_shaped m -> ~ word_bounded pre m post.
Proof.
  cbv zeta. pose proof (redact_text_no_ssn_match s do_pan) as Hno.
  set (out := fst (redact_text s true do_pan)) in *.
  assert (Hf : finditer SSN_RE out = map Keep out)
    by now apply finditer_of_no_match.
  split; [exact Hf|]. split.
  - rewrite redact_ssns_render, Hf.
    now rewrite render_map_Keep, hits_map_Keep.
  - intros pre m post E Hm Hb.
    destruct (finditer_SSN_RE_finds pre m post Hm Hb)
      as (ps1 & ps2 & Ef & _).
    rewrite <- E, Hf in Ef.
    apply (f_equal hits) in Ef.
    rewrite hits_map_Keep, hits_app in Ef. cbn [hits] in Ef.
    destruct (hits ps1); discriminate.
Qed.

(** ** A second pass of the PAN pattern *)

(** A span of the candidate shape between word boundaries yields a match
    at least as long. *)
Lemma match_at_PAN_complete (prev : option ascii) (m post : text) :
  pan_shaped m ->
  at_boundary prev (m ++ post) = true ->
  at_boundary (last_char prev m) post = true ->
  exists n,
    match_at PAN_CANDIDATE_RE false prev (m ++ post) = Some n
    /\ length m <= n.
Proof.
  intros Hm Hb1 Hb2.
  destruct (match_at PAN_CANDIDATE_RE false prev (m ++ post)) as [n|] eqn:E.
  - exists n. split; [reflexivity|].
    now apply (match_at_PAN_longest prev (m ++ post) m post n E).
  - exfalso. revert E. unfold match_at.
    apply bt_complete with (prev' := last_char prev m) (s' := post).
    + destruct Hm as (blocks & -> & Hb & Hlen).
      unfold PAN_CANDIDATE_RE.
      exists (prev, concat blocks ++ post). split; [now split|].
      exists (last_char prev (concat blocks), post). split.
      * exists (length blocks). split; [exact Hlen|].
        now apply power_pan_body_blocks.
      * now split.
    + unfold accept. discriminate.
Qed.

Lemma pan_put_cases (m : text) : pan_put m = m \/ pan_put m = REDACTED_PAN.
Proof. unfold pan_put. destruct (pan_accepts m); auto. Qed.

Lemma pan_span (pa : option ascii) (b rest S0 y : text) :
  b ++ render pan_put (scan PAN_CANDIDATE_RE 0 (last_char pa b) rest)
  = S0 ++ y ->
  Forall digit_or_sep S0 ->
  at_boundary (last_char pa S0) y = true ->
  exists y0,
    b ++ rest = S0 ++ y0 /\ at_boundary (last_char pa S0) y0 = true.
Proof.
  apply residue_span with (tok := REDACTED_PAN).
  - exact never_empty_PAN_CANDIDATE_RE.
  - exact PAN_CANDIDATE_RE_bounded.
  - exact pan_put_cases.
  - now apply token_chars.
  - discriminate.
  - reflexivity.
Qed.

(** A match of the pattern in the output of the pass, at a place the pass
    kept, is a candidate span of the input. *)
Lemma pan_output_candidate (pa pa' : option ascii) (b rest : text)
  (k : nat) :
  b <> [] ->
  word_before pa = word_before pa' ->
  match_at PAN_CANDIDATE_RE false pa'
    (b ++ render pan_put (scan PAN_CANDIDATE_RE 0 (last_char pa b) rest))
  = Some k ->
  exists S0 y0,
    b ++ rest = S0 ++ y0 /\ length S0 = k /\ pan_shaped S0
    /\ at_boundary pa (b ++ rest) = true
    /\ at_boundary (last_char pa S0) y0 = true.
Proof.
  intros Hb Hw E.
  apply match_at_PAN_CANDIDATE_RE in E.
  destruct E as (S0 & y & ES & L & HS & Hbefore & Hafter).
  destruct (pan_shaped_first S0 HS) as (d0 & S1 & ES0 & Hd0).
  assert (HS0 : S0 <> []) by (rewrite ES0; discriminate).
  rewrite (last_char_nonempty pa' pa S0 HS0) in Hafter.
  destruct (pan_span pa b rest S0 y ES (pan_shaped_chars S0 HS) Hafter)
    as (y0 & E0 & Hb0).
  exists S0, y0.
  split; [exact E0|]. split; [exact L|]. split; [exact HS|].
  split; [|exact Hb0].
  destruct b as [|c b']; [contradiction|]. cbn [app] in Hbefore |- *.
  rewrite <- Hbefore. now apply at_boundary_same_head.
Qed.

(** The output of the pass starts as its input does, unless the input
    starts with a candidate, which stands behind a non-word character. *)
Lemma pan_render_head (p : option ascii) (rest : text) :
  (forall q,
     at_boundary q (render pan_put (scan PAN_CANDIDATE_RE 0 p rest))
     = at_boundary q rest)
  \/ word_before p = false.
Proof.
  destruct rest as [|c s'].
  - left. intros q.
    now rewrite scan_nil by exact never_empty_PAN_CANDIDATE_RE.
  - destruct (match_at PAN_CANDIDATE_RE false p (c :: s')) as [n|] eqn:E.
    + right. destruct (PAN_CANDIDATE_RE_bounded _ _ _ E) as [Hb _].
      destruct (is_digit c) eqn:Hc.
      * rewrite at_boundary_word_before in Hb. cbv beta iota in Hb.
        rewrite (digit_is_word _ Hc) in Hb.
        destruct (word_before p); [discriminate|reflexivity].
      * rewrite match_at_PAN_CANDIDATE_RE_needs_digit in E by exact Hc.
        discriminate.
    + left. intros q. rewrite (scan_miss _ _ _ _ E). cbn [render].
      now rewrite !at_boundary_word_before.
Qed.

(** A candidate that ends with a separator is a candidate without it. *)
Lemma pan_shaped_drop_sep (m : text) (c : ascii) :
  pan_shaped (m ++ [c]) -> is_sep c = true ->
  pan_shaped m /\ exists m' d, m = m' ++ [d] /\ is_digit d = true.
Proof.
  intros (blocks & E & Hb & Hlen) Hc.
  destruct blocks as [|blk blocks _] using rev_ind.
  - cbn [length] in Hlen. lia.
  - apply Forall_app in Hb. destruct Hb as [Hbs Hblk].
    apply Forall_cons_iff in Hblk.
    destruct Hblk as [(d & g & -> & Hd & Hg) _].
    rewrite concat_app in E. cbn [concat] in E. rewrite app_nil_r in E.
    destruct Hg as [->|(c' & -> & Hc')].
    + apply app_inj_tail in E. destruct E as [_ ->].
      rewrite (digit_not_sep _ Hd) in Hc. discriminate.
    + change [d; c'] with ([d] ++ [c']) in E. rewrite app_assoc in E.
      apply app_inj_tail in E. destruct E as [-> _].
      split.
      * exists (blocks ++ [[d]]). split; [|split].
        -- rewrite concat_app. cbn [concat]. now rewrite app_nil_r.
        -- apply Forall_app. split; [exact Hbs|].
           constructor; [|constructor].
           exists d, []. split; [reflexivity|]. split; [exact Hd|now left].
        -- rewrite length_app in Hlen |- *. exact Hlen.
      * exists (concat blocks), d. auto.
Qed.

Lemma pan_accepts_drop_sep (m : text) (c : ascii) :
  is_sep c = true -> pan_accepts (m ++ [c]) = pan_accepts m.
Proof.
  intros Hc.
  assert (E : normalize_digits (m ++ [c]) = normalize_digits m).
  { rewrite !normalize_digits_filter, digits_of_app.
    replace (digits_of [c]) with (@nil ascii); [apply app_nil_r|].
    unfold digits_of. cbn [filter]. now rewrite (sep_not_digit _ Hc). }
  unfold pan_accepts. now rewrite E.
Qed.

Lemma filter_none (A : Type) (p : A -> bool) (l : list A) :
  Forall (fun x => p x = false) l -> filter p l = [].
Proof.
  induction 1 as [|x l Hx _ IH]; cbn [filter]; [reflexivity|].
  now rewrite Hx.
Qed.

(** A second pass over the output of the PAN pass finds only candidates
    that are not accepted: those the first pass put back, whole or less a
    separator at their end. *)
Lemma pan_second_pass (s : text) :
  forall prev prev',
    word_before prev = word_before prev' \/ no_digit_ahead s ->
    Forall (fun m => pan_accepts m = false)
      (hits (scan PAN_CANDIDATE_RE 0 prev'
               (render pan_put (scan PAN_CANDIDATE_RE 0 prev s)))).
Proof.
  remember (length s) as len eqn:Hlen. revert s Hlen.
  induction len as [len IH] using lt_wf_ind.
  intros s Hlen prev prev' Hinv.
  destruct s as [|c s'].
  - rewrite scan_nil by exact never_empty_PAN_CANDIDATE_RE. cbn [render].
    rewrite scan_nil by exact never_empty_PAN_CANDIDATE_RE. constructor.
  - destruct (match_at PAN_CANDIDATE_RE false prev (c :: s')) as [n|] eqn:E.
    + (* the first pass has a candidate here *)
      destruct (residue_found PAN_CANDIDATE_RE pan_put
                  never_empty_PAN_CANDIDATE_RE _ _ _ E)
        as (Hn & Hle & HM & Hshort & ->).
      pose proof E as E'. apply match_at_PAN_CANDIDATE_RE in E'.
      destruct E' as (M & rest & Es & LM & HMs & Hb1 & Hb2).
      destruct (firstn_skipn_of_app _ _ _ _ Es LM) as [-> ->].
      remember (render pan_put
                  (scan PAN_CANDIDATE_RE 0 (last_char prev M) rest))
        as T' eqn:ET'.
      destruct (pan_shaped_first M HMs) as (d0 & M1 & EM1 & Hd0).
      clear HM Hshort Hle.
      assert (HM : M <> []) by (rewrite EM1; discriminate).
      assert (Hw : word_before prev = word_before prev').
      { destruct Hinv as [Hw|Hnd]; [exact Hw|].
        rewrite Es, EM1 in Hnd. cbn in Hnd. congruence. }
      assert (Hrest : length rest < len).
      { subst len. rewrite Es, length_app, EM1. cbn [length]. lia. }
      unfold pan_put at 1. destruct (pan_accepts M) eqn:Hacc.
      * (* it was replaced by the token *)
        rewrite scan_keep.
        2:{ intros p1 p2 Et Hp2.
            apply match_at_PAN_CANDIDATE_RE_needs_digit.
            destruct p2 as [|x p2]; [contradiction|]. cbn [app].
            assert (Hx : In x REDACTED_PAN)
              by (rewrite Et; apply in_or_app; right; now left).
            revert Hx. clear. cbn. intros H.
            repeat (destruct H as [<-|H]; [reflexivity|]). contradiction. }
        rewrite hits_app, hits_map_Keep. cbn [app]. subst T'.
        apply (IH (length rest) Hrest rest eq_refl).
        rewrite at_boundary_word_before in Hb2.
        destruct (word_before (last_char prev M)) eqn:HwM.
        -- right. destruct rest as [|x rest']; [exact I|]. cbn.
           destruct (is_digit x) eqn:Hx; [|reflexivity].
           cbv beta iota in Hb2. rewrite (digit_is_word _ Hx) in Hb2.
           discriminate.
        -- left. reflexivity.
      * (* it was put back *)
        assert (HU : forall k,
                  match_at PAN_CANDIDATE_RE false prev' (M ++ T') = Some k ->
                  k <= n).
        { intros k Ek. rewrite ET' in Ek.
          destruct (pan_output_candidate prev prev' M rest k HM Hw Ek)
            as (S0 & y0 & E0 & L & HS & _ & Hb0).
          rewrite <- L.
          apply (match_at_PAN_longest prev (c :: s') S0 y0 n E);
            [now rewrite Es|exact HS|exact Hb0]. }
        assert (Hbo : at_boundary prev' (M ++ T') = true).
        { rewrite Es, EM1 in Hb1. rewrite EM1. cbn [app] in Hb1 |- *.
          rewrite <- Hb1. apply at_boundary_same_head. now symmetry. }
        destruct (at_boundary (last_char prev M) T') eqn:HbT.
        -- (* the same boundary stands behind it in the output *)
           destruct (match_at_PAN_complete prev' M T' HMs Hbo) as (k & Ek & Hk).
           { now rewrite (last_char_nonempty prev' prev M HM). }
           pose proof (HU k Ek) as Hkn.
           assert (k = length M) by lia. subst k.
           rewrite (scan_hit _ prev' M T' HM Ek). cbn [hits].
           constructor; [exact Hacc|]. subst T'.
           apply (IH (length rest) Hrest rest eq_refl).
           left. f_equal. now apply last_char_nonempty.
        -- (* a token stands behind it in the output *)
           destruct (pan_render_head (last_char prev M) rest) as [Hsame|Hnw].
           { rewrite <- ET' in Hsame. rewrite Hsame in HbT. congruence. }
           destruct (exists_last HM) as (M' & x & EMx).
           clear EM1. subst M.
           rewrite last_char_snoc in Hnw, HbT, Hb2. cbn [word_before] in Hnw.
           assert (Hx : is_sep x = true).
           { apply nonword_pan_char_is_sep; [|exact Hnw].
             pose proof (pan_shaped_chars _ HMs) as Hch.
             apply Forall_app in Hch. destruct Hch as [_ Hch].
             apply Forall_cons_iff in Hch. tauto. }
           destruct (pan_shaped_drop_sep M' x HMs Hx)
             as (HMs' & M'' & d & EM'' & Hd).
           assert (HM' : M' <> []) by (rewrite EM''; now destruct M'').
           rewrite <- app_assoc in HU, Hbo |- *. cbn [app] in HU, Hbo |- *.
           assert (Ek : match_at PAN_CANDIDATE_RE false prev' (M' ++ x :: T')
                        = Some (length M')).
           { destruct (match_at_PAN_complete prev' M' (x :: T') HMs' Hbo)
               as (k & Ek & Hk).
             { rewrite EM'', last_char_snoc, at_boundary_word_before.
               cbv beta iota. rewrite (sep_not_word _ Hx).
               cbn [word_before]. now rewrite (digit_is_word _ Hd). }
             pose proof (HU k Ek) as Hkn.
             rewrite length_app in LM. cbn [length] in LM.
             destruct (Nat.eq_dec k n) as [Ekn|Ekn].
             - exfalso. pose proof Ek as Ek'.
               apply match_at_PAN_CANDIDATE_RE in Ek'.
               destruct Ek' as (S0 & y & ES & L & _ & _ & Haft).
               destruct (firstn_skipn_of_app _ _ _ _ ES L) as [F1 F2].
               assert (ES' : M' ++ x :: T' = (M' ++ [x]) ++ T')
                 by now rewrite <- app_assoc.
               destruct (firstn_skipn_of_app _ (M' ++ [x]) T' k ES')
                 as [G1 G2].
               { rewrite length_app. cbn [length]. lia. }
               rewrite <- F1, <- F2, G1, G2, last_char_snoc in Haft.
               congruence.
             - rewrite Ek. f_equal. lia. }
           rewrite (scan_hit _ prev' M' (x :: T') HM' Ek). cbn [hits].
           constructor.
           { now rewrite <- (pan_accepts_drop_sep M' x Hx). }
           rewrite scan_miss
             by (apply match_at_PAN_CANDIDATE_RE_needs_digit;
                 now apply sep_not_digit).
           cbn [hits]. subst T'.
           apply (IH (length rest) Hrest rest eq_refl).
           left. now rewrite last_char_snoc.
    + (* the first pass keeps the character *)
      rewrite (scan_miss _ _ _ _ E). cbn [render].
      assert (E2 : match_at PAN_CANDIDATE_RE false prev'
                     (c :: render pan_put
                             (scan PAN_CANDIDATE_RE 0 (Some c) s'))
                   = None).
      { destruct (is_digit c) eqn:Hc;
          [|now apply match_at_PAN_CANDIDATE_RE_needs_digit].
        destruct Hinv as [Hw|Hnd]; [|cbn in Hnd; congruence].
        destruct (match_at PAN_CANDIDATE_RE false prev'
                    (c :: render pan_put
                            (scan PAN_CANDIDATE_RE 0 (Some c) s')))
          as [k|] eqn:E2; [exfalso|reflexivity].
        destruct (pan_output_candidate prev prev' [c] s' k
                    ltac:(discriminate) Hw E2)
          as (S0 & y0 & E0 & L & HS & Hb1 & Hb2).
        rewrite E0 in Hb1.
        destruct (match_at_PAN_complete prev S0 y0 HS Hb1 Hb2)
          as (j & Ej & _).
        rewrite <- E0 in Ej. cbn [app] in Ej. congruence. }
      rewrite (scan_miss _ _ _ _ E2). cbn [hits].
      apply (IH (length s') ltac:(subst len; cbn [length]; lia) s' eq_refl).
      now left.
Qed.

(** The PAN pass changes nothing in its own output. *)
Lemma redact_pans_second_pass (t : text) :
  redact_pans (fst (redact_pans t)) = (fst (redact_pans t), 0).
Proof.
  assert (Eout : fst (redact_pans t)
                 = render pan_put (scan PAN_CANDIDATE_RE 0 None t))
    by now rewrite redact_pans_render.
  rewrite Eout.
  pose proof (pan_second_pass t None None (or_introl eq_refl)) as H.
  apply filter_none in H.
  remember (render pan_put (scan PAN_CANDIDATE_RE 0 None t)) as out.
  rewrite redact_pans_render. unfold finditer. rewrite H.
  cbn [length]. f_equal.
  rewrite render_PAN_no_redaction by exact H.
  apply (source_finditer PAN_CANDIDATE_RE out).
Qed.

(** ** A second run *)

Lemma redact_ssns_of_no_match (t : text) :
  no_match SSN_RE None t -> redact_ssns t = (t, 0).
Proof.
  intros H. rewrite redact_ssns_render, (finditer_of_no_match _ _ H).
  now rewrite render_map_Keep, hits_map_Keep.
Qed.

Lemma redact_text_second_pass (s : text) (do_ssn do_pan : bool) :
  redact_text (fst (redact_text s do_ssn do_pan)) do_ssn do_pan
  = (fst (redact_text s do_ssn do_pan),
     {| ssn_redactions := 0; pan_redactions := 0 |}).
Proof.
  destruct do_ssn.
  - pose proof (redact_text_no_ssn_match s do_pan) as Hno.
    apply redact_ssns_of_no_match in Hno.
    pose proof (redact_text_ssn_enabled s do_pan) as Eo.
    remember (fst (redact_text s true do_pan)) as out eqn:Eout.
    unfold redact_text. rewrite Hno. clear Hno Eout.
    destruct do_pan; [|reflexivity].
    subst out. now rewrite redact_pans_second_pass.
  - assert (Eo : fst (redact_text s false do_pan)
                 = if do_pan then fst (redact_pans s) else s).
    { unfold redact_text. destruct do_pan; [|reflexivity].
      now destruct (redact_pans s). }
    rewrite Eo. unfold redact_text. destruct do_pan; [|reflexivity].
    now rewrite redact_pans_second_pass.
Qed.

(** X12: [redact_text] is idempotent: applied to its own output with the
    same two switches, it returns that output unchanged and counts no
    redaction of either kind. *)
Theorem redact_text_idempotent (s : text) (do_ssn do_pan : bool) :
  let out := fst (redact_text s do_ssn do_pan) in
  redact_text out do_ssn do_pan
  = (out, {| ssn_redactions := 0; pan_redactions := 0 |}).
Proof. exact (redact_text_second_pass s do_ssn do_pan). Qed.

(** X13: A file that holds an output of [redact_text] is passed over by
    a run with the same switches: when the bytes read decode to a text
    that [redact_text] returned, the iteration of the loop leaves the
    totals, the number of files written and the outputs as they were. *)
Theorem process_file_keeps_output (path : Type)
  (decode_strict : list byte -> option text)
  (decode_replace : list byte -> text) (output_path : path -> path)
  (do_ssn do_pan : bool) (e : FileEntry path) (data : list byte)
  (s : text) (st : RunState path) :
  read_bytes e = Some data ->
  decode decode_strict decode_replace data
  = fst (redact_text s do_ssn do_pan) ->
  process_file decode_strict decode_replace output_path do_ssn do_pan e st
  = st.
Proof.
  intros Hr Hd. unfold process_file. rewrite Hr.
  destruct (negb (is_file e)); [reflexivity|].
  destruct (existsb (String.eqb (suffix_lower e)) BINARY_SUFFIXES);
    [reflexivity|].
  destruct (has_nul data); [reflexivity|].
  rewrite Hd, redact_text_second_pass.
  assert (Ht : text_eqb (fst (redact_text s do_ssn do_pan))
                 (fst (redact_text s do_ssn do_pan)) = true)
    by now apply text_eqb_eq.
  now rewrite Ht.
Qed.

Lemma process_file_keeps_output_witness :
  let data := [x5b; x52; x45; x44; x41; x43; x54; x45; x44; x5f; x53; x53;
               x4e; x5d] in
  let e := {| entry_path := 7; is_file := true; suffix_lower := ".txt";
              read_bytes := Some data |} in
  let st := {| total_ssn := 1; total_pan := 0; files_written := 1;
               outputs := [(8, lit "[REDACTED_SSN]")] |} in
  read_bytes e = Some data
  /\ decode (fun _ => None) (map ascii_of_byte) data
     = fst (redact_text (lit "123-45-6789") true true)
  /\ process_file (fun _ => None) (map ascii_of_byte) S true true e st = st.
Proof.
  intros data e st. split; [reflexivity|]. split; [reflexivity|].
  apply (process_file_keeps_output nat (fun _ => None) (map ascii_of_byte) S
           true true e data (lit "123-45-6789") st eq_refl eq_refl).
Defined.

(** ** Text on either side of a barrier *)

(** A character that is no word character and no separator cannot stand
    in a match, and both patterns see it as they see the end of the
    text. *)
Lemma at_boundary_barrier (p : option ascii) (c : ascii) (b : text) :
  is_word c = false -> at_boundary p (c :: b) = at_boundary p [].
Proof.
  intros H. rewrite !at_boundary_word_before. cbv beta iota.
  now rewrite H.
Qed.

Lemma at_boundary_app_barrier (p : option ascii) (y : text) (c : ascii)
  (b : text) :
  is_word c = false ->
  at_boundary p (y ++ c :: b) = at_boundary p y.
Proof.
  intros H. destruct y as [|x y]; [now apply at_boundary_barrier|].
  cbn [app]. now rewrite !at_boundary_word_before.
Qed.

(** A span of digits and separators that starts before a barrier ends
    before it. *)
Lemma span_before_barrier (x b S0 y : text) (c : ascii) :
  x ++ c :: b = S0 ++ y ->
  Forall digit_or_sep S0 ->
  is_word c = false -> is_sep c = false ->
  exists y0, x = S0 ++ y0 /\ y = y0 ++ c :: b.
Proof.
  intros E HS Hw Hs. apply app_eq_app in E.
  destruct E as (l & [[Ex Ey]|[E0 El]]).
  - exists l. auto.
  - destruct l as [|z l].
    + exists []. rewrite app_nil_r in E0. cbn [app] in El.
      split; [now rewrite app_nil_r|now symmetry].
    + exfalso. cbn [app] in El. injection El as <- _.
      rewrite E0 in HS. apply Forall_app in HS. destruct HS as [_ HS].
      apply Forall_cons_iff in HS. destruct HS as [[Hd|Hd] _].
      * rewrite (digit_is_word _ Hd) in Hw. discriminate.
      * congruence.
Qed.

Section Barrier.

(** A pattern whose matches are spans of a shape between word boundaries,
    found whenever there is one. *)
Variable r : regex.
Variable shape : text -> Prop.

Hypothesis r_sound :
  forall prev s n,
    match_at r false prev s = Some n ->
    exists m s',
      s = m ++ s' /\ length m = n /\ shape m
      /\ at_boundary prev s = true
      /\ at_boundary (last_char prev m) s' = true.
Hypothesis r_complete :
  forall prev m s',
    shape m ->
    at_boundary prev (m ++ s') = true ->
    at_boundary (last_char prev m) s' = true ->
    exists n, match_at r false prev (m ++ s') = Some n /\ length m <= n.
Hypothesis shape_chars : forall m, shape m -> Forall digit_or_sep m.
Hypothesis shape_nonempty : forall m, shape m -> m <> [].

(** Two places where the same spans are candidates give the same
    match. *)
Lemma same_candidates (prev prev' : option ascii) (s s' : text) :
  (forall m y,
     s = m ++ y -> shape m -> at_boundary prev s = true ->
     at_boundary (last_char prev m) y = true ->
     exists y', s' = m ++ y' /\ at_boundary prev' s' = true
                /\ at_boundary (last_char prev' m) y' = true) ->
  (forall m y,
     s' = m ++ y -> shape m -> at_boundary prev' s' = true ->
     at_boundary (last_char prev' m) y = true ->
     exists y', s = m ++ y' /\ at_boundary prev s = true
                /\ at_boundary (last_char prev m) y' = true) ->
  match_at r false prev s = match_at r false prev' s'.
Proof.
  assert (Hone : forall p p' t t' n,
            (forall m y,
               t = m ++ y -> shape m -> at_boundary p t = true ->
               at_boundary (last_char p m) y = true ->
               exists y', t' = m ++ y' /\ at_boundary p' t' = true
                          /\ at_boundary (last_char p' m) y' = true) ->
            match_at r false p t = Some n ->
            exists n', match_at r false p' t' = Some n' /\ n <= n').
  { intros p p' t t' n H E. apply r_sound in E.
    destruct E as (m & y & Et & L & Hm & Hb1 & Hb2).
    destruct (H m y Et Hm Hb1 Hb2) as (y' & Et' & Hb1' & Hb2').
    rewrite Et' in Hb1' |- *.
    destruct (r_complete p' m y' Hm Hb1' Hb2') as (n' & En' & Hn').
    exists n'. split; [exact En'|lia]. }
  intros H12 H21.
  destruct (match_at r false prev s) as [n|] eqn:E.
  - destruct (Hone prev prev' s s' n H12 E) as (n' & E' & Hle).
    destruct (Hone prev' prev s' s n' H21 E') as (n'' & E'' & Hle').
    rewrite E'' in E. injection E as ->. rewrite E'. f_equal. lia.
  - destruct (match_at r false prev' s') as [n'|] eqn:E'; [|reflexivity].
    destruct (Hone prev' prev s' s n' H21 E') as (n'' & E'' & _).
    congruence.
Qed.

(** The pattern looks at what stands before it only for the word
    boundary. *)
Lemma match_at_word_before (prev prev' : option ascii) (s : text) :
  word_before prev = word_before prev' ->
  match_at r false prev s = match_at r false prev' s.
Proof.
  assert (Hone : forall p p',
            word_before p = word_before p' ->
            forall m y,
              s = m ++ y -> shape m -> at_boundary p s = true ->
              at_boundary (last_char p m) y = true ->
              exists y', s = m ++ y' /\ at_boundary p' s = true
                         /\ at_boundary (last_char p' m) y' = true).
  { intros p p' Hw m y Es Hm Hb1 Hb2. exists y. split; [exact Es|].
    split.
    - rewrite at_boundary_word_before in Hb1 |- *. now rewrite <- Hw.
    - now rewrite (last_char_nonempty p' p m (shape_nonempty m Hm)). }
  intros Hw. apply same_candidates; apply Hone; auto.
Qed.

(** Behind a barrier the text does not matter. *)
Lemma match_at_barrier (prev : option ascii) (x b : text) (c : ascii) :
  is_word c = false -> is_sep c = false ->
  match_at r false prev (x ++ c :: b) = match_at r false prev x.
Proof.
  intros Hw Hs. apply same_candidates.
  - intros m y E Hm Hb1 Hb2.
    destruct (span_before_barrier x b m y c E (shape_chars m Hm) Hw Hs)
      as (y0 & Ex & Ey).
    exists y0. split; [exact Ex|]. split.
    + rewrite at_boundary_app_barrier in Hb1 by exact Hw. exact Hb1.
    + rewrite Ey, at_boundary_app_barrier in Hb2 by exact Hw. exact Hb2.
  - intros m y E Hm Hb1 Hb2. exists (y ++ c :: b). split; [|split].
    + now rewrite E, <- app_assoc.
    + now rewrite at_boundary_app_barrier.
    + now rewrite at_boundary_app_barrier.
Qed.

Lemma never_empty_of_shape : never_empty r.
Proof.
  intros prev s E. apply r_sound in E.
  destruct E as (m & s' & _ & L & Hm & _).
  apply shape_nonempty in Hm. destruct m; [contradiction|discriminate].
Qed.

Lemma scan_word_before (prev prev' : option ascii) (s : text) :
  word_before prev = word_before prev' ->
  scan r 0 prev s = scan r 0 prev' s.
Proof.
  intros Hw. destruct s as [|c s'].
  - now rewrite !scan_nil by exact never_empty_of_shape.
  - pose proof (match_at_word_before prev prev' (c :: s') Hw) as Em.
    destruct (match_at r false prev (c :: s')) as [n|] eqn:E.
    + assert (Hn : 0 < n).
      { destruct n; [|lia]. exfalso. exact (never_empty_of_shape _ _ E). }
      rewrite (scan_found r prev _ n Hn E).
      rewrite (scan_found r prev' _ n Hn (eq_sym Em)).
      f_equal. f_equal. apply last_char_nonempty.
      intros E0. apply (f_equal (@length ascii)) in E0.
      rewrite length_firstn in E0. cbn [length] in E0. lia.
    + rewrite (scan_miss r prev c s' E).
      now rewrite (scan_miss r prev' c s' (eq_sym Em)).
Qed.

(** The scan of a text with a barrier is the scan of the text before it,
    the barrier, and the scan of the text behind it. *)
Lemma scan_barrier (b : text) (c : ascii) :
  is_word c = false -> is_sep c = false ->
  forall a prev,
    scan r 0 prev (a ++ c :: b)
    = scan r 0 prev a ++ Keep c :: scan r 0 None b.
Proof.
  intros Hw Hs a.
  remember (length a) as len eqn:Hlen. revert a Hlen.
  induction len as [len IH] using lt_wf_ind.
  intros a Hlen prev.
  pose proof (match_at_barrier prev a b c Hw Hs) as Em.
  destruct a as [|x a'].
  - rewrite scan_nil by exact never_empty_of_shape. cbn [app] in Em |- *.
    assert (E : match_at r false prev [] = None).
    { destruct (match_at r false prev []) as [n|] eqn:E; [|reflexivity].
      pose proof (match_at_length _ _ _ _ _ E) as Hl. cbn [length] in Hl.
      assert (n = 0) by lia. subst n.
      exfalso. exact (never_empty_of_shape _ _ E). }
    rewrite E in Em. rewrite (scan_miss r prev c b Em). f_equal.
    apply scan_word_before. cbn [word_before]. exact Hw.
  - destruct (match_at r false prev (x :: a')) as [n|] eqn:E.
    + assert (Hn : 0 < n).
      { destruct n; [|lia]. exfalso. exact (never_empty_of_shape _ _ E). }
      pose proof (match_at_length _ _ _ _ _ E) as Hl.
      rewrite (scan_found r prev _ n Hn Em).
      rewrite (scan_found r prev _ n Hn E).
      rewrite firstn_app, skipn_app.
      replace (n - length (x :: a')) with 0 by lia.
      cbn [firstn skipn]. rewrite app_nil_r. cbn [app]. f_equal.
      apply (IH (length (skipn n (x :: a')))); [|reflexivity].
      rewrite length_skipn. subst len. lia.
    + cbn [app] in Em |- *. rewrite (scan_miss r prev x _ Em).
      rewrite (scan_miss r prev x a' E). cbn [app]. f_equal.
      apply (IH (length a')); [subst len; cbn [length]; lia|reflexivity].
Qed.

Lemma finditer_barrier (a b : text) (c : ascii) :
  is_word c = false -> is_sep c = false ->
  finditer r (a ++ c :: b) = finditer r a ++ Keep c :: finditer r b.
Proof. intros Hw Hs. unfold finditer. now apply scan_barrier. Qed.

End Barrier.

Lemma finditer_SSN_RE_barrier (a b : text) (c : ascii) :
  is_word c = false -> is_sep c = false ->
  finditer SSN_RE (a ++ c :: b)
  = finditer SSN_RE a ++ Keep c :: finditer SSN_RE b.
Proof.
  apply finditer_barrier with (shape := ssn_shaped).
  - intros prev s n. apply match_at_SSN_RE.
  - intros prev m s' Hm Hb1 Hb2. exists (length m).
    split; [now apply match_at_SSN_RE_shaped|lia].
  - exact ssn_shaped_chars.
  - intros m Hm. destruct (ssn_shaped_first m Hm) as (d & m' & -> & _).
    discriminate.
Qed.

Lemma finditer_PAN_CANDIDATE_RE_barrier (a b : text) (c : ascii) :
  is_word c = false -> is_sep c = false ->
  finditer PAN_CANDIDATE_RE (a ++ c :: b)
  = finditer PAN_CANDIDATE_RE a ++ Keep c :: finditer PAN_CANDIDATE_RE b.
Proof.
  apply finditer_barrier with (shape := pan_shaped).
  - intros prev s n. apply match_at_PAN_CANDIDATE_RE.
  - exact match_at_PAN_complete.
  - exact pan_shaped_chars.
  - intros m Hm. destruct (pan_shaped_first m Hm) as (d & m' & -> & _).
    discriminate.
Qed.

Lemma redact_ssns_barrier (a b : text) (c : ascii) :
  is_word c = false -> is_sep c = false ->
  redact_ssns (a ++ c :: b)
  = (fst (redact_ssns a) ++ c :: fst (redact_ssns b),
     snd (redact_ssns a) + snd (redact_ssns b)).
Proof.
  intros Hw Hs.
  rewrite !redact_ssns_render, (finditer_SSN_RE_barrier a b c Hw Hs).
  cbn [fst snd]. rewrite render_app, hits_app. cbn [render hits].
  now rewrite length_app.
Qed.

Lemma redact_pans_barrier (a b : text) (c : ascii) :
  is_word c = false -> is_sep c = false ->
  redact_pans (a ++ c :: b)
  = (fst (redact_pans a) ++ c :: fst (redact_pans b),
     snd (redact_pans a) + snd (redact_pans b)).
Proof.
  intros Hw Hs.
  rewrite !redact_pans_render, (finditer_PAN_CANDIDATE_RE_barrier a b c Hw Hs).
  cbn [fst snd]. rewrite render_app, hits_app. cbn [render hits].
  now rewrite filter_app, length_app.
Qed.

(** [redact_text] by its two passes. *)
Lemma redact_text_passes (s : text) (do_ssn do_pan : bool) :
  redact_text s do_ssn do_pan
  = let t1 := if do_ssn then fst (redact_ssns s) else s in
    (if do_pan then fst (redact_pans t1) else t1,
     {| ssn_redactions := if do_ssn then snd (redact_ssns s) else 0;
        pan_redactions := if do_pan then snd (redact_pans t1) else 0 |}).
Proof.
  unfold redact_text. cbv zeta.
  destruct (redact_ssns s) as [t1 c1]. cbn [fst snd].
  destruct do_ssn.
  - destruct (redact_pans t1) as [t2 c2]. now destruct do_pan.
  - destruct (redact_pans s) as [t2 c2]. now destruct do_pan.
Qed.

(** X14: Text on either side of a character that is neither a word
    character nor a space or hyphen (a line break, a comma, a colon) is
    redacted independently: the output is the output for the text before
    it, the character, and the output for the text behind it, and each
    count is the sum of the two counts. *)
Theorem redact_text_barrier (a b : text) (c : ascii)
  (do_ssn do_pan : bool) :
  is_word c = false -> is_sep c = false ->
  let ra := redact_text a do_ssn do_pan in
  let rb := redact_text b do_ssn do_pan in
  redact_text (a ++ c :: b) do_ssn do_pan
  = (fst ra ++ c :: fst rb,
     {| ssn_redactions := ssn_redactions (snd ra) + ssn_redactions (snd rb);
        pan_redactions := pan_redactions (snd ra) + pan_redactions (snd rb) |}).
Proof.
  intros Hw Hs. cbv zeta. rewrite !redact_text_passes. cbv zeta.
  cbn [fst snd ssn_redactions pan_redactions].
  destruct do_ssn, do_pan;
    rewrite ?(redact_ssns_barrier a b c Hw Hs); cbn [fst snd];
    rewrite ?(redact_pans_barrier _ _ c Hw Hs); cbn [fst snd];
    reflexivity.
Qed.

Lemma redact_text_barrier_witness :
  let a := lit "ssn 123-45-6789" in
  let b := lit "card 4111 1111 1111 1111" in
  let c := "010"%char in
  is_word c = false /\ is_sep c = false
  /\ redact_text (a ++ c :: b) true true
     = (fst (redact_text a true true) ++ c :: fst (redact_text b true true),
        {| ssn_redactions :=
             ssn_redactions (snd (redact_text a true true))
             + ssn_redactions (snd (redact_text b true true));
           pan_redactions :=
             pan_redactions (snd (redact_text a true true))
             + pan_redactions (snd (redact_text b true true)) |}).
Proof.
  intros a b c. split; [reflexivity|]. split; [reflexivity|].
  apply (redact_text_barrier a b c true true eq_refl eq_refl).
Defined.

(** ** Long runs of digits *)

(** No match of the PAN pattern reaches into a run of twenty digits or
    more: it would have to end inside the run, where there is no word
    boundary, or to hold the whole run, which has too many digits. *)
Lemma PAN_stops_before_run (prev : option ascii) (p2 run post : text)
  (n : nat) :
  all_digits run -> 20 <= length run ->
  match_at PAN_CANDIDATE_RE false prev (p2 ++ run ++ post) = Some n ->
  n <= length p2.
Proof.
  intros Hrun Hlen H.
  apply match_at_PAN_CANDIDATE_RE in H.
  destruct H as (m & s' & E & Lm & Hm & _ & Hb).
  destruct (Nat.le_gt_cases n (length p2)) as [|Hgt]; [assumption|exfalso].
  symmetry in E. apply straddle_split in E; [|lia].
  destruct E as (x & -> & E & Hx).
  pose proof (pan_shaped_digits _ Hm) as Hmax.
  rewrite digits_of_app, length_app in Hmax.
  apply app_eq_app in E. destruct E as (l & [[-> ->]|[-> ->]]).
  - apply Forall_app in Hrun. destruct Hrun as [Hx' Hl'].
    destruct l as [|c l].
    + rewrite (digits_of_all_digits _ Hx') in Hmax.
      rewrite app_nil_r in Hlen. lia.
    + rewrite last_char_app in Hb.
      destruct (all_digits_last x (last_char prev p2) Hx' Hx)
        as (d & Hl & Hd).
      rewrite Hl in Hb.
      apply at_boundary_after_word in Hb; [|now apply digit_is_word].
      inversion Hl' as [|? ? Hc _]; subst. cbn [app] in Hb.
      rewrite (digit_is_word _ Hc) in Hb. discriminate.
  - rewrite digits_of_app, length_app in Hmax.
    rewrite (digits_of_all_digits _ Hrun) in Hmax. lia.
Qed.

Lemma PAN_not_inside_run (prev : option ascii) (r1 r2 post : text) :
  all_digits r1 -> r1 <> [] -> all_digits r2 -> r2 <> [] ->
  match_at PAN_CANDIDATE_RE false (last_char prev r1) (r2 ++ post) = None.
Proof.
  intros H1 N1 H2 N2.
  destruct (match_at PAN_CANDIDATE_RE false (last_char prev r1) (r2 ++ post))
    as [n|] eqn:E; [exfalso|reflexivity].
  apply match_at_PAN_CANDIDATE_RE in E.
  destruct E as (_ & _ & _ & _ & _ & Hb & _).
  destruct (all_digits_last r1 prev H1 N1) as (d & Hl & Hd).
  destruct r2 as [|c r2]; [contradiction|].
  inversion H2 as [|? ? Hc _]; subst.
  rewrite Hl, at_boundary_word_before in Hb. cbn [app word_before] in Hb.
  rewrite (digit_is_word _ Hc), (digit_is_word _ Hd) in Hb. discriminate.
Qed.

(** The scan of the PAN pattern keeps a run of twenty digits or more,
    character by character, wherever it stands in the text. *)
Lemma finditer_PAN_keeps_run (pre run post : text) :
  all_digits run -> 20 <= length run ->
  exists ps1 ps2,
    finditer PAN_CANDIDATE_RE (pre ++ run ++ post)
    = ps1 ++ map Keep run ++ ps2
    /\ source ps1 = pre /\ source ps2 = post.
Proof.
  intros Hrun Hlen. unfold finditer.
  destruct (scan_cut PAN_CANDIDATE_RE (run ++ post)
              never_empty_PAN_CANDIDATE_RE pre 0 None)
    as (ps1 & E1 & S1); [lia| |].
  { intros p1 p2 n _ _. now apply PAN_stops_before_run. }
  exists ps1,
    (scan PAN_CANDIDATE_RE 0 (last_char (last_char None pre) run) post).
  rewrite E1. split; [|split].
  - f_equal. apply scan_keep.
    intros r1 r2 -> Hr2.
    apply Forall_app in Hrun. destruct Hrun as [Hr1 Hr2'].
    destruct r1 as [|c r1].
    + rewrite last_char_nil.
      destruct (match_at PAN_CANDIDATE_RE false (last_char None pre)
                  (r2 ++ post)) as [n|] eqn:E; [exfalso|reflexivity].
      pose proof (PAN_stops_before_run (last_char None pre) [] r2 post n
                    Hr2' Hlen E) as Hn.
      cbn [length] in Hn. assert (n = 0) by lia. subst n.
      exact (never_empty_PAN_CANDIDATE_RE _ _ E).
    + apply PAN_not_inside_run; auto. discriminate.
  - exact S1.
  - apply source_scan. lia.
Qed.

Lemma redact_pans_keeps_run (pre run post : text) :
  all_digits run -> 20 <= length run ->
  exists ps1 ps2,
    source ps1 = pre /\ source ps2 = post
    /\ finditer PAN_CANDIDATE_RE (pre ++ run ++ post)
       = ps1 ++ map Keep run ++ ps2
    /\ redact_pans (pre ++ run ++ post)
       = (render pan_put ps1 ++ run ++ render pan_put ps2,
          length (filter pan_accepts (hits ps1))
          + length (filter pan_accepts (hits ps2))).
Proof.
  intros Hrun Hlen.
  destruct (finditer_PAN_keeps_run pre run post Hrun Hlen)
    as (ps1 & ps2 & E & S1 & S2).
  exists ps1, ps2. split; [exact S1|]. split; [exact S2|].
  split; [exact E|].
  rewrite redact_pans_render, E.
  change (fun m => if pan_accepts m then REDACTED_PAN else m) with pan_put.
  rewrite !render_app, render_map_Keep, !hits_app, hits_map_Keep.
  cbn [app]. now rewrite filter_app, length_app.
Qed.

(** X15: A run of twenty digits or more is never redacted as a PAN, in
    whole or in part, whether some part of it passes the Luhn test or
    not: the scan of the PAN pattern keeps each of its characters, so
    [redact_pans] returns the processed text before the run, the run, and
    the processed text behind it; and the run stands in the output of
    [redact_text] whatever the switches. *)
Theorem redact_pans_keeps_long_run (pre run post : text) :
  forallb is_digit run = true ->
  20 <= length run ->
  (exists ps1 ps2,
     source ps1 = pre /\ source ps2 = post
     /\ finditer PAN_CANDIDATE_RE (pre ++ run ++ post)
        = ps1 ++ map Keep run ++ ps2
     /\ redact_pans (pre ++ run ++ post)
        = (render pan_put ps1 ++ run ++ render pan_put ps2,
           length (filter pan_accepts (hits ps1))
           + length (filter pan_accepts (hits ps2))))
  /\ forall do_ssn do_pan,
       exists pre' post',
         fst (redact_text (pre ++ run ++ post) do_ssn do_pan)
         = pre' ++ run ++ post'.
Proof.
  intros Hd Hlen. apply all_digits_forallb in Hd.
  split; [now apply redact_pans_keeps_run|].
  intros do_ssn do_pan. rewrite redact_text_passes. cbv zeta. cbn [fst].
  assert (H1 : exists pre1 post1,
            (if do_ssn then fst (redact_ssns (pre ++ run ++ post))
             else pre ++ run ++ post) = pre1 ++ run ++ post1).
  { destruct do_ssn; [|now exists pre, post].
    destruct (finditer_SSN_RE_keeps_run pre run post Hd ltac:(lia))
      as (ps1 & ps2 & E & _ & _).
    rewrite redact_ssns_render, E. cbn [fst].
    rewrite !render_app, render_map_Keep. eauto. }
  destruct H1 as (pre1 & post1 & ->).
  destruct do_pan; [|now exists pre1, post1].
  destruct (redact_pans_keeps_run pre1 run post1 Hd Hlen)
    as (qs1 & qs2 & _ & _ & _ & ->).
  cbn [fst]. eauto.
Qed.

Lemma redact_pans_keeps_long_run_witness :
  forallb is_digit (lit "00004111111111111111") = true
  /\ 20 <= length (lit "00004111111111111111")
  /\ exists pre' post',
       fst (redact_text
              (lit "ref " ++ lit "00004111111111111111" ++ lit ".")
              true true)
       = pre' ++ lit "00004111111111111111" ++ post'.
Proof.
  split; [reflexivity|]. split; [vm_compute; lia|].
  apply (redact_pans_keeps_long_run (lit "ref ")
           (lit "00004111111111111111") (lit "."));
    [reflexivity|vm_compute; lia].
Defined.

(** ** The embedding at work *)

(** Empty matches are replaced too, but not twice at one position, as
    [re.sub] does since Python 3.7. *)
Example finditer_empty_matches :
  finditer (Repeat (Class is_sep) 0 None) (lit "ab- d")
  = [Hit []; Keep "a"; Hit []; Keep "b"; Hit (lit "- "); Hit [];
     Keep "d"; Hit []]%char.
Proof. reflexivity. Qed.

(** The separator behind the last digit belongs to the candidate. *)
Example redact_pans_trailing_separator :
  redact_pans (lit "card 4111 1111 1111 1111 and 4111-1111-1111-1111.")
  = (lit "card [REDACTED_PAN]and [REDACTED_PAN].", 2).
Proof. vm_compute. reflexivity. Qed.

(** A candidate is taken as long as the pattern allows: the seventeenth
    digit makes this one fail the Luhn test. *)
Example redact_pans_greedy :
  redact_pans (lit "4111111111111111 1") = (lit "4111111111111111 1", 0).
Proof. vm_compute. reflexivity. Qed.

Example redact_ssns_not_inside_words :
  redact_ssns (lit "x 123-45-6789 a123456789 1234567890 123 456789")
  = (lit "x [REDACTED_SSN] a123456789 1234567890 [REDACTED_SSN]", 2).
Proof. vm_compute. reflexivity. Qed.

Example redact_text_ssn_only :
  redact_text (lit "ssn 123-45-6789 card 4111111111111111.") true false
  = (lit "ssn [REDACTED_SSN] card 4111111111111111.",
     {| ssn_redactions := 1; pan_redactions := 0 |}).
Proof. vm_compute. reflexivity. Qed.

Example luhn_one_digit_off :
  luhn_is_valid (lit "4111111111111111") = true
  /\ luhn_is_valid (lit "4111111111111112") = false.
Proof. split; reflexivity. Qed.
